(** * Travle.ai: conversation analysis, response validation and error
      classification of the two API routes, as a shallow embedding.

    Sources embedded here:
    - [app/api/assistant/route.ts]: [shouldGenerateRecommendations],
      [getInformationGatheringPrompt], [validateRecommendationResponse],
      [POST];
    - [app/api/map-recommendations/route.ts]: the request check, the
      parsing and the id-backfill tail of [POST];
    - [lib/openrouter.ts] and [lib/types.ts] (their text follows
      [docs/VERCEL_DEPLOYMENT.md] in the source tree):
      [handleErrorResponse], [chat] and the record types;
    - [app/page.tsx]: [callAssistantWithRetry]; and of
      [components/MapView.tsx] (its text follows [app/page.tsx] in the
      source tree): the cooldown of [handleMapClick] and the ranking of
      [fetchNearbyAttractions].

    JavaScript strings are sequences of UTF-16 code units, JSON documents
    are a tree type with insertion-ordered objects, thrown values are an
    inductive type, and fallible code returns a sum.  The body of an
    answer, and of a request to the provider, is the value as
    [JSON.stringify] writes it. *)

From Stdlib Require Import List NArith ZArith Bool String Ascii Lia.
From Stdlib Require Import Setoid Sorted Permutation.
From Stdlib Require QArith Lqa.
Import ListNotations.
Open Scope string_scope.
Open Scope list_scope.

Set Implicit Arguments.

(* ================================================================== *)
(** * JavaScript values *)
(* ================================================================== *)

Module JS.

(** A string is a list of 16-bit code units. *)
Definition jschar := N.
Definition jsstring := list jschar.

(** Source literals: every character of a Rocq string literal becomes one
    code unit. *)
Definition lit (s : string) : jsstring :=
  map N_of_ascii (list_ascii_of_string s).
Arguments lit : simpl never.

(** JSON text in examples is written with single quotes standing for the
    double quotes of JSON. *)
Definition json_text (s : string) : jsstring :=
  map (fun c => if N.eqb c 39 then 34%N else c) (lit s).

Fixpoint str_eqb (a b : jsstring) : bool :=
  match a, b with
  | [], [] => true
  | x :: a', y :: b' => N.eqb x y && str_eqb a' b'
  | _, _ => false
  end.

(** [String.prototype.includes]: [needle] occurs somewhere in [hay]. *)
Fixpoint starts_with (needle hay : jsstring) : bool :=
  match needle, hay with
  | [], _ => true
  | x :: n', y :: h' => N.eqb x y && starts_with n' h'
  | _ :: _, [] => false
  end.

Fixpoint includes (hay needle : jsstring) : bool :=
  starts_with needle hay ||
  match hay with
  | [] => false
  | _ :: h' => includes h' needle
  end.

(** [Array.prototype.join] on an array of strings. *)
Fixpoint join (sep : jsstring) (l : list jsstring) : jsstring :=
  match l with
  | [] => []
  | [x] => x
  | x :: l' => x ++ sep ++ join sep l'
  end.

(** Decimal rendering of a non-negative integer, as a template literal
    renders a small integer. *)
Fixpoint digits_of_pos (fuel : nat) (n : N) (acc : jsstring) : jsstring :=
  match fuel with
  | O => acc
  | S f =>
      let acc' := (48 + N.modulo n 10)%N :: acc in
      if (n <? 10)%N then acc' else digits_of_pos f (N.div n 10) acc'
  end.

Definition string_of_N (n : N) : jsstring :=
  digits_of_pos (S (N.to_nat (N.log2 n))) n [].

Definition string_of_Z (z : Z) : jsstring :=
  if (z <? 0)%Z then 45%N :: string_of_N (Z.abs_N z) else string_of_N (Z.abs_N z).

(** A parsed JSON document.  A number [JNum m e] is the decimal literal
    of value [m * 10^e]; an object is the list of its own properties in
    insertion order, each key bound once.  (An engine enumerates the
    integer-like keys of an object first; nothing below depends on the
    order of enumeration.) *)
#[local] Unset Elimination Schemes.
Inductive json : Type :=
| JNull
| JBool (b : bool)
| JNum (m e : Z)
| JStr (s : jsstring)
| JArr (l : list json)
| JObj (o : list (jsstring * json)).
#[local] Set Elimination Schemes.

(** The result of reading a property: [None] is [undefined]. *)
Definition value := option json.

(** Values thrown by the program and by the runtime. *)
Inductive exn : Type :=
| Error (message : jsstring)
| TypeError (message : jsstring)
| SyntaxError (message : jsstring).

Definition message_of (e : exn) : jsstring :=
  match e with
  | Error m | TypeError m | SyntaxError m => m
  end.

(** Fallible computations: [inl] is a throw. *)
Definition M (A : Type) : Type := (exn + A)%type.
Definition ret {A} (a : A) : M A := inr a.
Definition throw {A} (e : exn) : M A := inl e.
Definition bind {A B} (c : M A) (f : A -> M B) : M B :=
  match c with
  | inl e => inl e
  | inr a => f a
  end.

(** A decimal literal [m * 10^e] converts to the double 0 exactly when
    its magnitude is at most half the least subnormal, [2^-1075] (ties go
    to the even neighbour, which is 0). *)
Definition rounds_to_zero (m e : Z) : bool :=
  (m =? 0)%Z ||
  ((e <? 0)%Z && (Z.abs m * 2 ^ 1075 <=? 10 ^ (- e))%Z).

(** ToBoolean. *)
Definition truthy (v : value) : bool :=
  match v with
  | None => false
  | Some JNull => false
  | Some (JBool b) => b
  | Some (JNum m e) => negb (rounds_to_zero m e)
  | Some (JStr s) => match s with [] => false | _ => true end
  | Some (JArr _) => true
  | Some (JObj _) => true
  end.

Fixpoint lookup (k : jsstring) (o : list (jsstring * json)) : value :=
  match o with
  | [] => None
  | (k', v) :: o' => if str_eqb k k' then Some v else lookup k o'
  end.

(** Assignment [o[k] = v]: an existing key keeps its position. *)
Fixpoint obj_set (k : jsstring) (v : json) (o : list (jsstring * json))
  : list (jsstring * json) :=
  match o with
  | [] => [(k, v)]
  | (k', v') :: o' =>
      if str_eqb k k' then (k', v) :: o' else (k', v') :: obj_set k v o'
  end.

(** The [TypeError] of a property read from [null] or [undefined], in the
    wording of V8. *)
Definition null_read (what p : jsstring) : exn :=
  TypeError (lit "Cannot read properties of " ++ what ++ lit " (reading '"
             ++ p ++ lit "')").

(** Property read [v.p] for the property names this program reads
    ([messages], [role], [content], [summary], [plans], [destination],
    ..., [id], [coordinates], [lat], [lng], [choices], [usage], [error],
    [message], [code]): none of them is inherited from a prototype, so
    on an object the read is an own-property lookup and on any other
    non-nullish value it is [undefined].  Reading from [null] or
    [undefined] throws. *)
Definition get (v : value) (p : jsstring) : M value :=
  match v with
  | None => throw (null_read (lit "undefined") p)
  | Some JNull => throw (null_read (lit "null") p)
  | Some (JObj o) => ret (lookup p o)
  | Some _ => ret None
  end.

(** Optional chaining [v?.p]. *)
Definition get_opt (v : value) (p : jsstring) : value :=
  match v with
  | Some (JObj o) => lookup p o
  | _ => None
  end.

Definition isArray (v : value) : bool :=
  match v with
  | Some (JArr _) => true
  | _ => false
  end.

Definition is_string (v : value) : bool :=
  match v with
  | Some (JStr _) => true
  | _ => false
  end.

Definition is_number (v : value) : bool :=
  match v with
  | Some (JNum _ _) => true
  | _ => false
  end.

(** [a || b] on values. *)
Definition or_else (a b : value) : value := if truthy a then a else b.

(** A decimal literal [m * 10^e] converts to an infinite double exactly
    when its magnitude is at least [2^1024 - 2^970], halfway between
    the largest finite double and [2^1024] (ties go to the even
    neighbour, which is [2^1024]). *)
Definition rounds_to_infinity (m e : Z) : bool :=
  if (0 <=? e)%Z
  then (2 ^ 1024 - 2 ^ 970 <=? Z.abs m * 10 ^ e)%Z
  else ((2 ^ 1024 - 2 ^ 970) * 10 ^ (- e) <=? Z.abs m)%Z.

(** What a value becomes when it is written with [JSON.stringify], as
    [NextResponse.json] and the body of a request do, and read back: a
    number that is not finite is written as [null]; any other number
    stands for the same double.  (The order in which the properties of
    an object are written is not modelled.) *)
Fixpoint written (v : json) : json :=
  match v with
  | JNum m e => if rounds_to_infinity m e then JNull else v
  | JArr l => JArr (map written l)
  | JObj o => JObj (map (fun kv : jsstring * json => let (k, x) := kv in (k, written x)) o)
  | _ => v
  end.

(** A property whose value is [undefined] is not written. *)
Definition written_value (v : value) : value := option_map written v.

End JS.

Import JS.

Notation "x <- c ;; k" := (bind c (fun x => k))
  (at level 61, c at next level, right associativity).

(* ================================================================== *)
(** * [JSON.parse] *)
(* ================================================================== *)

(** The grammar of ECMA-404, which [JSON.parse] accepts exactly: four
    whitespace characters, the three literals, numbers, strings with the
    eight short escapes and [\uXXXX], arrays and objects without trailing
    commas.  A repeated key keeps the last value. *)
Module JSONParse.

Inductive presult (A : Type) : Type :=
| POk (a : A) (rest : jsstring)
| PFail
| PFuel.
Arguments PFail {A}.
Arguments PFuel {A}.

Definition is_ws (c : jschar) : bool :=
  N.eqb c 32 || N.eqb c 9 || N.eqb c 10 || N.eqb c 13.

Fixpoint skip_ws (s : jsstring) : jsstring :=
  match s with
  | c :: s' => if is_ws c then skip_ws s' else s
  | [] => []
  end.

Definition is_digit (c : jschar) : bool := (48 <=? c)%N && (c <=? 57)%N.

Definition hex_val (c : jschar) : option N :=
  if is_digit c then Some (c - 48)%N
  else if (97 <=? c)%N && (c <=? 102)%N then Some (c - 87)%N
  else if (65 <=? c)%N && (c <=? 70)%N then Some (c - 55)%N
  else None.

Definition hex4 (a b c d : jschar) : option jschar :=
  match hex_val a, hex_val b, hex_val c, hex_val d with
  | Some x, Some y, Some z, Some w => Some (((x * 16 + y) * 16 + z) * 16 + w)%N
  | _, _, _, _ => None
  end.

Definition short_escape (c : jschar) : option jschar :=
  match c with
  | 34 => Some 34 | 92 => Some 92 | 47 => Some 47
  | 98 => Some 8 | 102 => Some 12 | 110 => Some 10
  | 114 => Some 13 | 116 => Some 9
  | _ => None
  end%N.

(** The characters of a string after its opening quote, up to and
    including the closing quote; [acc] holds the decoded prefix reversed. *)
Fixpoint parse_chars (acc : jsstring) (s : jsstring) : presult jsstring :=
  match s with
  | [] => PFail
  | c :: s' =>
      if N.eqb c 34 then POk (rev acc) s'
      else if N.eqb c 92 then
        match s' with
        | [] => PFail
        | e :: s'' =>
            if N.eqb e 117 then
              match s'' with
              | h1 :: h2 :: h3 :: h4 :: s3 =>
                  match hex4 h1 h2 h3 h4 with
                  | Some u => parse_chars (u :: acc) s3
                  | None => PFail
                  end
              | _ => PFail
              end
            else
              match short_escape e with
              | Some u => parse_chars (u :: acc) s''
              | None => PFail
              end
        end
      else if (c <? 32)%N then PFail
      else parse_chars (c :: acc) s'
  end.

(** A maximal run of digits, as the number it spells and its length. *)
Fixpoint take_digits (val : Z) (len : Z) (s : jsstring) : Z * Z * jsstring :=
  match s with
  | c :: s' =>
      if is_digit c then take_digits (val * 10 + Z.of_N (c - 48)) (len + 1) s'
      else (val, len, s)
  | [] => (val, len, s)
  end.

(** [int]: a single 0, or a non-zero digit followed by digits. *)
Definition parse_int (s : jsstring) : presult Z :=
  match s with
  | c :: s' =>
      if N.eqb c 48 then POk 0%Z s'
      else if is_digit c then
        let '(v, _, r) := take_digits (Z.of_N (c - 48)) 1 s' in POk v r
      else PFail
  | [] => PFail
  end.

(** [frac]: after the mantissa [m], a dot and at least one digit. *)
Definition parse_frac (m : Z) (s : jsstring) : presult (Z * Z) :=
  match s with
  | c :: s' =>
      if N.eqb c 46 then
        match s' with
        | d :: _ =>
            if is_digit d then
              let '(v, n, r) := take_digits m 0 s' in POk (v, (- n)%Z) r
            else PFail
        | [] => PFail
        end
      else POk (m, 0%Z) s
  | [] => POk (m, 0%Z) s
  end.

(** [exp]: an optional signed decimal exponent. *)
Definition parse_exp (s : jsstring) : presult Z :=
  match s with
  | c :: s' =>
      if N.eqb c 101 || N.eqb c 69 then
        let '(neg, s1) :=
          match s' with
          | g :: s'' =>
              if N.eqb g 45 then (true, s'')
              else if N.eqb g 43 then (false, s'')
              else (false, s')
          | [] => (false, s')
          end in
        match s1 with
        | d :: _ =>
            if is_digit d then
              let '(v, _, r) := take_digits 0 0 s1 in
              POk (if neg then (- v)%Z else v) r
            else PFail
        | [] => PFail
        end
      else POk 0%Z s
  | [] => POk 0%Z s
  end.

Definition parse_number (s : jsstring) : presult json :=
  let '(neg, s0) :=
    match s with
    | c :: s' => if N.eqb c 45 then (true, s') else (false, s)
    | [] => (false, s)
    end in
  match parse_int s0 with
  | POk i s1 =>
      match parse_frac i s1 with
      | POk (m, e1) s2 =>
          match parse_exp s2 with
          | POk e2 s3 => POk (JNum (if neg then (- m)%Z else m) (e1 + e2)) s3
          | PFail => PFail
          | PFuel => PFuel
          end
      | PFail => PFail
      | PFuel => PFuel
      end
  | PFail => PFail
  | PFuel => PFuel
  end.

Definition expect (w : jsstring) (v : json) (s : jsstring) : presult json :=
  if starts_with w s then POk v (skipn (List.length w) s) else PFail.

(** One unit of fuel is spent per value and per array element or object
    member; [parse_elements] and [parse_members] start at the first
    character of an element, respectively of a member's key. *)
Fixpoint parse_value (fuel : nat) (s : jsstring) : presult json :=
  match fuel with
  | O => PFuel
  | S f =>
      match skip_ws s with
      | [] => PFail
      | c :: s' =>
          if N.eqb c 123 then
            match skip_ws s' with
            | d :: s'' =>
                if N.eqb d 125 then POk (JObj []) s''
                else
                  match parse_members f [] (d :: s'') with
                  | POk o r => POk (JObj o) r
                  | PFail => PFail
                  | PFuel => PFuel
                  end
            | [] => PFail
            end
          else if N.eqb c 91 then
            match skip_ws s' with
            | d :: s'' =>
                if N.eqb d 93 then POk (JArr []) s''
                else
                  match parse_elements f [] (d :: s'') with
                  | POk l r => POk (JArr l) r
                  | PFail => PFail
                  | PFuel => PFuel
                  end
            | [] => PFail
            end
          else if N.eqb c 34 then
            match parse_chars [] s' with
            | POk str r => POk (JStr str) r
            | PFail => PFail
            | PFuel => PFuel
            end
          else if N.eqb c 116 then expect (lit "true") (JBool true) (c :: s')
          else if N.eqb c 102 then expect (lit "false") (JBool false) (c :: s')
          else if N.eqb c 110 then expect (lit "null") JNull (c :: s')
          else parse_number (c :: s')
      end
  end

with parse_elements (fuel : nat) (acc : list json) (s : jsstring)
  : presult (list json) :=
  match fuel with
  | O => PFuel
  | S f =>
      match parse_value f s with
      | POk v r =>
          match skip_ws r with
          | c :: r' =>
              if N.eqb c 44 then parse_elements f (v :: acc) r'
              else if N.eqb c 93 then POk (rev (v :: acc)) r'
              else PFail
          | [] => PFail
          end
      | PFail => PFail
      | PFuel => PFuel
      end
  end

with parse_members (fuel : nat) (acc : list (jsstring * json)) (s : jsstring)
  : presult (list (jsstring * json)) :=
  match fuel with
  | O => PFuel
  | S f =>
      match skip_ws s with
      | q :: s1 =>
          if N.eqb q 34 then
            match parse_chars [] s1 with
            | POk k s2 =>
                match skip_ws s2 with
                | c :: s3 =>
                    if N.eqb c 58 then
                      match parse_value f s3 with
                      | POk v r =>
                          match skip_ws r with
                          | d :: r' =>
                              if N.eqb d 44 then parse_members f (obj_set k v acc) r'
                              else if N.eqb d 125 then POk (obj_set k v acc) r'
                              else PFail
                          | [] => PFail
                          end
                      | PFail => PFail
                      | PFuel => PFuel
                      end
                    else PFail
                | [] => PFail
                end
            | PFail => PFail
            | PFuel => PFuel
            end
          else PFail
      | [] => PFail
      end
  end.

(** Every recursive call follows at least one consumed character, so
    fuel proportional to the length of the text is never exhausted (see
    [parse_value_fuel]). *)
Definition fuel_for (s : jsstring) : nat := S (2 * List.length s).

(** [JSON.parse]: a value surrounded by whitespace only; [None] is the
    thrown [SyntaxError]. *)
Definition JSON_parse (s : jsstring) : option json :=
  match parse_value (fuel_for s) s with
  | POk v rest => match skip_ws rest with [] => Some v | _ => None end
  | _ => None
  end.

End JSONParse.

Import JSONParse.

(* ================================================================== *)
(** * Regular expressions *)
(* ================================================================== *)

(** The fragment of ECMAScript regular expressions the two routes use,
    with the backtracking semantics of the language: a matcher takes a
    continuation and returns the first success in priority order
    (alternatives left to right, quantifiers greedy).  Quantifiers occur
    in the source only over single character classes. *)
Module Regex.

Inductive regex : Type :=
| Lit (w : jsstring)                (* a literal run of characters *)
| Seq (r1 r2 : regex)
| Alt (r1 r2 : regex)
| Opt (r : regex)                   (* r? *)
| Star (p : jschar -> bool)         (* [p]* *)
| Plus (p : jschar -> bool)         (* [p]+ *)
| Rep (n : nat) (p : jschar -> bool) (* [p]{n} *)
| WordB                             (* \b *)
| Grp (r : regex).                  (* capturing group 1 *)

(** Character classes. *)
Definition digit (c : jschar) : bool := (48 <=? c)%N && (c <=? 57)%N.

Definition word (c : jschar) : bool :=
  ((97 <=? c)%N && (c <=? 122)%N) || ((65 <=? c)%N && (c <=? 90)%N)
  || digit c || N.eqb c 95.

(** [\s]: WhiteSpace and LineTerminator of the language. *)
Definition space (c : jschar) : bool :=
  ((9 <=? c)%N && (c <=? 13)%N) || N.eqb c 32 || N.eqb c 160
  || N.eqb c 5760 || ((8192 <=? c)%N && (c <=? 8202)%N)
  || N.eqb c 8232 || N.eqb c 8233 || N.eqb c 8239 || N.eqb c 8287
  || N.eqb c 12288 || N.eqb c 65279.

(** [[\s\S]]. *)
Definition any (c : jschar) : bool := space c || negb (space c).

Fixpoint strip_prefix (w s : jsstring) : option jsstring :=
  match w, s with
  | [], _ => Some s
  | x :: w', y :: s' => if N.eqb x y then strip_prefix w' s' else None
  | _ :: _, [] => None
  end.

Definition is_word_at (c : option jschar) : bool :=
  match c with
  | Some x => word x
  | None => false
  end.

(** A continuation receives the capture, the character just before the
    current position and the rest of the input. *)
Definition cont (A : Type) : Type :=
  option jsstring -> option jschar -> jsstring -> option A.

Definition first_of {A} (a b : option A) : option A :=
  match a with
  | Some x => Some x
  | None => b
  end.

Section Loops.
Context {A : Type} (p : jschar -> bool)
        (k : option jschar -> jsstring -> option A).

(** Greedy iteration: take one more character first, give it back on
    failure. *)
Fixpoint star_loop (prev : option jschar) (s : jsstring) : option A :=
  match s with
  | c :: s' =>
      if p c then first_of (star_loop (Some c) s') (k prev s) else k prev s
  | [] => k prev s
  end.

Fixpoint rep_loop (n : nat) (prev : option jschar) (s : jsstring) : option A :=
  match n with
  | O => k prev s
  | S n' =>
      match s with
      | c :: s' => if p c then rep_loop n' (Some c) s' else None
      | [] => None
      end
  end.
End Loops.

Fixpoint rmatch {A} (r : regex) (k : cont A)
  (cap : option jsstring) (prev : option jschar) (s : jsstring) : option A :=
  match r with
  | Lit w =>
      match strip_prefix w s with
      | Some rest => k cap (List.last (map Some w) prev) rest
      | None => None
      end
  | Seq r1 r2 => rmatch r1 (fun cap' prev' s' => rmatch r2 k cap' prev' s') cap prev s
  | Alt r1 r2 => first_of (rmatch r1 k cap prev s) (rmatch r2 k cap prev s)
  | Opt r1 => first_of (rmatch r1 k cap prev s) (k cap prev s)
  | Star p => star_loop p (k cap) prev s
  | Plus p =>
      match s with
      | c :: s' => if p c then star_loop p (k cap) (Some c) s' else None
      | [] => None
      end
  | Rep n p => rep_loop p (k cap) n prev s
  | WordB =>
      if xorb (is_word_at prev) (is_word_at (List.hd_error s))
      then k cap prev s else None
  | Grp r1 =>
      rmatch r1
        (fun _ prev' s' =>
           k (Some (firstn (List.length s - List.length s') s)) prev' s')
        cap prev s
  end.

(** The leftmost start position at which the expression matches. *)
Fixpoint search {A} (r : regex) (k : cont A)
  (prev : option jschar) (s : jsstring) : option A :=
  first_of (rmatch r k None prev s)
    match s with
    | [] => None
    | c :: s' => search r k (Some c) s'
    end.

(** [RegExp.prototype.test]. *)
Definition test (r : regex) (s : jsstring) : bool :=
  match search r (fun _ _ _ => Some tt) None s with
  | Some _ => true
  | None => false
  end.

(** [String.prototype.match] without the global flag, reduced to the
    text of group 1 of the first match ([jsonMatch[1]]). *)
Definition match1 (r : regex) (s : jsstring) : option jsstring :=
  match search r (fun cap _ _ => Some cap) None s with
  | Some (Some g) => Some g
  | _ => None
  end.

(** [w1|w2|...] over literal words. *)
Fixpoint words (w : string) (ws : list string) : regex :=
  match ws with
  | [] => Lit (lit w)
  | w' :: ws' => Alt (Lit (lit w)) (words w' ws')
  end.

(** Concatenation of several items. *)
Fixpoint seq (r : regex) (rs : list regex) : regex :=
  match rs with
  | [] => r
  | r' :: rs' => Seq r (seq r' rs')
  end.

End Regex.

Import Regex.

(* ================================================================== *)
(** * [lib/types.ts] *)
(* ================================================================== *)

Inductive Role : Type := user | assistant | system.

Record Message : Type := {
  role : Role;
  content : jsstring;
  timestamp : Z
}.

(** [ErrorResponse], and the bodies the routes answer with. *)
Record ErrorResponse : Type := {
  error : jsstring;
  message : jsstring;
  code : jsstring;
  retryable : bool
}.

(* ================================================================== *)
(** * [app/api/assistant/route.ts]: the completeness analysis *)
(* ================================================================== *)

Module Analyzer.

(** [/\b(want to|going to|visit|travel to|interested in|thinking about)\s+\w+/] *)
Definition re_intent : regex :=
  seq WordB
    [Grp (words "want to" ["going to"; "visit"; "travel to"; "interested in";
                           "thinking about"]);
     Plus space; Plus word].

(** [/\b(beach|mountain|city|europe|asia|africa|america|country|island)\b/] *)
Definition re_place : regex :=
  seq WordB
    [Grp (words "beach" ["mountain"; "city"; "europe"; "asia"; "africa";
                         "america"; "country"; "island"]);
     WordB].

(** [/\$\d+|budget|spend|afford|cost|price|cheap|expensive|\d+\s*(dollars|usd|euros|pounds)/] *)
Definition re_budget : regex :=
  Alt (Seq (Lit (lit "$")) (Plus digit))
    (Alt (words "budget" ["spend"; "afford"; "cost"; "price"; "cheap"; "expensive"])
       (seq (Plus digit)
          [Star space; Grp (words "dollars" ["usd"; "euros"; "pounds"])])).

(** [/\d{4}|\b(january|...|december)\b/] *)
Definition re_year_or_month : regex :=
  Alt (Rep 4 digit)
    (seq WordB
       [Grp (words "january" ["february"; "march"; "april"; "may"; "june";
                              "july"; "august"; "september"; "october";
                              "november"; "december"]);
        WordB]).

(** [/next (week|month|year|summer|winter|spring|fall)/] *)
Definition re_next : regex :=
  Seq (Lit (lit "next "))
    (Grp (words "week" ["month"; "year"; "summer"; "winter"; "spring"; "fall"])).

(** [/in \d+ (days|weeks|months)/] *)
Definition re_in_n : regex :=
  seq (Lit (lit "in "))
    [Plus digit; Lit (lit " "); Grp (words "days" ["weeks"; "months"])].

(** [/\b(soon|later|planning)\b/] *)
Definition re_hedge : regex :=
  seq WordB [Grp (words "soon" ["later"; "planning"]); WordB].

Definition hasDestination (text : jsstring) : bool :=
  test re_intent text || test re_place text.

Definition hasBudget (text : jsstring) : bool := test re_budget text.

Definition hasDates (text : jsstring) : bool :=
  test re_year_or_month text || test re_next text
  || test re_in_n text || test re_hedge text.

Section WithCaseMapping.

(** [String.prototype.toLowerCase] is the case mapping of the runtime;
    the analysis is stated for any such mapping. *)
Variable toLowerCase : jsstring -> jsstring.

Definition conversationText (messages : list Message) : jsstring :=
  toLowerCase
    (join (lit " ")
       (map content
          (filter (fun m => match role m with
                            | user | assistant => true
                            | system => false
                            end) messages))).

(** [missingInfo.push(x)] when the signal is absent. *)
Definition push_unless (present : bool) (x : jsstring) (l : list jsstring)
  : list jsstring :=
  if present then l else l ++ [x].

Record Analysis : Type := {
  shouldGenerate : bool;
  missingInfo : list jsstring
}.

Definition shouldGenerateRecommendations (messages : list Message) : Analysis :=
  let text := conversationText messages in
  let missing0 := [] in
  let missing1 := push_unless (hasDestination text) (lit "destination") missing0 in
  let missing2 := push_unless (hasBudget text) (lit "budget") missing1 in
  let missing3 := push_unless (hasDates text) (lit "dates") missing2 in
  {| shouldGenerate := hasDestination text && (hasBudget text || hasDates text);
     missingInfo := missing3 |}.

End WithCaseMapping.

(** The mapping on the letters A-Z, where every case mapping agrees; it
    serves to run the analysis on ASCII conversations. *)
Definition toLowerCase_ascii (s : jsstring) : jsstring :=
  map (fun c => if (65 <=? c)%N && (c <=? 90)%N then (c + 32)%N else c) s.

Definition say (r : Role) (text : string) : Message :=
  {| role := r; content := lit text; timestamp := 0 |}.

End Analyzer.

Import Analyzer.

(* ================================================================== *)
(** * [lib/openrouter.ts]: the gateway *)
(* ================================================================== *)

Module OpenRouter.

Inductive ResponseFormat : Type := json_format | text_format.

Record ChatOptions : Type := {
  temperature : json;
  maxTokens : Z;
  responseFormat : option ResponseFormat
}.

Record ChatResponse : Type := {
  chat_content : value;
  usage : value * value * value
}.

(** The body sent to the completion endpoint, as [JSON.stringify]
    writes it. *)
Record RequestBody : Type := {
  rb_messages : list (value * value);
  rb_temperature : json;
  rb_max_tokens : Z;
  rb_json_object : bool
}.

(** What [fetch] resolves to: the status line, and the outcome of
    [response.json()]. *)
Record Reply : Type := {
  status : Z;
  statusText : jsstring;
  json_body : M json
}.

Definition ok (r : Reply) : bool := (200 <=? status r)%Z && (status r <=? 299)%Z.

Section WithRuntime.

(** [Number.prototype.toString] of the double nearest to [m * 10^e]. *)
Variable number_to_string : Z -> Z -> jsstring.

(** ToString of a parsed value, as a template literal applies it. *)
Fixpoint ToString (v : json) : jsstring :=
  match v with
  | JNull => lit "null"
  | JBool true => lit "true"
  | JBool false => lit "false"
  | JNum m e => number_to_string m e
  | JStr s => s
  | JArr l =>
      join (lit ",")
        (map (fun x => match x with JNull => [] | _ => ToString x end) l)
  | JObj _ => lit "[object Object]"
  end.

Definition display (v : value) : jsstring :=
  match v with
  | None => lit "undefined"
  | Some j => ToString j
  end.

(** [handleErrorResponse]: always throws; the result is the value
    thrown.  The [switch] on the status is the chain of its strict
    comparisons. *)
Definition handleErrorResponse (response : Reply) : exn :=
  match json_body response with
  | inl _ =>
      Error (lit "OpenRouter API error: " ++ string_of_Z (status response)
             ++ lit " " ++ statusText response)
  | inr errorData =>
      match get (Some errorData) (lit "error") with
      | inl e => e
      | inr err =>
          let errorMessage :=
            or_else (or_else (get_opt err (lit "message"))
                             (get_opt (Some errorData) (lit "message")))
                    (Some (JStr (lit "Unknown error"))) in
          let errorCode :=
            or_else (get_opt err (lit "code"))
                    (Some (JStr (string_of_Z (status response)))) in
          let st := status response in
          if (st =? 401)%Z then
            Error (lit "Invalid OpenRouter API key. Please check your OPENROUTER_API_KEY environment variable.")
          else if (st =? 429)%Z then
            Error (lit "Rate limit exceeded. Please try again later.")
          else if (st =? 400)%Z then
            Error (lit "Bad request: " ++ display errorMessage)
          else if (st =? 500)%Z || (st =? 502)%Z || (st =? 503)%Z then
            Error (lit "OpenRouter service error: " ++ display errorMessage
                   ++ lit ". Please try again.")
          else
            Error (lit "OpenRouter API error (" ++ display errorCode
                   ++ lit "): " ++ display errorMessage)
      end
  end.

(** [messages.map(({ role, content }) => ({ role, content }))]; the
    routes pass no [null] message. *)
Fixpoint formattedMessages (messages : list json) : M (list (value * value)) :=
  match messages with
  | [] => ret []
  | m :: l' =>
      r <- get (Some m) (lit "role") ;;
      c <- get (Some m) (lit "content") ;;
      rest <- formattedMessages l' ;;
      ret ((r, c) :: rest)
  end.

Definition requestBody (messages : list json) (options : ChatOptions)
  : M RequestBody :=
  ms <- formattedMessages messages ;;
  ret {| rb_messages :=
           map (fun rc => (written_value (fst rc), written_value (snd rc))) ms;
         rb_temperature := temperature options;
         rb_max_tokens := maxTokens options;
         rb_json_object :=
           match responseFormat options with
           | Some json_format => true
           | _ => false
           end |}.

(** [choices?.[0]]: the read of property [0], which is the first
    element of an array, the property of that name of an object and the
    first code unit of a string; [undefined] on anything else. *)
Definition item_0 (v : value) : value :=
  match v with
  | Some (JArr (c :: _)) => Some c
  | Some (JObj o) => lookup (lit "0") o
  | Some (JStr (c :: _)) => Some (JStr [c])
  | _ => None
  end.

(** [chat]: one request; [fetch] is the network, [inl] a rejected
    promise.  The [catch] of the source logs and rethrows the error
    unchanged ([formatError] returns an [Error] instance as it is). *)
Definition chat (fetch : RequestBody -> M Reply)
  (messages : list json) (options : ChatOptions) : M ChatResponse :=
  body <- requestBody messages options ;;
  response <- fetch body ;;
  if negb (ok response) then throw (handleErrorResponse response)
  else
    data <- json_body response ;;
    choices <- get (Some data) (lit "choices") ;;
    let content :=
      or_else (get_opt (get_opt (item_0 choices) (lit "message"))
                       (lit "content"))
              (Some (JStr [])) in
    u <- get (Some data) (lit "usage") ;;
    let zero := Some (JNum 0 0) in
    ret {| chat_content := content;
           usage := (or_else (get_opt u (lit "prompt_tokens")) zero,
                     or_else (get_opt u (lit "completion_tokens")) zero,
                     or_else (get_opt u (lit "total_tokens")) zero) |}.

End WithRuntime.

End OpenRouter.

Import OpenRouter.

(* ================================================================== *)
(** * [app/api/assistant/route.ts]: validation and the handler *)
(* ================================================================== *)

Module Assistant.

Definition plan_error (index : nat) (what : string) : exn :=
  Error (lit "Plan " ++ string_of_N (N.of_nat (index + 1)) ++ lit " missing "
         ++ lit what).

(** The body of the [forEach] callback.  The two reads of the first
    test are made up front: both read the same [plan], so the second
    throws exactly when the first does. *)
Definition check_plan (plan : json) (index : nat) : M unit :=
  destination <- get (Some plan) (lit "destination") ;;
  country <- get (Some plan) (lit "country") ;;
  if negb (truthy destination) || negb (truthy country)
  then throw (plan_error index "destination or country")
  else
    duration <- get (Some plan) (lit "duration") ;;
    if negb (truthy duration)
       || negb (truthy (get_opt duration (lit "startDate")))
       || negb (truthy (get_opt duration (lit "endDate")))
    then throw (plan_error index "duration information")
    else
      budget <- get (Some plan) (lit "budget") ;;
      if negb (truthy budget)
         || negb (is_number (get_opt budget (lit "estimated")))
      then throw (plan_error index "budget information")
      else
        highlights <- get (Some plan) (lit "highlights") ;;
        if match highlights with
           | Some (JArr (_ :: _)) => false
           | _ => true
           end
        then throw (plan_error index "highlights")
        else
          activities <- get (Some plan) (lit "activities") ;;
          if match activities with
             | Some (JArr (_ :: _)) => false
             | _ => true
             end
          then throw (plan_error index "activities")
          else ret tt.

(** [Array.prototype.forEach]: the callback runs on the elements in
    order; a throw ends the iteration. *)
Fixpoint forEach (f : json -> nat -> M unit) (l : list json) (index : nat)
  : M unit :=
  match l with
  | [] => ret tt
  | x :: l' => _ <- f x index ;; forEach f l' (S index)
  end.

(** The part of [validateRecommendationResponse] after [JSON.parse]. *)
Definition validate_parsed (parsed : json) : M json :=
  summary <- get (Some parsed) (lit "summary") ;;
  if negb (truthy summary) || negb (is_string summary)
  then throw (Error (lit "Missing or invalid summary field"))
  else
    plans <- get (Some parsed) (lit "plans") ;;
    match plans, parsed with
    | Some (JArr (p :: ps)), JObj o =>
        let '(kept, parsed') :=
          if (3 <? List.length (p :: ps))%nat
          then (firstn 3 (p :: ps),
                JObj (obj_set (lit "plans") (JArr (firstn 3 (p :: ps))) o))
          else (p :: ps, parsed) in
        _ <- forEach check_plan kept 0 ;;
        ret parsed'
    | _, _ => throw (Error (lit "Plans must be a non-empty array"))
    end.

(** [validateRecommendationResponse]: a [SyntaxError] of [JSON.parse]
    becomes a fixed [Error]; every other throw passes through. *)
Definition validateRecommendationResponse (jsonString : jsstring) : M json :=
  match JSON_parse jsonString with
  | None => throw (Error (lit "Invalid JSON response from AI"))
  | Some parsed => validate_parsed parsed
  end.

(** What the handler answers: a status and a JSON body, which is either
    an [ErrorResponse] or an [AssistantResponse]; the body is what
    [NextResponse.json] writes. *)
Inductive Body : Type :=
| Failure (e : ErrorResponse)
| TextReply (message : value)
| PlansReply (travelPlans : value) (summary : value).

Record HttpResponse : Type := {
  http_status : Z;
  http_body : Body
}.

Definition failure (st : Z) (err msg cd : string) (r : bool) : HttpResponse :=
  {| http_status := st;
     http_body := Failure {| error := lit err; message := lit msg;
                             code := lit cd; retryable := r |} |}.

(** The loop over [body.messages]: [Some] is the early return. *)
Fixpoint validate_messages (messages : list json) : M (option HttpResponse) :=
  match messages with
  | [] => ret None
  | msg :: rest =>
      r <- get (Some msg) (lit "role") ;;
      c <- get (Some msg) (lit "content") ;;
      if negb (truthy r) || negb (truthy c) || negb (is_string c)
      then ret (Some (failure 400 "Invalid request"
                        "Each message must have role and content"
                        "INVALID_MESSAGE" false))
      else validate_messages rest
  end.

(** The view of a validated message that the analysis takes: it reads
    [role] only through the comparisons with ['user'] and ['assistant'],
    which a role outside the declared union fails as ['system'] does, and
    [content], which validation has found to be a string. *)
Definition as_Message (msg : json) : Message :=
  {| role :=
       match get_opt (Some msg) (lit "role") with
       | Some (JStr r) =>
           if str_eqb r (lit "user") then user
           else if str_eqb r (lit "assistant") then assistant
           else system
       | _ => system
       end;
     content :=
       match get_opt (Some msg) (lit "content") with
       | Some (JStr c) => c
       | _ => []
       end;
     timestamp := 0 |}.

(** The outer [catch] of the handler. *)
Definition on_error (e : exn) : HttpResponse :=
  let m := message_of e in
  if includes m (lit "API key") then
    failure 500 "Configuration error"
      "The service is not properly configured. Please contact support."
      "CONFIG_ERROR" false
  else if includes m (lit "Rate limit") then
    failure 429 "Rate limit exceeded"
      "Too many requests. Please wait a moment and try again."
      "RATE_LIMIT" true
  else if includes m (lit "network") || includes m (lit "fetch") then
    failure 503 "Network error"
      "Unable to connect to the AI service. Please check your connection and try again."
      "NETWORK_ERROR" true
  else
    failure 500 "Internal server error"
      "An unexpected error occurred. Please try again."
      "INTERNAL_ERROR" true.

(** A run of the handler: its answer and the gateway calls it made. *)
Record Run : Type := {
  answer : HttpResponse;
  llm_calls : list (list json * ChatOptions)
}.

Section Handler.

Variable toLowerCase : jsstring -> jsstring.
Variable number_to_string : Z -> Z -> jsstring.

(** The two prompt builders, whose text (and the date it embeds) no
    property below depends on, and the clock. *)
Variable getInformationGatheringPrompt : list jsstring -> jsstring.
Variable getRecommendationPrompt : jsstring.
Variable now : Z.

(** [openRouterClient.chat]. *)
Variable chat : list json -> ChatOptions -> M ChatResponse.

Definition systemMessage (systemPrompt : jsstring) : json :=
  JObj [(lit "role", JStr (lit "system"));
        (lit "content", JStr systemPrompt);
        (lit "timestamp", JNum now 0)].

(** The [try] block, with the calls made along the way.  [JSON.parse]
    inside the validator converts a non-string argument with ToString. *)
Definition POST_try (request_json : M json)
  : M HttpResponse * list (list json * ChatOptions) :=
  match request_json with
  | inl e => (throw e, [])
  | inr body =>
      match get (Some body) (lit "messages") with
      | inl e => (throw e, [])
      | inr (Some (JArr messages)) =>
          match validate_messages messages with
          | inl e => (throw e, [])
          | inr (Some early) => (ret early, [])
          | inr None =>
              let a := shouldGenerateRecommendations toLowerCase
                         (map as_Message messages) in
              let '(systemPrompt, fmt, tokens) :=
                if shouldGenerate a
                then (getRecommendationPrompt, json_format, 2000%Z)
                else (getInformationGatheringPrompt (missingInfo a),
                      text_format, 300%Z) in
              let call :=
                (systemMessage systemPrompt :: messages,
                 {| temperature := JNum 7 (-1); maxTokens := tokens;
                    responseFormat := Some fmt |}) in
              let result :=
                response <- chat (fst call) (snd call) ;;
                if shouldGenerate a then
                  match validateRecommendationResponse
                          (display number_to_string (chat_content response)) with
                  | inr recommendations =>
                      ret {| http_status := 200;
                             http_body :=
                               PlansReply
                                 (written_value
                                    (get_opt (Some recommendations) (lit "plans")))
                                 (written_value
                                    (get_opt (Some recommendations) (lit "summary"))) |}
                  | inl validationError =>
                      ret {| http_status := 500;
                             http_body :=
                               Failure
                                 {| error := lit "Invalid response format";
                                    message := message_of validationError;
                                    code := lit "VALIDATION_ERROR";
                                    retryable := true |} |}
                  end
                else
                  ret {| http_status := 200;
                         http_body :=
                           TextReply (written_value (chat_content response)) |} in
              (result, [call])
          end
      | inr _ =>
          (ret (failure 400 "Invalid request" "Messages array is required"
                  "INVALID_REQUEST" false), [])
      end
  end.

Definition POST (request_json : M json) : Run :=
  let '(r, calls) := POST_try request_json in
  {| answer := match r with
               | inr response => response
               | inl e => on_error e
               end;
     llm_calls := calls |}.

End Handler.

End Assistant.

(* ================================================================== *)
(** * [app/api/map-recommendations/route.ts] *)
(* ================================================================== *)

Module MapRoute.

(** [String.prototype.trim]. *)
Fixpoint trim_start (s : jsstring) : jsstring :=
  match s with
  | c :: s' => if space c then trim_start s' else s
  | [] => []
  end.

Definition trim (s : jsstring) : jsstring :=
  rev (trim_start (rev (trim_start s))).

Definition re_object : regex := seq (Lit (lit "{")) [Star any; Lit (lit "}")].

(** [/```(?:json)?\s*(\{[\s\S]*\})\s*```/] *)
Definition re_fenced : regex :=
  seq (Lit (lit "```"))
    [Opt (Lit (lit "json")); Star space; Grp re_object; Star space;
     Lit (lit "```")].

(** [/(\{[\s\S]*\})/] *)
Definition re_braces : regex := Grp re_object.

(** [content.match(fenced) || content.match(braces)], reduced to group 1. *)
Definition jsonMatch (content : jsstring) : option jsstring :=
  first_of (match1 re_fenced content) (match1 re_braces content).

(** The [try] block that parses the completion; [None] is its [catch].
    A completion that is not a string has no [trim] method, and the
    [TypeError] of the call is caught there too. *)
Definition parse_completion (response_content : value) : option json :=
  match response_content with
  | Some (JStr raw) =>
      let content := trim raw in
      match jsonMatch content with
      | Some group1 => JSON_parse group1
      | None => JSON_parse content
      end
  | _ => None
  end.

(** The own enumerable properties that [{...plan}] copies. *)
Fixpoint indexed {A} (f : A -> json) (l : list A) (i : nat)
  : list (jsstring * json) :=
  match l with
  | [] => []
  | x :: l' => (string_of_N (N.of_nat i), f x) :: indexed f l' (S i)
  end.

Definition spread (plan : json) : list (jsstring * json) :=
  match plan with
  | JObj o => o
  | JArr l => indexed (fun x => x) l 0
  | JStr s => indexed (fun c => JStr [c]) s 0
  | _ => []
  end.

Inductive Body : Type :=
| MapError (error : jsstring)
| MapResult (travelPlans : list json) (summary : value).

Record HttpResponse : Type := {
  http_status : Z;
  http_body : Body
}.

Definition default_summary : jsstring :=
  lit "Here are some travel recommendations for this location.".

Section Handler.

(** [Date.now()] as read while the plan at a given index is mapped. *)
Variable now : nat -> Z.

Definition generated_id (index : nat) : jsstring :=
  lit "map-plan-" ++ string_of_Z (now index) ++ lit "-"
  ++ string_of_N (N.of_nat index).

(** [{ ...plan, id: plan.id || `map-plan-${Date.now()}-${index}` }] *)
Definition with_id (plan : json) (index : nat) : M json :=
  id <- get (Some plan) (lit "id") ;;
  ret (JObj (obj_set (lit "id")
               (match or_else id (Some (JStr (generated_id index))) with
                | Some v => v
                | None => JNull
                end)
               (spread plan))).

(** [Array.prototype.map] with the index. *)
Fixpoint map_plans (plans : list json) (index : nat) : M (list json) :=
  match plans with
  | [] => ret []
  | plan :: rest =>
      p <- with_id plan index ;;
      ps <- map_plans rest (S index) ;;
      ret (p :: ps)
  end.

(** The handler from the completion on; the body of the answer is
    what [NextResponse.json] writes. *)
Definition respond (response_content : value) : M HttpResponse :=
  match parse_completion response_content with
  | None =>
      ret {| http_status := 500;
             http_body := MapError (lit "Failed to generate valid recommendations. Please try again.") |}
  | Some parsedResponse =>
      plans <- get (Some parsedResponse) (lit "plans") ;;
      match plans with
      | Some (JArr l) =>
          travelPlans <- map_plans l 0 ;;
          ret {| http_status := 200;
                 http_body :=
                   MapResult (map written travelPlans)
                     (written_value
                        (or_else (get_opt (Some parsedResponse) (lit "summary"))
                                 (Some (JStr default_summary)))) |}
      | _ =>
          ret {| http_status := 500;
                 http_body := MapError (lit "Invalid response format from AI") |}
      end
  end.

(** The construction of the two prompts from the request body (it may
    throw), and the gateway. *)
Variable prompts : json -> M (jsstring * jsstring).
Variable chat : list json -> ChatOptions -> M ChatResponse.

Definition prompt_message (r : string) (text : jsstring) (t : Z) : json :=
  JObj [(lit "role", JStr (lit r)); (lit "content", JStr text);
        (lit "timestamp", JNum t 0)].

(** [const { coordinates, ... } = body]: the first property is read
    first; on [null] the [TypeError] is worded by V8 as below. *)
Definition destructure_first (body : json) (p : string) : M value :=
  match body with
  | JNull =>
      throw (TypeError (lit "Cannot destructure property '" ++ lit p
                        ++ lit "' of 'body' as it is null."))
  | JObj o => ret (lookup (lit p) o)
  | _ => ret None
  end.

Definition POST_try (request_json : M json) (t : Z) : M HttpResponse :=
  body <- request_json ;;
  coordinates <- destructure_first body "coordinates" ;;
  if negb (truthy coordinates)
     || negb (is_number (get_opt coordinates (lit "lat")))
     || negb (is_number (get_opt coordinates (lit "lng")))
  then ret {| http_status := 400;
              http_body := MapError (lit "Invalid coordinates provided") |}
  else
    ps <- prompts body ;;
    response <- chat [prompt_message "system" (fst ps) t;
                      prompt_message "user" (snd ps) t]
                  {| temperature := JNum 7 (-1); maxTokens := 2000;
                     responseFormat := None |} ;;
    respond (chat_content response).

(** The outer [catch] answers with the message of the error. *)
Definition POST (request_json : M json) (t : Z) : HttpResponse :=
  match POST_try request_json t with
  | inr response => response
  | inl e => {| http_status := 500; http_body := MapError (message_of e) |}
  end.

End Handler.

End MapRoute.

(* ================================================================== *)
(** * [app/api/assistant/route.ts]: the prompt of the gathering phase *)
(* ================================================================== *)

Module Prompts.

Definition nl : jsstring := [10%N].

(** [getInformationGatheringPrompt]: the template literal, line by
    line; [${missingInfo.join(', ')}] occurs twice. *)
Definition getInformationGatheringPrompt (missingInfo : list jsstring) : jsstring :=
  lit "You are a helpful travel advisor assistant. Your role is to gather travel requirements from users through natural conversation." ++ nl
  ++ nl
  ++ lit "CURRENT PHASE: Information Gathering" ++ nl
  ++ nl
  ++ lit "You are collecting the following information from the user:" ++ nl
  ++ lit "- Destination preferences (specific places, regions, or types of destinations)" ++ nl
  ++ lit "- Travel dates or timeframe" ++ nl
  ++ lit "- Budget range" ++ nl
  ++ lit "- Interests and preferred activities" ++ nl
  ++ lit "- Any constraints (dietary, accessibility, etc.)" ++ nl
  ++ nl
  ++ lit "MISSING INFORMATION: " ++ join (lit ", ") missingInfo ++ nl
  ++ nl
  ++ lit "GUIDELINES:" ++ nl
  ++ lit "- Be conversational, friendly, and enthusiastic about travel" ++ nl
  ++ lit "- Ask one or two questions at a time - don't overwhelm the user" ++ nl
  ++ lit "- Focus on gathering the missing information: " ++ join (lit ", ") missingInfo ++ nl
  ++ lit "- Show that you're listening by acknowledging what they've already shared" ++ nl
  ++ lit "- Keep responses concise (2-3 sentences)" ++ nl
  ++ lit "- Once you have destination and at least one of (budget OR dates), you'll be ready to provide recommendations" ++ nl
  ++ nl
  ++ lit "Do NOT generate travel recommendations yet. Just continue the conversation to gather information.".

End Prompts.

(* ================================================================== *)
(** * [app/page.tsx]: the client of the conversation route *)
(* ================================================================== *)

Module Client.

(** What a call of [callAssistantWithRetry] did: its outcome ([inl] is
    the error it throws), the number of requests it sent and the delays
    it waited between them, in order. *)
Record Outcome : Type := {
  result : M json;
  requests : nat;
  delays : list Z
}.

Section WithRuntime.

Variable number_to_string : Z -> Z -> jsstring.

(** [new Error(v || fallback)]: the message is ToString of the value. *)
Definition error_of (v : value) (fallback : jsstring) : exn :=
  Error (display number_to_string (or_else v (Some (JStr fallback)))).

(** The [try] block of one attempt, on what [fetch] settled to ([inl]
    is a rejected promise).  [response.json().catch(() => ({}))] turns a
    body that is not JSON into the empty object.  Both [throw]s of the
    non-OK branch are inside the [try]. *)
Definition try_block (fetched : M Reply) : M json :=
  response <- fetched ;;
  if negb (ok response) then
    let errorData :=
      match json_body response with
      | inr d => d
      | inl _ => JObj []
      end in
    m <- get (Some errorData) (lit "message") ;;
    if (400 <=? status response)%Z && (status response <? 500)%Z
       && negb (status response =? 429)%Z
    then throw (error_of m (lit "Request failed with status "
                            ++ string_of_Z (status response)))
    else throw (error_of m (lit "Server error: "
                            ++ string_of_Z (status response)))
  else
    data <- json_body response ;;
    err <- get (Some data) (lit "error") ;;
    if truthy err then throw (Error (display number_to_string err))
    else ret data.

(** The network: what the request of a given attempt settles to (every
    attempt sends the same body). *)
Variable fetch : nat -> M Reply.

Variable maxRetries : nat.
Variable baseDelay : Z.

(** The [for] loop, [remaining] being [maxRetries - attempt]; every
    value caught is an instance of [Error], so that [lastError] is the
    value caught.  The delay [baseDelay * Math.pow(2, attempt)] is the
    integer below as long as [baseDelay] is an integer under [2^53] and
    the product stays in the range of a double. *)
Fixpoint loop (remaining attempt : nat) (lastError : option exn) : Outcome :=
  match remaining with
  | O =>
      {| result := throw match lastError with
                         | Some e => e
                         | None => Error (lit "Failed after retries")
                         end;
         requests := 0; delays := [] |}
  | S remaining' =>
      match try_block (fetch attempt) with
      | inr data => {| result := ret data; requests := 1; delays := [] |}
      | inl err =>
          if Nat.eqb attempt (maxRetries - 1)
          then {| result := throw err; requests := 1; delays := [] |}
          else
            let delay := (baseDelay * 2 ^ Z.of_nat attempt)%Z in
            let rest := loop remaining' (S attempt) (Some err) in
            {| result := result rest;
               requests := S (requests rest);
               delays := delay :: delays rest |}
      end
  end.

Definition callAssistantWithRetry : Outcome := loop maxRetries 0 None.

End WithRuntime.

End Client.

(* ================================================================== *)
(** * [components/MapView.tsx]: the client of the geographic route *)
(* ================================================================== *)

Module MapClient.

(** ** The cooldown of [handleMapClick] *)

Definition cooldownPeriod : Z := 20000.

(** [Math.ceil(a / b)] on integers, [b] positive. *)
Definition ceil_div (a b : Z) : Z := (- ((- a) / b))%Z.

(** The guard at the head of [handleMapClick]: a refused click sets the
    error text with the seconds left and returns; anything else goes on
    after [setLastClickTime(now)]. *)
Inductive Click : Type :=
| Refused (remainingTime : Z)
| Accepted.

Definition guard (lastClickTime now : Z) : Click :=
  let timeSinceLastClick := (now - lastClickTime)%Z in
  if (timeSinceLastClick <? cooldownPeriod)%Z && (lastClickTime >? 0)%Z
  then Refused (ceil_div (cooldownPeriod - timeSinceLastClick) 1000)
  else Accepted.

(** [lastClickTime] after a click at [now]. *)
Definition click (lastClickTime now : Z) : Z :=
  match guard lastClickTime now with
  | Refused _ => lastClickTime
  | Accepted => now
  end.

(** The clicks accepted among those made at the given instants, from a
    given state on (the state of a fresh page is 0). *)
Fixpoint accepted (lastClickTime : Z) (clicks : list Z) : list Z :=
  match clicks with
  | [] => []
  | now :: rest =>
      match guard lastClickTime now with
      | Refused _ => accepted lastClickTime rest
      | Accepted => now :: accepted now rest
      end
  end.

(** ** The ranking of [fetchNearbyAttractions] *)

(** The fields of [OpenTripMapPlace] that the ranking reads; a number
    is the rational value of a finite double. *)
Record OpenTripMapPlace : Type := {
  xid : jsstring;
  name : jsstring;
  dist : QArith_base.Q;
  rate : QArith_base.Q;
  kinds : jsstring
}.

(** [Map.prototype.set]: an existing key keeps its position and takes
    the new value. *)
Fixpoint map_set {A} (k : jsstring) (v : A) (m : list (jsstring * A))
  : list (jsstring * A) :=
  match m with
  | [] => [(k, v)]
  | (k', v') :: m' =>
      if str_eqb k k' then (k', v) :: m' else (k', v') :: map_set k v m'
  end.

(** [Array.from(new Map(all.map(item => [item.xid, item])).values())] *)
Definition uniqueAttractions (allAttractions : list OpenTripMapPlace)
  : list OpenTripMapPlace :=
  map snd (fold_left (fun m item => map_set (xid item) item m) allAttractions []).

(** [a.name && a.name.trim() !== ''] *)
Definition named (a : OpenTripMapPlace) : bool :=
  match name a with
  | [] => false
  | _ => match MapRoute.trim (name a) with [] => false | _ => true end
  end.

(** The comparator: a negative, zero or positive number as [Lt], [Eq]
    or [Gt].  The sign of a difference of finite doubles is that of the
    difference of their values. *)
Definition compare_places (a b : OpenTripMapPlace) : comparison :=
  match QArith_base.Qcompare (rate b) (rate a) with
  | Eq => QArith_base.Qcompare (dist a) (dist b)
  | c => c
  end.

(** [Array.prototype.sort] is stable; on a comparator that is a total
    preorder its result is that of the insertion sort. *)
Definition goes_before (a b : OpenTripMapPlace) : bool :=
  match compare_places a b with
  | Gt => false
  | _ => true
  end.

Fixpoint insert (a : OpenTripMapPlace) (l : list OpenTripMapPlace)
  : list OpenTripMapPlace :=
  match l with
  | [] => [a]
  | b :: l' => if goes_before a b then a :: l else b :: insert a l'
  end.

Fixpoint sort (l : list OpenTripMapPlace) : list OpenTripMapPlace :=
  match l with
  | [] => []
  | a :: l' => insert a (sort l')
  end.

(** What [fetchNearbyAttractions] returns for the places collected by
    its requests. *)
Definition ranked (allAttractions : list OpenTripMapPlace)
  : list OpenTripMapPlace :=
  firstn 15 (sort (filter named (uniqueAttractions allAttractions))).

End MapClient.

(* ================================================================== *)
(** * Sample data *)
(* ================================================================== *)

Module Samples.

Definition plan_text (extra : string) : string :=
  "{" ++ extra ++ "'destination':'Grouse Mountain','country':'Canada','duration':{'startDate':'2025-07-01','endDate':'2025-07-01','nights':0},'budget':{'estimated':120,'currency':'USD'},'highlights':['Views'],'activities':['Gondola']}".

(** A recommendation payload with [n] complete plans, none with an id. *)
Definition payload (n : nat) : string :=
  "{'summary':'Ideas','plans':[" ++ String.concat "," (repeat (plan_text EmptyString) n) ++ "]}".

End Samples.

(* ================================================================== *)
(** * Facts about the JavaScript model *)
(* ================================================================== *)

Section ObjectFacts.

Lemma str_eqb_refl (a : jsstring) : str_eqb a a = true.
Proof.
  induction a as [|x a IH]; simpl; [reflexivity|].
  now rewrite N.eqb_refl, IH.
Qed.

Lemma str_eqb_eq (a b : jsstring) : str_eqb a b = true <-> a = b.
Proof.
  split.
  - revert b; induction a as [|x a IH]; intros [|y b]; simpl; try discriminate; auto.
    intros H. apply andb_true_iff in H as [Hx Hab].
    apply N.eqb_eq in Hx. subst. f_equal. now apply IH.
  - intros ->. apply str_eqb_refl.
Qed.

Lemma lookup_obj_set_same k v o : lookup k (obj_set k v o) = Some v.
Proof.
  induction o as [|[k' v'] o IH]; simpl.
  - now rewrite str_eqb_refl.
  - destruct (str_eqb k k') eqn:E; simpl; rewrite E; auto.
Qed.

Lemma lookup_obj_set_other k k' v o :
  str_eqb k' k = false -> lookup k' (obj_set k v o) = lookup k' o.
Proof.
  intros Hne. induction o as [|[k2 v2] o IH]; simpl.
  - now rewrite Hne.
  - destruct (str_eqb k k2) eqn:E; simpl.
    + apply str_eqb_eq in E. subst k2. now rewrite Hne.
    + destruct (str_eqb k' k2); auto.
Qed.

(** Writing back the value a key already has changes nothing. *)
Lemma obj_set_same_value k v o : lookup k o = Some v -> obj_set k v o = o.
Proof.
  induction o as [|[k' v'] o IH]; simpl; [discriminate|].
  destruct (str_eqb k k') eqn:E.
  - now intros [= ->].
  - intros H. now rewrite IH.
Qed.

End ObjectFacts.

Section WrittenFacts.

(** The properties of a written object. *)
Definition written_props (o : list (jsstring * json)) : list (jsstring * json) :=
  map (fun kv : jsstring * json => let (k, x) := kv in (k, written x)) o.

(** A value in which every number is finite is written as it is. *)
Definition finite (v : json) : Prop := written v = v.

Lemma written_object o : written (JObj o) = JObj (written_props o).
Proof. reflexivity. Qed.

Lemma lookup_written k o :
  lookup k (written_props o) = written_value (lookup k o).
Proof.
  induction o as [|[k' v] o IH]; cbn [written_props map lookup]; [reflexivity|].
  destruct (str_eqb k k'); [reflexivity|exact IH].
Qed.

Lemma obj_set_written k v o :
  written_props (obj_set k v o) = obj_set k (written v) (written_props o).
Proof.
  induction o as [|[k' v'] o IH]; cbn [written_props map obj_set]; [reflexivity|].
  destruct (str_eqb k k'); cbn [map]; [reflexivity|].
  f_equal. exact IH.
Qed.

Lemma get_opt_written v k :
  get_opt (Some (written v)) k = written_value (get_opt (Some v) k).
Proof.
  destruct v as [| b | m e | s | l | o]; try reflexivity.
  - cbn [written]. now destruct (rounds_to_infinity m e).
  - cbn [written get_opt]. apply lookup_written.
Qed.

(** Writing keeps a truthy value truthy, except a number that is not
    finite. *)
Lemma written_truthy v :
  truthy (Some v) = true ->
  truthy (Some (written v)) = true
  \/ exists m e, v = JNum m e /\ rounds_to_infinity m e = true.
Proof.
  destruct v as [| b | m e | s | l | o]; cbn [written]; auto.
  destruct (rounds_to_infinity m e) eqn:E; [|now left].
  intros _. right. now exists m, e.
Qed.

End WrittenFacts.

(* ================================================================== *)
(** * The parser never runs out of fuel *)
(* ================================================================== *)

Module ParserFacts.

Lemma skip_ws_length s : (List.length (skip_ws s) <= List.length s)%nat.
Proof. induction s as [|c s IH]; cbn; [lia|]. destruct (is_ws c); cbn; lia. Qed.

Lemma skip_ws_cons s c t :
  skip_ws s = c :: t -> (List.length t < List.length s)%nat.
Proof. intros H. pose proof (skip_ws_length s) as L. rewrite H in L. cbn in L. lia. Qed.

(** Induction on the length of a text. *)
Lemma length_induction (P : jsstring -> Prop) :
  (forall s, (forall t, (List.length t < List.length s)%nat -> P t) -> P s) ->
  forall s, P s.
Proof.
  intros H s. remember (List.length s) as n eqn:Hn. revert s Hn.
  induction n as [n IH] using lt_wf_ind. intros s ->.
  apply H. intros t Ht. exact (IH _ Ht t eq_refl).
Qed.

Lemma parse_chars_length s : forall acc v r,
  parse_chars acc s = POk v r -> (List.length r < List.length s)%nat.
Proof.
  induction s as [s IH] using length_induction.
  intros acc v r. destruct s as [|c s]; cbn [parse_chars]; [discriminate|].
  destruct (N.eqb c 34); [intros [= _ <-]; cbn; lia|].
  destruct (N.eqb c 92).
  - destruct s as [|e s]; [discriminate|].
    destruct (N.eqb e 117).
    + destruct s as [|h1 [|h2 [|h3 [|h4 s]]]]; try discriminate.
      destruct (hex4 h1 h2 h3 h4); [|discriminate].
      intros H. apply IH in H; cbn in *; lia.
    + destruct (short_escape e); [|discriminate].
      intros H. apply IH in H; cbn in *; lia.
  - destruct (c <? 32)%N; [discriminate|].
    intros H. apply IH in H; cbn in *; lia.
Qed.

Lemma parse_chars_fuel s : forall acc, parse_chars acc s <> PFuel.
Proof.
  induction s as [s IH] using length_induction.
  intros acc. destruct s as [|c s]; cbn [parse_chars]; [discriminate|].
  destruct (N.eqb c 34); [discriminate|].
  destruct (N.eqb c 92).
  - destruct s as [|e s]; [discriminate|].
    destruct (N.eqb e 117).
    + destruct s as [|h1 [|h2 [|h3 [|h4 s]]]]; try discriminate.
      destruct (hex4 h1 h2 h3 h4); [|discriminate].
      apply IH; cbn; lia.
    + destruct (short_escape e); [|discriminate]. apply IH; cbn; lia.
  - destruct (c <? 32)%N; [discriminate|]. apply IH; cbn; lia.
Qed.

Lemma take_digits_length s : forall v n v' n' r,
  take_digits v n s = (v', n', r) -> (List.length r <= List.length s)%nat.
Proof.
  induction s as [|c s IH]; intros v n v' n' r; cbn [take_digits].
  - intros [= _ _ <-]. lia.
  - destruct (is_digit c).
    + intros H. apply IH in H. cbn. lia.
    + intros [= _ _ <-]. lia.
Qed.

Lemma parse_number_length s v r :
  parse_number s = POk v r -> (List.length r < List.length s)%nat.
Proof.
  unfold parse_number.
  set (start := match s with
                | c :: s' => if N.eqb c 45 then (true, s') else (false, s)
                | [] => (false, s)
                end).
  assert (Hs : (List.length (snd start) <= List.length s)%nat).
  { subst start. destruct s as [|c s']; [cbn; lia|].
    destruct (N.eqb c 45); cbn; lia. }
  destruct start as [neg s0]. cbn [snd] in Hs.
  assert (Hint : forall i s1, parse_int s0 = POk i s1 ->
                              (List.length s1 < List.length s0)%nat).
  { unfold parse_int. destruct s0 as [|c s0']; [discriminate|].
    destruct (N.eqb c 48); [intros i s1 [= _ <-]; cbn; lia|].
    destruct (is_digit c); [|discriminate].
    destruct (take_digits (Z.of_N (c - 48)) 1 s0') as [[v0 n0] r0] eqn:E.
    intros i s1 [= _ <-]. apply take_digits_length in E. cbn. lia. }
  destruct (parse_int s0) as [i s1| |] eqn:Ei; try discriminate.
  specialize (Hint _ _ eq_refl).
  assert (Hfrac : forall m e s2, parse_frac i s1 = POk (m, e) s2 ->
                                 (List.length s2 <= List.length s1)%nat).
  { unfold parse_frac. destruct s1 as [|c s1']; [intros m e s2 [= _ _ <-]; lia|].
    destruct (N.eqb c 46); [|intros m e s2 [= _ _ <-]; lia].
    destruct s1' as [|d s1'']; [discriminate|].
    destruct (is_digit d); [|discriminate].
    destruct (take_digits i 0 (d :: s1'')) as [[v0 n0] r0] eqn:E.
    intros m e s2 [= _ _ <-]. apply take_digits_length in E. cbn in *. lia. }
  destruct (parse_frac i s1) as [[m e1] s2| |] eqn:Ef; try discriminate.
  specialize (Hfrac _ _ _ eq_refl).
  assert (Hexp : forall e s3, parse_exp s2 = POk e s3 ->
                              (List.length s3 <= List.length s2)%nat).
  { unfold parse_exp. destruct s2 as [|c s2']; [intros e s3 [= _ <-]; lia|].
    destruct (N.eqb c 101 || N.eqb c 69); [|intros e s3 [= _ <-]; lia].
    set (sg := match s2' with
               | g :: s'' =>
                   if N.eqb g 45 then (true, s'')
                   else if N.eqb g 43 then (false, s'') else (false, s2')
               | [] => (false, s2')
               end).
    assert (Hsg : (List.length (snd sg) <= List.length s2')%nat).
    { subst sg. destruct s2' as [|g s'']; [cbn; lia|].
      destruct (N.eqb g 45); [cbn; lia|]. destruct (N.eqb g 43); cbn; lia. }
    destruct sg as [ng t]. cbn [snd] in Hsg.
    destruct t as [|d t']; [discriminate|].
    destruct (is_digit d); [|discriminate].
    destruct (take_digits 0 0 (d :: t')) as [[v0 n0] r0] eqn:E.
    intros e s3 [= _ <-]. apply take_digits_length in E. cbn in *. lia. }
  destruct (parse_exp s2) as [e2 s3| |] eqn:Ee; try discriminate.
  specialize (Hexp _ _ eq_refl).
  intros [= _ <-]. lia.
Qed.

Lemma parse_number_fuel s : parse_number s <> PFuel.
Proof.
  unfold parse_number.
  destruct (match s with
            | c :: s' => if N.eqb c 45 then (true, s') else (false, s)
            | [] => (false, s)
            end) as [neg s0].
  assert (Hint : parse_int s0 <> PFuel).
  { unfold parse_int. destruct s0 as [|c s0']; [discriminate|].
    destruct (N.eqb c 48); [discriminate|].
    destruct (is_digit c); [|discriminate].
    now destruct (take_digits (Z.of_N (c - 48)) 1 s0') as [[v0 n0] r0]. }
  destruct (parse_int s0) as [i s1| |]; try discriminate; [|contradiction].
  assert (Hfrac : parse_frac i s1 <> PFuel).
  { unfold parse_frac. destruct s1 as [|c s1']; [discriminate|].
    destruct (N.eqb c 46); [|discriminate].
    destruct s1' as [|d s1'']; [discriminate|].
    destruct (is_digit d); [|discriminate].
    now destruct (take_digits i 0 (d :: s1'')) as [[v0 n0] r0]. }
  destruct (parse_frac i s1) as [[m e1] s2| |]; try discriminate; [|contradiction].
  assert (Hexp : parse_exp s2 <> PFuel).
  { unfold parse_exp. destruct s2 as [|c s2']; [discriminate|].
    destruct (N.eqb c 101 || N.eqb c 69); [|discriminate].
    destruct (match s2' with
              | g :: s'' =>
                  if N.eqb g 45 then (true, s'')
                  else if N.eqb g 43 then (false, s'') else (false, s2')
              | [] => (false, s2')
              end) as [ng t].
    destruct t as [|d t']; [discriminate|].
    destruct (is_digit d); [|discriminate].
    now destruct (take_digits 0 0 (d :: t')) as [[v0 n0] r0]. }
  destruct (parse_exp s2) as [e2 s3| |]; try discriminate. contradiction.
Qed.

Lemma expect_length w v s x r :
  w <> [] -> expect w v s = POk x r -> (List.length r < List.length s)%nat.
Proof.
  intros Hw. unfold expect. destruct (starts_with w s) eqn:E; [|discriminate].
  intros [= _ <-]. rewrite length_skipn.
  assert (Hle : (List.length w <= List.length s)%nat).
  { clear Hw. revert s E. induction w as [|a w IH]; intros [|b s]; cbn;
      try discriminate; try lia.
    intros H. apply andb_true_iff in H as [_ H]. apply IH in H. lia. }
  destruct w; [contradiction|]. cbn in *. lia.
Qed.

Lemma expect_fuel w v s : expect w v s <> PFuel.
Proof. unfold expect. destruct (starts_with w s); discriminate. Qed.

(** A successful parse consumes at least one character. *)
Lemma parse_shorter f :
  (forall s v r, parse_value f s = POk v r ->
                 (List.length r < List.length s)%nat) /\
  (forall acc s l r, parse_elements f acc s = POk l r ->
                     (List.length r < List.length s)%nat) /\
  (forall acc s o r, parse_members f acc s = POk o r ->
                     (List.length r < List.length s)%nat).
Proof.
  induction f as [|f (IHv & IHe & IHm)]; [repeat split; intros; discriminate|].
  split; [|split].
  - intros s v r. cbn [parse_value].
    destruct (skip_ws s) as [|c s'] eqn:Hs; [discriminate|].
    apply skip_ws_cons in Hs.
    destruct (N.eqb c 123).
    { destruct (skip_ws s') as [|d s''] eqn:Hs'; [discriminate|].
      apply skip_ws_cons in Hs'.
      destruct (N.eqb d 125); [intros [= _ <-]; lia|].
      destruct (parse_members f [] (d :: s'')) as [o r0| |] eqn:Hm;
        try discriminate.
      apply IHm in Hm. intros [= _ <-]. cbn in *. lia. }
    destruct (N.eqb c 91).
    { destruct (skip_ws s') as [|d s''] eqn:Hs'; [discriminate|].
      apply skip_ws_cons in Hs'.
      destruct (N.eqb d 93); [intros [= _ <-]; lia|].
      destruct (parse_elements f [] (d :: s'')) as [l r0| |] eqn:He;
        try discriminate.
      apply IHe in He. intros [= _ <-]. cbn in *. lia. }
    destruct (N.eqb c 34).
    { destruct (parse_chars [] s') as [str r0| |] eqn:Hc; try discriminate.
      apply parse_chars_length in Hc. intros [= _ <-]. lia. }
    destruct (N.eqb c 116);
      [intros H; apply expect_length in H; [cbn in *; lia|discriminate]|].
    destruct (N.eqb c 102);
      [intros H; apply expect_length in H; [cbn in *; lia|discriminate]|].
    destruct (N.eqb c 110);
      [intros H; apply expect_length in H; [cbn in *; lia|discriminate]|].
    intros H. apply parse_number_length in H. cbn in *. lia.
  - intros acc s l r. cbn [parse_elements].
    destruct (parse_value f s) as [v r0| |] eqn:Hv; try discriminate.
    apply IHv in Hv.
    destruct (skip_ws r0) as [|c r'] eqn:Hr; [discriminate|].
    apply skip_ws_cons in Hr.
    destruct (N.eqb c 44); [intros H; apply IHe in H; lia|].
    destruct (N.eqb c 93); [|discriminate]. intros [= _ <-]. lia.
  - intros acc s o r. cbn [parse_members].
    destruct (skip_ws s) as [|q s1] eqn:Hs; [discriminate|].
    apply skip_ws_cons in Hs.
    destruct (N.eqb q 34); [|discriminate].
    destruct (parse_chars [] s1) as [k s2| |] eqn:Hk; try discriminate.
    apply parse_chars_length in Hk.
    destruct (skip_ws s2) as [|c s3] eqn:Hs2; [discriminate|].
    apply skip_ws_cons in Hs2.
    destruct (N.eqb c 58); [|discriminate].
    destruct (parse_value f s3) as [v r0| |] eqn:Hv; try discriminate.
    apply IHv in Hv.
    destruct (skip_ws r0) as [|d r'] eqn:Hr; [discriminate|].
    apply skip_ws_cons in Hr.
    destruct (N.eqb d 44); [intros H; apply IHm in H; lia|].
    destruct (N.eqb d 125); [|discriminate]. intros [= _ <-]. lia.
Qed.

(** Fuel beyond twice the length of the text is never exhausted. *)
Lemma parse_fuel f :
  (forall s, (2 * List.length s < f)%nat -> parse_value f s <> PFuel) /\
  (forall acc s, (2 * List.length s + 1 < f)%nat ->
                 parse_elements f acc s <> PFuel) /\
  (forall acc s, (2 * List.length s + 1 < f)%nat ->
                 parse_members f acc s <> PFuel).
Proof.
  induction f as [|f (IHv & IHe & IHm)]; [repeat split; intros; lia|].
  destruct (parse_shorter f) as (Sv & Se & Sm).
  split; [|split].
  - intros s Hf. cbn [parse_value].
    destruct (skip_ws s) as [|c s'] eqn:Hs; [discriminate|].
    apply skip_ws_cons in Hs.
    destruct (N.eqb c 123).
    { destruct (skip_ws s') as [|d s''] eqn:Hs'; [discriminate|].
      apply skip_ws_cons in Hs'.
      destruct (N.eqb d 125); [discriminate|].
      destruct (parse_members f [] (d :: s'')) as [o r0| |] eqn:Hm;
        try discriminate.
      exfalso. apply (IHm [] (d :: s'')); [cbn; lia|exact Hm]. }
    destruct (N.eqb c 91).
    { destruct (skip_ws s') as [|d s''] eqn:Hs'; [discriminate|].
      apply skip_ws_cons in Hs'.
      destruct (N.eqb d 93); [discriminate|].
      destruct (parse_elements f [] (d :: s'')) as [l r0| |] eqn:He;
        try discriminate.
      exfalso. apply (IHe [] (d :: s'')); [cbn; lia|exact He]. }
    destruct (N.eqb c 34).
    { destruct (parse_chars [] s') as [str r0| |] eqn:Hc; try discriminate.
      exfalso. exact (parse_chars_fuel _ _ Hc). }
    destruct (N.eqb c 116); [apply expect_fuel|].
    destruct (N.eqb c 102); [apply expect_fuel|].
    destruct (N.eqb c 110); [apply expect_fuel|].
    apply parse_number_fuel.
  - intros acc s Hf. cbn [parse_elements].
    destruct (parse_value f s) as [v r0| |] eqn:Hv; try discriminate.
    + apply Sv in Hv.
      destruct (skip_ws r0) as [|c r'] eqn:Hr; [discriminate|].
      apply skip_ws_cons in Hr.
      destruct (N.eqb c 44); [apply IHe; lia|].
      destruct (N.eqb c 93); discriminate.
    + exfalso. apply (IHv s); [lia|exact Hv].
  - intros acc s Hf. cbn [parse_members].
    destruct (skip_ws s) as [|q s1] eqn:Hs; [discriminate|].
    apply skip_ws_cons in Hs.
    destruct (N.eqb q 34); [|discriminate].
    destruct (parse_chars [] s1) as [k s2| |] eqn:Hk; try discriminate.
    + apply parse_chars_length in Hk.
      destruct (skip_ws s2) as [|c s3] eqn:Hs2; [discriminate|].
      apply skip_ws_cons in Hs2.
      destruct (N.eqb c 58); [|discriminate].
      destruct (parse_value f s3) as [v r0| |] eqn:Hv; try discriminate.
      * apply Sv in Hv.
        destruct (skip_ws r0) as [|d r'] eqn:Hr; [discriminate|].
        apply skip_ws_cons in Hr.
        destruct (N.eqb d 44); [apply IHm; lia|].
        destruct (N.eqb d 125); discriminate.
      * exfalso. apply (IHv s3); [lia|exact Hv].
    + exfalso. exact (parse_chars_fuel _ _ Hk).
Qed.

(** [JSON_parse] runs the parser to completion: the fuel it supplies is
    never exhausted, so [None] is always a syntax error of the text. *)
Lemma parse_value_fuel s : parse_value (fuel_for s) s <> PFuel.
Proof. apply (proj1 (parse_fuel (fuel_for s))). unfold fuel_for. lia. Qed.

End ParserFacts.

(* ================================================================== *)
(** * The response validator *)
(* ================================================================== *)

Module ValidatorFacts.
Import Assistant.

Definition plans_of (v : json) : option (list json) :=
  match get_opt (Some v) (lit "plans") with
  | Some (JArr l) => Some l
  | _ => None
  end.

Definition parse_error : exn := Error (lit "Invalid JSON response from AI").

(** The result of truncation: the parsed object itself when it has at
    most three plans, else the object with [plans] cut to three. *)
Definition truncated (o : list (jsstring * json)) (l : list json) : json :=
  if (3 <? List.length l)%nat
  then JObj (obj_set (lit "plans") (JArr (firstn 3 l)) o)
  else JObj o.

Lemma firstn_short {A} (l : list A) :
  (3 <? List.length l)%nat = false -> firstn 3 l = l.
Proof.
  intros H. apply Nat.ltb_ge in H. now apply firstn_all2.
Qed.

(** What a successful validation has established, and what it returns. *)
Lemma validate_parsed_inr parsed r :
  validate_parsed parsed = inr r ->
  exists o s l,
    parsed = JObj o /\
    lookup (lit "summary") o = Some (JStr s) /\ s <> [] /\
    lookup (lit "plans") o = Some (JArr l) /\ l <> [] /\
    forEach check_plan (firstn 3 l) 0 = inr tt /\
    r = truncated o l.
Proof.
  unfold validate_parsed.
  destruct parsed as [| b | m e | s | l | o]; cbn [get bind ret throw];
    try discriminate.
  destruct (lookup (lit "summary") o) as [[| | | s | |]|] eqn:Hs;
    cbn [truthy is_string negb orb]; try discriminate;
    try (destruct (negb _); discriminate).
  destruct s as [|c s]; cbn [negb orb]; [discriminate|].
  destruct (lookup (lit "plans") o) as [[| | | | [|p ps] |]|] eqn:Hp;
    try discriminate.
  intros H. exists o, (c :: s), (p :: ps).
  repeat split; auto; try discriminate.
  - unfold truncated in *.
    destruct (3 <? List.length (p :: ps))%nat eqn:Hlen.
    + destruct (forEach check_plan (firstn 3 (p :: ps)) 0) as [e|[]]; [discriminate|reflexivity].
    + rewrite (firstn_short _ Hlen).
      destruct (forEach check_plan (p :: ps) 0) as [e|[]]; [discriminate|reflexivity].
  - unfold truncated.
    destruct (3 <? List.length (p :: ps))%nat eqn:Hlen.
    + destruct (forEach check_plan (firstn 3 (p :: ps)) 0) as [e|[]]; [discriminate|].
      now injection H as <-.
    + destruct (forEach check_plan (p :: ps) 0) as [e|[]]; [discriminate|].
      now injection H as <-.
Qed.

(** A plan check throws either one of its own five messages, which name
    the plan, or the [TypeError] of reading a property of [null]. *)
Lemma check_plan_inl plan i e :
  check_plan plan i = inl e ->
  (exists what, e = plan_error i what) \/ (exists m, e = TypeError m).
Proof.
  unfold check_plan.
  destruct plan as [| b | m x | s | l | o]; cbn [get bind ret throw].
  - intros [= <-]. right. eexists. reflexivity.
  - cbn. intros [= <-]. left. eexists. reflexivity.
  - cbn. intros [= <-]. left. eexists. reflexivity.
  - cbn. intros [= <-]. left. eexists. reflexivity.
  - cbn. intros [= <-]. left. eexists. reflexivity.
  - repeat match goal with
           | |- (if ?c then _ else _) = inl _ -> _ =>
               destruct c; [intros [= <-]; left; eexists; reflexivity|]
           end.
    discriminate.
Qed.

Lemma plan_error_not_parse_error i what : plan_error i what <> parse_error.
Proof. unfold plan_error, parse_error, lit. cbn. discriminate. Qed.

Lemma check_plan_not_parse_error plan i e :
  check_plan plan i = inl e -> e <> parse_error.
Proof.
  intros H. destruct (check_plan_inl _ _ H) as [[w ->]|[m ->]].
  - apply plan_error_not_parse_error.
  - discriminate.
Qed.

(** [forEach] stops at the first element whose check throws. *)
Lemma forEach_inl l : forall k e,
  forEach check_plan l k = inl e ->
  exists j plan, nth_error l j = Some plan /\ check_plan plan (k + j) = inl e /\
    forall j' plan', (j' < j)%nat -> nth_error l j' = Some plan' ->
         check_plan plan' (k + j') = inr tt.
Proof.
  induction l as [|x l IH]; intros k e; cbn [forEach bind ret]; [discriminate|].
  destruct (check_plan x k) as [e'|[]] eqn:Hx.
  - intros [= <-]. exists 0%nat, x. rewrite Nat.add_0_r.
    repeat split; auto. intros j' p' Hj. lia.
  - intros H. destruct (IH _ _ H) as (j & plan & Hn & Hc & Hbefore).
    exists (S j), plan. rewrite Nat.add_succ_r. repeat split; auto.
    intros [|j'] p' Hj Hn'.
    + cbn in Hn'. injection Hn' as <-. now rewrite Nat.add_0_r.
    + rewrite Nat.add_succ_r. apply Hbefore; [lia|exact Hn'].
Qed.



Lemma validate_parsed_not_parse_error parsed e :
  validate_parsed parsed = inl e -> e <> parse_error.
Proof.
  unfold validate_parsed.
  destruct parsed as [| b | m x | s | l | o]; cbn [get bind ret throw];
    try (intros [= <-]; discriminate).
  destruct (negb (truthy (lookup (lit "summary") o)) || _);
    [intros [= <-]; discriminate|].
  destruct (lookup (lit "plans") o) as [[| | | | [|p ps] |]|];
    try (intros [= <-]; discriminate).
  destruct (3 <? _)%nat;
    match goal with
    | |- context [forEach check_plan ?l 0] =>
        destruct (forEach check_plan l 0) as [e'|[]] eqn:Hf
    end; cbn [bind ret]; try discriminate;
    intros [= <-];
    destruct (forEach_inl _ _ Hf) as (j & plan & _ & Hc & _);
    exact (check_plan_not_parse_error _ _ Hc).
Qed.

Definition summary_ok (parsed : json) : Prop :=
  exists s, get_opt (Some parsed) (lit "summary") = Some (JStr s) /\ s <> [].

(** The parsed object with its [plans] replaced. *)
Definition with_plans (parsed : json) (l : list json) : json :=
  match parsed with
  | JObj o => JObj (obj_set (lit "plans") (JArr l) o)
  | _ => parsed
  end.

(** Once the two top-level checks pass, validation is the plan checks on
    the first three plans followed by the return of the truncated object. *)
Lemma validate_parsed_plans parsed l :
  summary_ok parsed -> plans_of parsed = Some l -> l <> [] ->
  validate_parsed parsed =
  (_ <- forEach check_plan (firstn 3 l) 0 ;;
   ret (if (3 <? List.length l)%nat then with_plans parsed (firstn 3 l) else parsed)).
Proof.
  intros (s & Hs & Hne) Hp Hl. unfold plans_of in Hp.
  destruct parsed as [| b | m x | t | a | o]; cbn in Hs, Hp; try discriminate.
  unfold validate_parsed. cbn [get bind ret]. rewrite Hs.
  destruct s as [|c s]; [contradiction|]. cbn [truthy is_string negb orb].
  destruct (lookup (lit "plans") o) as [[| | | | l' |]|]; try discriminate.
  injection Hp as ->. destruct l as [|p ps]; [contradiction|].
  destruct (3 <? List.length (p :: ps))%nat eqn:Hlen; [reflexivity|].
  now rewrite (firstn_short _ Hlen).
Qed.

Lemma plans_of_truncated o l :
  lookup (lit "plans") o = Some (JArr l) ->
  plans_of (truncated o l) = Some (firstn 3 l).
Proof.
  intros Hp. unfold truncated, plans_of.
  destruct (3 <? List.length l)%nat eqn:Hlen; cbn [get_opt].
  - now rewrite lookup_obj_set_same.
  - now rewrite Hp, (firstn_short _ Hlen).
Qed.

(** The shape of every success of the validator. *)
Lemma validate_inr_shape raw r :
  validateRecommendationResponse raw = inr r ->
  exists parsed l0,
    JSON_parse raw = Some parsed /\ plans_of parsed = Some l0 /\ l0 <> [] /\
    plans_of r = Some (firstn 3 l0) /\
    forEach check_plan (firstn 3 l0) 0 = inr tt.
Proof.
  unfold validateRecommendationResponse.
  destruct (JSON_parse raw) as [parsed|]; [|discriminate].
  intros H. apply validate_parsed_inr in H
    as (o & s & l0 & -> & Hs & Hne & Hp & Hl & Hchk & ->).
  exists (JObj o), l0. repeat split; auto.
  - unfold plans_of. cbn [get_opt]. now rewrite Hp.
  - now apply plans_of_truncated.
Qed.

(** C1 (amended): whenever the validator succeeds, the text parsed, the
    returned plans are the first three plans of the input (all of them
    when there are at most three), each of them passed the plan check,
    and their number is between 1 and 3; and an input whose plans array
    is empty makes the validator throw. *)
Theorem validated_plan_count raw :
  (forall r,
     validateRecommendationResponse raw = inr r ->
     exists parsed l0 l,
       JSON_parse raw = Some parsed /\ plans_of parsed = Some l0 /\
       plans_of r = Some l /\ l = firstn 3 l0 /\
       (1 <= List.length l <= 3)%nat /\ forEach check_plan l 0 = inr tt) /\
  (forall parsed,
     JSON_parse raw = Some parsed -> plans_of parsed = Some [] ->
     exists e, validateRecommendationResponse raw = inl e /\ e <> parse_error).
Proof.
  split.
  - intros r H.
    apply validate_inr_shape in H as (parsed & l0 & H1 & H2 & H3 & H4 & H5).
    exists parsed, l0, (firstn 3 l0). repeat split; auto.
    + destruct l0; [contradiction|cbn; lia].
    + rewrite length_firstn. lia.
  - intros parsed Hparse Hempty.
    destruct (validateRecommendationResponse raw) as [e|r] eqn:Hv.
    + exists e. split; [reflexivity|].
      unfold validateRecommendationResponse in Hv. rewrite Hparse in Hv.
      exact (validate_parsed_not_parse_error _ Hv).
    + exfalso.
      apply validate_inr_shape in Hv as (parsed' & l0 & H1 & H2 & H3 & _).
      rewrite Hparse in H1. injection H1 as <-.
      rewrite Hempty in H2. injection H2 as <-. contradiction.
Qed.

(** C5 (amended): for a parseable input with more than three plans, a
    result of the validator is the parsed object with [plans] replaced by
    its first three entries, in order and as they were, every other
    field being the one parsed; the entries beyond the third have no
    effect on the outcome; and when the summary and the first three
    plans pass their checks the validator does return (the excess is not
    an error). *)
Theorem truncation_to_three raw parsed l :
  JSON_parse raw = Some parsed -> plans_of parsed = Some l ->
  (3 < List.length l)%nat ->
  (forall r, validateRecommendationResponse raw = inr r ->
     r = with_plans parsed (firstn 3 l) /\ plans_of r = Some (firstn 3 l) /\
     forall k, str_eqb k (lit "plans") = false ->
   get_opt (Some r) k = get_opt (Some parsed) k) /\
  validateRecommendationResponse raw
    = validate_parsed (with_plans parsed (firstn 3 l)) /\
  (summary_ok parsed -> forEach check_plan (firstn 3 l) 0 = inr tt ->
   validateRecommendationResponse raw = inr (with_plans parsed (firstn 3 l))).
Proof.
  intros Hparse Hp Hlen. unfold validateRecommendationResponse. rewrite Hparse.
  assert (Hltb : (3 <? List.length l)%nat = true) by now apply Nat.ltb_lt.
  assert (Hl : l <> []) by (destruct l; [cbn in Hlen; lia|discriminate]).
  split; [|split].
  - intros r H. apply validate_parsed_inr in H
      as (o & s & l0 & -> & Hs & Hne & Hp0 & Hl0 & Hchk & ->).
    unfold plans_of in Hp. cbn [get_opt] in Hp. rewrite Hp0 in Hp.
    injection Hp as ->. unfold truncated. rewrite Hltb. cbn [with_plans].
    repeat split.
    + unfold plans_of. cbn [get_opt]. now rewrite lookup_obj_set_same.
    + intros k Hk. cbn [get_opt]. now apply lookup_obj_set_other.
  - unfold plans_of in Hp.
    destruct parsed as [| b | m x | t | a | o]; cbn in Hp; try discriminate.
    cbn [with_plans]. unfold validate_parsed. cbn [get bind ret].
    rewrite lookup_obj_set_other by reflexivity.
    destruct (negb (truthy (lookup (lit "summary") o)) || _); [reflexivity|].
    rewrite lookup_obj_set_same.
    destruct (lookup (lit "plans") o) as [[| | | | l' |]|]; try discriminate.
    injection Hp as ->. destruct l as [|p ps]; [contradiction|].
    rewrite Hltb.
    assert (Hf : exists q qs, firstn 3 (p :: ps) = q :: qs) by (cbn; eauto).
    destruct Hf as (q & qs & Hf). rewrite Hf.
    assert (H3 : (3 <? List.length (q :: qs))%nat = false).
    { rewrite <- Hf. apply Nat.ltb_ge. rewrite length_firstn. lia. }
    rewrite H3.
    destruct (forEach check_plan (q :: qs) 0) as [e|[]]; reflexivity.
  - intros Hs Hchk.
    rewrite (validate_parsed_plans Hs Hp Hl), Hchk, Hltb. reflexivity.
Qed.






(** C1 as stated fails: a payload with a summary and a single complete
    plan is validated, and the returned set has one plan. *)
Lemma single_plan_accepted :
  exists r l,
    validateRecommendationResponse (json_text (Samples.payload 1)) = inr r /\
    plans_of r = Some l /\ ~ (2 <= List.length l <= 3)%nat.
Proof.
  do 2 eexists. split; [vm_compute; reflexivity|].
  split; [vm_compute; reflexivity|]. cbn. lia.
Qed.

Lemma validated_plan_count_witness :
  exists parsed l0 l,
    JSON_parse (json_text (Samples.payload 5)) = Some parsed /\
    plans_of parsed = Some l0 /\
    plans_of (with_plans parsed (firstn 3 l0)) = Some l /\ l = firstn 3 l0 /\
    (1 <= List.length l <= 3)%nat /\ forEach check_plan l 0 = inr tt.
Proof.
  destruct (proj1 (@validated_plan_count (json_text (Samples.payload 5)))
              (match JSON_parse (json_text (Samples.payload 5)) with
               | Some p => with_plans p (firstn 3 (match plans_of p with Some l => l | None => [] end))
               | None => JNull
               end))
    as (parsed & l0 & l & H1 & H2 & H3 & H4 & H5 & H6).
  - vm_compute. reflexivity.
  - exists parsed, l0, l. repeat split; auto; try lia.
    rewrite H1 in H3. rewrite H2 in H3. exact H3.
Defined.



(** C5 as stated fails: with four plans of which the first has no
    field, the plans array has more than three entries, yet the
    validator throws on the first plan instead of returning the first
    three. *)
Lemma overlong_payload_with_defect_rejected :
  let raw := json_text ("{'summary':'Ideas','plans':[{},"
                        ++ Samples.plan_text EmptyString ++ ","
                        ++ Samples.plan_text EmptyString ++ ","
                        ++ Samples.plan_text EmptyString ++ "]}") in
  exists parsed l,
    JSON_parse raw = Some parsed /\ plans_of parsed = Some l /\
    (3 < List.length l)%nat /\
    validateRecommendationResponse raw
    = inl (Error (lit "Plan 1 missing destination or country")).
Proof.
  cbv zeta. do 2 eexists.
  split; [vm_compute; reflexivity|].
  split; [vm_compute; reflexivity|].
  split; [cbn; lia|]. vm_compute. reflexivity.
Qed.

Lemma truncation_to_three_witness :
  exists parsed l,
    validateRecommendationResponse (json_text (Samples.payload 5))
    = inr (with_plans parsed (firstn 3 l)) /\
    List.length l = 5%nat /\
    plans_of (with_plans parsed (firstn 3 l)) = Some (firstn 3 l).
Proof.
  do 2 eexists.
  match goal with
  | |- ?A /\ _ => assert (HA : A)
  end.
  - eapply truncation_to_three.
    + vm_compute. reflexivity.
    + vm_compute. reflexivity.
    + cbn. lia.
    + eexists. split; [vm_compute; reflexivity|discriminate].
    + vm_compute. reflexivity.
  - split; [exact HA|]. split; vm_compute; reflexivity.
Defined.

(** The validator throws the parse error exactly when the text as a
    whole is not JSON. *)
Lemma validator_parse_error_iff raw :
  validateRecommendationResponse raw = inl parse_error <-> JSON_parse raw = None.
Proof.
  unfold validateRecommendationResponse.
  destruct (JSON_parse raw) as [parsed|]; split; try discriminate; auto.
  intros H. now apply validate_parsed_not_parse_error in H.
Qed.

End ValidatorFacts.

(* ================================================================== *)
(** * Substrings *)
(* ================================================================== *)

Module StringFacts.

Lemma starts_with_app needle : forall hay,
  starts_with needle hay = true <-> exists post, hay = needle ++ post.
Proof.
  induction needle as [|x needle IH]; intros hay; cbn [starts_with].
  - split; [intros _; now exists hay|reflexivity].
  - destruct hay as [|y hay].
    + split; [discriminate|intros [post H]; discriminate].
    + rewrite andb_true_iff, N.eqb_eq, IH. split.
      * intros [-> [post ->]]. now exists post.
      * intros [post H]. injection H as -> ->. split; [reflexivity|now exists post].
Qed.

(** [includes] holds exactly of the texts that split around the needle. *)
Lemma includes_split hay needle :
  includes hay needle = true <-> exists pre post, hay = pre ++ needle ++ post.
Proof.
  induction hay as [|c hay IH]; cbn [includes]; rewrite orb_true_iff, starts_with_app.
  - split.
    + intros [[post H]|H]; [|discriminate]. now exists [], post.
    + intros (pre & post & H). left. exists post.
      destruct pre; [exact H|discriminate].
  - rewrite IH. split.
    + intros [[post H]|(pre & post & ->)].
      * now exists [], post.
      * now exists (c :: pre), post.
    + intros (pre & post & H). destruct pre as [|c' pre].
      * left. now exists post.
      * right. injection H as -> ->. now exists pre, post.
Qed.

Lemma includes_middle pre needle post : includes (pre ++ needle ++ post) needle = true.
Proof. apply includes_split. now exists pre, post. Qed.

Lemma includes_trans hay mid needle :
  includes hay mid = true -> includes mid needle = true ->
  includes hay needle = true.
Proof.
  rewrite !includes_split. intros (p1 & q1 & ->) (p2 & q2 & ->).
  exists (p1 ++ p2), (q2 ++ q1). now rewrite <- !app_assoc.
Qed.

Lemma includes_app_l a rest needle :
  includes a needle = true -> includes (a ++ rest) needle = true.
Proof.
  rewrite !includes_split. intros (p & q & ->).
  exists p, (q ++ rest). now rewrite <- !app_assoc.
Qed.

Lemma includes_app_r a rest needle :
  includes rest needle = true -> includes (a ++ rest) needle = true.
Proof.
  rewrite !includes_split. intros (p & q & ->).
  exists (a ++ p), q. now rewrite <- !app_assoc.
Qed.

(** Every item of a joined list occurs in the result. *)
Lemma includes_join sep l x : In x l -> includes (join sep l) x = true.
Proof.
  induction l as [|y l IH]; [intros []|].
  intros [->|Hin].
  - apply includes_split. destruct l as [|z l]; cbn [join].
    + exists [], []. now rewrite app_nil_r.
    + now exists [], (sep ++ join sep (z :: l)).
  - specialize (IH Hin). destruct l as [|z l]; [destruct Hin|].
    change (join sep (y :: z :: l)) with (y ++ sep ++ join sep (z :: l)).
    apply includes_split in IH as (p & q & ->).
    apply includes_split. exists (y ++ sep ++ p), q. now rewrite <- !app_assoc.
Qed.

End StringFacts.

(* ================================================================== *)
(** * What the expressions of the analysis match *)
(* ================================================================== *)

Module RegexFacts.

(** The character before the position reached after reading [w]. *)
Definition prev_after (w : jsstring) (prev : option jschar) : option jschar :=
  List.last (map Some w) prev.

Definition succeeds {A} (o : option A) : Prop := exists a, o = Some a.

Lemma prev_after_cons c w prev : prev_after (c :: w) prev = prev_after w (Some c).
Proof.
  unfold prev_after. revert c prev.
  induction w as [|d w IH]; intros c prev; [reflexivity|].
  change (map Some (c :: d :: w)) with (Some c :: map Some (d :: w)).
  change (List.last (Some c :: map Some (d :: w)) prev)
    with (List.last (map Some (d :: w)) prev).
  now rewrite !IH.
Qed.

Lemma prev_after_app a b prev :
  prev_after (a ++ b) prev = prev_after b (prev_after a prev).
Proof.
  revert prev. induction a as [|c a IH]; intros prev; [reflexivity|].
  cbn [app]. now rewrite !prev_after_cons, IH.
Qed.

Lemma succeeds_first_of {A} (a b : option A) :
  succeeds (first_of a b) <-> succeeds a \/ succeeds b.
Proof.
  unfold succeeds. destruct a as [x|]; cbn [first_of].
  - split; [intros _; left; now exists x|intros _; now exists x].
  - split; [now right|intros [[x H]|H]; [discriminate|exact H]].
Qed.

Lemma succeeds_none {A} : ~ succeeds (@None A).
Proof. intros [a H]. discriminate. Qed.

Lemma strip_prefix_some w : forall s rest,
  strip_prefix w s = Some rest <-> s = w ++ rest.
Proof.
  induction w as [|x w IH]; intros s rest; cbn [strip_prefix app].
  - split; [now intros [= ->]|now intros ->].
  - destruct s as [|y s]; [split; discriminate|].
    destruct (N.eqb x y) eqn:E.
    + apply N.eqb_eq in E. subst y. rewrite IH. split; [now intros ->|now intros [= ->]].
    + apply N.eqb_neq in E. split; [discriminate|intros [= H _]; now symmetry in H].
Qed.

Section Matching.

Context {A : Type}.

Lemma succeeds_Lit w (k : cont A) cap prev s :
  succeeds (rmatch (Lit w) k cap prev s)
  <-> exists rest, s = w ++ rest /\ succeeds (k cap (prev_after w prev) rest).
Proof.
  cbn [rmatch]. fold (prev_after w prev).
  destruct (strip_prefix w s) as [rest|] eqn:E.
  - apply strip_prefix_some in E. subst s. split.
    + intros H. now exists rest.
    + intros (rest' & Heq & H). apply app_inv_head in Heq. now subst rest'.
  - split; [intros H; now apply succeeds_none in H|].
    intros (rest & Heq & _). apply strip_prefix_some in Heq. congruence.
Qed.

Lemma succeeds_Alt r1 r2 (k : cont A) cap prev s :
  succeeds (rmatch (Alt r1 r2) k cap prev s)
  <-> succeeds (rmatch r1 k cap prev s) \/ succeeds (rmatch r2 k cap prev s).
Proof. apply succeeds_first_of. Qed.

Lemma succeeds_words w ws (k : cont A) cap prev s :
  succeeds (rmatch (words w ws) k cap prev s)
  <-> exists x rest, In x (w :: ws) /\ s = lit x ++ rest /\
                     succeeds (k cap (prev_after (lit x) prev) rest).
Proof.
  revert w. induction ws as [|w' ws IH]; intros w; cbn [words].
  - rewrite succeeds_Lit. split.
    + intros (rest & H1 & H2). exists w, rest. cbn. auto.
    + intros (x & rest & [<-|[]] & H1 & H2). now exists rest.
  - rewrite succeeds_Alt, succeeds_Lit, IH. split.
    + intros [(rest & H1 & H2)|(x & rest & Hin & H1 & H2)].
      * exists w, rest. cbn. auto.
      * exists x, rest. split; [now right|auto].
    + intros (x & rest & [<-|Hin] & H1 & H2).
      * left. now exists rest.
      * right. now exists x, rest.
Qed.

Lemma succeeds_star_loop p (k : option jschar -> jsstring -> option A) s :
  forall prev,
  succeeds (star_loop p k prev s)
  <-> exists run rest, s = run ++ rest /\ forallb p run = true /\
                       succeeds (k (prev_after run prev) rest).
Proof.
  induction s as [|c s IH]; intros prev; cbn [star_loop].
  - split.
    + intros H. now exists [], [].
    + intros (run & rest & Heq & _ & H). symmetry in Heq.
      apply app_eq_nil in Heq as [-> ->]. exact H.
  - destruct (p c) eqn:Hc.
    + rewrite succeeds_first_of, IH. split.
      * intros [(run & rest & -> & Hrun & H)|H].
        -- exists (c :: run), rest. cbn [forallb app]. rewrite Hc, prev_after_cons. auto.
        -- now exists [], (c :: s).
      * intros (run & rest & Heq & Hrun & H). destruct run as [|d run].
        -- right. cbn in Heq. now subst rest.
        -- left. injection Heq as <- ->. cbn [forallb] in Hrun.
           apply andb_true_iff in Hrun as [_ Hrun].
           rewrite prev_after_cons in H. now exists run, rest.
    + split.
      * intros H. now exists [], (c :: s).
      * intros (run & rest & Heq & Hrun & H). destruct run as [|d run].
        -- cbn in Heq. now subst rest.
        -- injection Heq as <- ->. cbn [forallb] in Hrun. rewrite Hc in Hrun. discriminate.
Qed.

Lemma succeeds_Star p (k : cont A) cap prev s :
  succeeds (rmatch (Star p) k cap prev s)
  <-> exists run rest, s = run ++ rest /\ forallb p run = true /\
                       succeeds (k cap (prev_after run prev) rest).
Proof. cbn [rmatch]. apply succeeds_star_loop. Qed.

Lemma succeeds_Plus p (k : cont A) cap prev s :
  succeeds (rmatch (Plus p) k cap prev s)
  <-> exists run rest, s = run ++ rest /\ run <> [] /\ forallb p run = true /\
                       succeeds (k cap (prev_after run prev) rest).
Proof.
  cbn [rmatch]. destruct s as [|c s].
  - split; [intros H; now apply succeeds_none in H|].
    intros (run & rest & Heq & Hne & _). symmetry in Heq.
    apply app_eq_nil in Heq as [-> _]. contradiction.
  - destruct (p c) eqn:Hc.
    + rewrite succeeds_star_loop. split.
      * intros (run & rest & -> & Hrun & H). exists (c :: run), rest.
        cbn [forallb app]. rewrite Hc, prev_after_cons. repeat split; auto. discriminate.
      * intros (run & rest & Heq & Hne & Hrun & H). destruct run as [|d run]; [contradiction|].
        injection Heq as <- ->. cbn [forallb] in Hrun.
        apply andb_true_iff in Hrun as [_ Hrun].
        rewrite prev_after_cons in H. now exists run, rest.
    + split; [intros H; now apply succeeds_none in H|].
      intros (run & rest & Heq & Hne & Hrun & _). destruct run as [|d run]; [contradiction|].
      injection Heq as <- ->. cbn [forallb] in Hrun. rewrite Hc in Hrun. discriminate.
Qed.

Lemma succeeds_rep_loop p (k : option jschar -> jsstring -> option A) n :
  forall prev s,
  succeeds (rep_loop p k n prev s)
  <-> exists run rest, s = run ++ rest /\ List.length run = n /\
                       forallb p run = true /\
                       succeeds (k (prev_after run prev) rest).
Proof.
  induction n as [|n IH]; intros prev s; cbn [rep_loop].
  - split.
    + intros H. now exists [], s.
    + intros (run & rest & -> & Hlen & _ & H).
      apply length_zero_iff_nil in Hlen. now subst run.
  - destruct s as [|c s].
    + split; [intros H; now apply succeeds_none in H|].
      intros (run & rest & Heq & Hlen & _). symmetry in Heq.
      apply app_eq_nil in Heq as [-> _]. discriminate.
    + destruct (p c) eqn:Hc.
      * rewrite IH. split.
        -- intros (run & rest & -> & Hlen & Hrun & H). exists (c :: run), rest.
           cbn [forallb app List.length]. rewrite Hc, prev_after_cons. auto.
        -- intros (run & rest & Heq & Hlen & Hrun & H).
           destruct run as [|d run]; [discriminate|].
           injection Heq as <- ->. cbn [forallb] in Hrun.
           apply andb_true_iff in Hrun as [_ Hrun]. injection Hlen as Hlen.
           rewrite prev_after_cons in H. now exists run, rest.
      * split; [intros H; now apply succeeds_none in H|].
        intros (run & rest & Heq & Hlen & Hrun & _).
        destruct run as [|d run]; [discriminate|].
        injection Heq as <- ->. cbn [forallb] in Hrun. rewrite Hc in Hrun. discriminate.
Qed.

Lemma succeeds_WordB (k : cont A) cap prev s :
  succeeds (rmatch WordB k cap prev s)
  <-> xorb (is_word_at prev) (is_word_at (List.hd_error s)) = true /\
      succeeds (k cap prev s).
Proof.
  cbn [rmatch]. destruct (xorb _ _).
  - split; [now split|now intros [_ H]].
  - split; [intros H; now apply succeeds_none in H|intros [H _]; discriminate].
Qed.

(** The expression matches somewhere exactly when it matches at the end
    of some prefix. *)
Lemma succeeds_search r (k : cont A) s : forall prev,
  succeeds (search r k prev s)
  <-> exists pre rest, s = pre ++ rest /\
                       succeeds (rmatch r k None (prev_after pre prev) rest).
Proof.
  induction s as [|c s IH]; intros prev; cbn [search]; rewrite succeeds_first_of.
  - split.
    + intros [H|H]; [|now apply succeeds_none in H]. now exists [], [].
    + intros (pre & rest & Heq & H). symmetry in Heq.
      apply app_eq_nil in Heq as [-> ->]. now left.
  - rewrite IH. split.
    + intros [H|(pre & rest & -> & H)].
      * now exists [], (c :: s).
      * exists (c :: pre), rest. now rewrite prev_after_cons.
    + intros (pre & rest & Heq & H). destruct pre as [|d pre].
      * left. cbn in Heq. now subst rest.
      * right. injection Heq as <- ->. rewrite prev_after_cons in H.
        now exists pre, rest.
Qed.

End Matching.

Lemma test_search r s :
  test r s = true
  <-> succeeds (search r (fun _ _ _ => Some tt) None s).
Proof.
  unfold test, succeeds.
  destruct (search r (fun _ _ _ => Some tt) None s) as [[]|].
  - split; [intros _; now exists tt|reflexivity].
  - split; [discriminate|intros [a H]; discriminate].
Qed.

Lemma test_iff r s :
  test r s = true
  <-> exists pre rest, s = pre ++ rest /\
        succeeds (rmatch r (fun _ _ _ => Some tt) None (prev_after pre None) rest).
Proof. rewrite test_search. apply succeeds_search. Qed.

End RegexFacts.

(* ================================================================== *)
(** * The three signals in plain terms *)
(* ================================================================== *)

Module SignalFacts.
Import RegexFacts.

(** The word lists of the expressions. *)
Definition intent_phrases : list string :=
  ["want to"; "going to"; "visit"; "travel to"; "interested in"; "thinking about"].
Definition place_words : list string :=
  ["beach"; "mountain"; "city"; "europe"; "asia"; "africa"; "america";
   "country"; "island"].
Definition budget_keywords : list string :=
  ["budget"; "spend"; "afford"; "cost"; "price"; "cheap"; "expensive"].
Definition currency_words : list string := ["dollars"; "usd"; "euros"; "pounds"].
Definition month_names : list string :=
  ["january"; "february"; "march"; "april"; "may"; "june"; "july"; "august";
   "september"; "october"; "november"; "december"].
Definition period_words : list string :=
  ["week"; "month"; "year"; "summer"; "winter"; "spring"; "fall"].
Definition unit_words : list string := ["days"; "weeks"; "months"].
Definition hedge_words : list string := ["soon"; "later"; "planning"].

(** A word character stands right before the end of [pre], or right at
    the start of [post]. *)
Definition word_before (pre : jsstring) : bool := is_word_at (prev_after pre None).
Definition word_after (post : jsstring) : bool := is_word_at (List.hd_error post).

(** A literal that starts and ends with a word character. *)
Definition wordy (x : string) : bool :=
  match lit x with
  | [] => false
  | c :: r => word c && is_word_at (prev_after r (Some c))
  end.

Definition accept : cont unit := fun _ _ _ => Some tt.

Lemma succeeds_done cap prev s : succeeds (accept cap prev s).
Proof. now exists tt. Qed.

Lemma succeeds_Seq {A} r1 r2 (k : cont A) cap prev s :
  succeeds (rmatch (Seq r1 r2) k cap prev s)
  <-> succeeds (rmatch r1 (fun cap' prev' s' => rmatch r2 k cap' prev' s') cap prev s).
Proof. reflexivity. Qed.

Lemma succeeds_Grp {A} r (k : cont A) cap prev s :
  succeeds (rmatch (Grp r) k cap prev s)
  <-> succeeds (rmatch r
                  (fun _ prev' s' =>
                     k (Some (firstn (List.length s - List.length s') s)) prev' s')
                  cap prev s).
Proof. reflexivity. Qed.

Lemma wordy_start x rest : wordy x = true -> is_word_at (List.hd_error (lit x ++ rest)) = true.
Proof.
  unfold wordy. destruct (lit x) as [|c r]; [discriminate|].
  intros H. apply andb_true_iff in H as [H _]. exact H.
Qed.

Lemma wordy_end x prev : wordy x = true -> is_word_at (prev_after (lit x) prev) = true.
Proof.
  unfold wordy. destruct (lit x) as [|c r]; [discriminate|].
  intros H. apply andb_true_iff in H as [_ H]. now rewrite prev_after_cons.
Qed.

Lemma test_done r s :
  test r s = true
  <-> exists pre rest, s = pre ++ rest /\
        succeeds (rmatch r accept None (prev_after pre None) rest).
Proof. apply test_iff. Qed.

(** [\b(w|...)\b]: one of the words occurs with no word character right
    before it and none right after it. *)
Lemma whole_word_iff w ws text :
  forallb wordy (w :: ws) = true ->
  test (seq WordB [Grp (words w ws); WordB]) text = true
  <-> exists pre x post,
        text = pre ++ lit x ++ post /\ In x (w :: ws) /\
        word_before pre = false /\ word_after post = false.
Proof.
  intros Hwordy. rewrite forallb_forall in Hwordy.
  rewrite test_done. cbn [seq]. split.
  - intros (pre & rest & -> & H).
    rewrite succeeds_Seq, succeeds_WordB in H. destruct H as [Hb H].
    rewrite succeeds_Seq, succeeds_Grp, succeeds_words in H.
    destruct H as (x & post & Hin & -> & H). cbv beta in H.
    rewrite succeeds_WordB in H. destruct H as [He _].
    exists pre, x, post. repeat split; auto.
    + rewrite wordy_start in Hb by (apply Hwordy; exact Hin).
      unfold word_before. now destruct (is_word_at (prev_after pre None)).
    + rewrite wordy_end in He by (apply Hwordy; exact Hin).
      unfold word_after. now destruct (is_word_at (List.hd_error post)).
  - intros (pre & x & post & -> & Hin & Hb & He).
    exists pre, (lit x ++ post). split; [reflexivity|].
    rewrite succeeds_Seq, succeeds_WordB. split.
    + rewrite wordy_start by (apply Hwordy; exact Hin). unfold word_before in Hb. now rewrite Hb.
    + rewrite succeeds_Seq, succeeds_Grp, succeeds_words.
      exists x, post. repeat split; auto. cbv beta.
      rewrite succeeds_WordB. split; [|apply succeeds_done].
      rewrite wordy_end by (apply Hwordy; exact Hin). unfold word_after in He. now rewrite He.
Qed.

Lemma forallb_last {A} (p : A -> bool) run :
  run <> [] -> forallb p run = true ->
  exists init d, run = init ++ [d] /\ p d = true.
Proof.
  intros Hne Hrun. destruct (exists_last Hne) as (init & d & ->).
  exists init, d. split; [reflexivity|].
  rewrite forallb_app in Hrun. apply andb_true_iff in Hrun as [_ Hd].
  cbn in Hd. now rewrite andb_true_r in Hd.
Qed.

Lemma place_word_iff text :
  test re_place text = true
  <-> exists pre x post,
        text = pre ++ lit x ++ post /\ In x place_words /\
        word_before pre = false /\ word_after post = false.
Proof. exact (@whole_word_iff "beach" (List.tl place_words) text eq_refl). Qed.

Lemma month_name_iff text :
  test (seq WordB [Grp (words "january" (List.tl month_names)); WordB]) text = true
  <-> exists pre x post,
        text = pre ++ lit x ++ post /\ In x month_names /\
        word_before pre = false /\ word_after post = false.
Proof. exact (@whole_word_iff "january" (List.tl month_names) text eq_refl). Qed.

Lemma hedge_word_iff text :
  test re_hedge text = true
  <-> exists pre x post,
        text = pre ++ lit x ++ post /\ In x hedge_words /\
        word_before pre = false /\ word_after post = false.
Proof. exact (@whole_word_iff "soon" (List.tl hedge_words) text eq_refl). Qed.

(** The destination signal, in plain terms: one of the six intent
    phrases, not preceded by a word character, followed by white space
    and a word character; or one of the nine place words standing as a
    word of its own. *)
Definition destination_present (text : jsstring) : Prop :=
  (exists pre x ws c post,
     text = pre ++ lit x ++ ws ++ c :: post /\ In x intent_phrases /\
     word_before pre = false /\
     ws <> [] /\ forallb space ws = true /\ word c = true)
  \/ (exists pre x post,
        text = pre ++ lit x ++ post /\ In x place_words /\
        word_before pre = false /\ word_after post = false).

Lemma hasDestination_present (text : jsstring) :
  hasDestination text = true <-> destination_present text.
Proof.
  unfold destination_present.
  unfold hasDestination. rewrite orb_true_iff.
  rewrite place_word_iff.
  enough (Hintent : test re_intent text = true
    <-> exists pre x ws c post,
          text = pre ++ lit x ++ ws ++ c :: post /\ In x intent_phrases /\
          word_before pre = false /\
          ws <> [] /\ forallb space ws = true /\ word c = true)
    by (rewrite Hintent; reflexivity).
  unfold re_intent. rewrite test_done. cbn [seq].
  assert (Hwordy : forall x, In x intent_phrases -> wordy x = true).
  { apply forallb_forall. reflexivity. }
  split.
  - intros (pre & rest & -> & H).
    rewrite succeeds_Seq, succeeds_WordB in H. destruct H as [Hb H].
    rewrite succeeds_Seq, succeeds_Grp, succeeds_words in H.
    destruct H as (x & rest0 & Hin & -> & H). cbv beta in H.
    rewrite succeeds_Seq, succeeds_Plus in H.
    destruct H as (ws & rest' & -> & Hne & Hws & H). cbv beta in H.
    rewrite succeeds_Plus in H.
    destruct H as (run & post & -> & Hrne & Hrun & _).
    destruct run as [|c run]; [contradiction|].
    cbn [forallb] in Hrun. apply andb_true_iff in Hrun as [Hc _].
    exists pre, x, ws, c, (run ++ post). repeat split; auto.
    rewrite wordy_start in Hb by (apply Hwordy; exact Hin).
    unfold word_before. now destruct (is_word_at (prev_after pre None)).
  - intros (pre & x & ws & c & post & -> & Hin & Hb & Hne & Hws & Hc).
    exists pre, (lit x ++ ws ++ c :: post). split; [reflexivity|].
    rewrite succeeds_Seq, succeeds_WordB. split.
    + rewrite wordy_start by (apply Hwordy; exact Hin). unfold word_before in Hb. now rewrite Hb.
    + rewrite succeeds_Seq, succeeds_Grp, succeeds_words.
      exists x, (ws ++ c :: post). repeat split; auto. cbv beta.
      rewrite succeeds_Seq, succeeds_Plus.
      exists ws, (c :: post). repeat split; auto. cbv beta.
      rewrite succeeds_Plus. exists [c], post. repeat split.
      * discriminate.
      * cbn. now rewrite Hc.
      * apply succeeds_done.
Qed.

(** X7: the destination signal, in plain terms: one of the six intent
    phrases, not preceded by a word character, followed by white space
    and a word character; or one of the nine place words standing as a
    word of its own. *)
Theorem destination_signal_iff (text : jsstring) :
  hasDestination text = true
  <-> (exists pre x ws c post,
         text = pre ++ lit x ++ ws ++ c :: post /\ In x intent_phrases /\
         word_before pre = false /\
         ws <> [] /\ forallb space ws = true /\ word c = true)
      \/ (exists pre x post,
            text = pre ++ lit x ++ post /\ In x place_words /\
            word_before pre = false /\ word_after post = false).
Proof.
  split; intros H.
  - now apply hasDestination_present in H.
  - now apply hasDestination_present.
Qed.

Lemma dollar_digit_budget (pre post : jsstring) (d : jschar) :
  digit d = true -> hasBudget (pre ++ lit "$" ++ d :: post) = true.
Proof.
  intros Hd. unfold hasBudget, re_budget. apply test_done.
  exists pre, (lit "$" ++ d :: post). split; [reflexivity|].
  rewrite succeeds_Alt. left. rewrite succeeds_Seq, succeeds_Lit.
  exists (d :: post). split; [reflexivity|]. rewrite succeeds_Plus.
  exists [d], post. repeat split; [discriminate|cbn; now rewrite Hd|].
  apply succeeds_done.
Qed.

Lemma four_digits_dates (pre post : jsstring) (d1 d2 d3 d4 : jschar) :
  forallb digit [d1; d2; d3; d4] = true ->
  test re_year_or_month (pre ++ d1 :: d2 :: d3 :: d4 :: post) = true.
Proof.
  intros Hd. unfold re_year_or_month. apply test_done.
  exists pre, (d1 :: d2 :: d3 :: d4 :: post). split; [reflexivity|].
  rewrite succeeds_Alt. left. cbn [rmatch]. rewrite succeeds_rep_loop.
  exists [d1; d2; d3; d4], post. repeat split; auto; apply succeeds_done.
Qed.

(** The budget signal, in plain terms: a dollar sign followed by a
    digit; or one of seven keywords anywhere, also inside a longer
    word; or a digit followed, after optional white space, by one of
    four currency words. *)
Definition budget_present (text : jsstring) : Prop :=
  (exists pre d post, text = pre ++ lit "$" ++ d :: post /\ digit d = true)
  \/ (exists x, In x budget_keywords /\ includes text (lit x) = true)
  \/ (exists pre d ws x post,
        text = pre ++ d :: ws ++ lit x ++ post /\ digit d = true /\
        forallb space ws = true /\ In x currency_words).

Lemma hasBudget_present (text : jsstring) :
  hasBudget text = true <-> budget_present text.
Proof.
  unfold budget_present.
  unfold hasBudget, re_budget. rewrite test_done. cbn [seq]. split.
  - intros (pre & rest & -> & H).
    rewrite succeeds_Alt in H. destruct H as [H|H].
    + left. rewrite succeeds_Seq, succeeds_Lit in H.
      destruct H as (rest' & -> & H). rewrite succeeds_Plus in H.
      destruct H as (run & post & -> & Hne & Hrun & _).
      destruct run as [|d run]; [contradiction|].
      cbn [forallb] in Hrun. apply andb_true_iff in Hrun as [Hd _].
      now exists pre, d, (run ++ post).
    + rewrite succeeds_Alt in H. destruct H as [H|H].
      * right. left. rewrite succeeds_words in H.
        destruct H as (x & post & Hin & -> & _).
        exists x. split; [exact Hin|apply StringFacts.includes_middle].
      * right. right. rewrite succeeds_Seq, succeeds_Plus in H.
        destruct H as (run & rest' & -> & Hne & Hrun & H). cbv beta in H.
        rewrite succeeds_Seq, succeeds_Star in H.
        destruct H as (ws & rest'' & -> & Hws & H). cbv beta in H.
        rewrite succeeds_Grp, succeeds_words in H.
        destruct H as (x & post & Hin & -> & _).
        destruct (forallb_last _ Hne Hrun) as (init & d & -> & Hd).
        exists (pre ++ init), d, ws, x, post. repeat split; auto.
        now rewrite <- !app_assoc.
  - intros [(pre & d & post & -> & Hd)|[(x & Hin & Hx)|(pre & d & ws & x & post & -> & Hd & Hws & Hin)]].
    + apply test_done. now apply dollar_digit_budget.
    + apply StringFacts.includes_split in Hx as (pre & post & ->).
      exists pre, (lit x ++ post). split; [reflexivity|].
      rewrite succeeds_Alt. right. rewrite succeeds_Alt. left.
      rewrite succeeds_words. exists x, post. repeat split; auto.
      apply succeeds_done.
    + exists pre, (d :: ws ++ lit x ++ post). split; [reflexivity|].
      rewrite succeeds_Alt. right. rewrite succeeds_Alt. right.
      rewrite succeeds_Seq, succeeds_Plus.
      exists [d], (ws ++ lit x ++ post).
      repeat split; [discriminate|cbn; now rewrite Hd|]. cbv beta.
      rewrite succeeds_Seq, succeeds_Star.
      exists ws, (lit x ++ post). repeat split; auto. cbv beta.
      rewrite succeeds_Grp, succeeds_words. exists x, post.
      repeat split; auto; apply succeeds_done.
Qed.

(** X8: the budget signal, in plain terms: a dollar sign followed by a
    digit; or one of seven keywords anywhere, also inside a longer
    word; or a digit followed, after optional white space, by one of
    four currency words. *)
Theorem budget_signal_iff (text : jsstring) :
  hasBudget text = true
  <-> (exists pre d post, text = pre ++ lit "$" ++ d :: post /\ digit d = true)
      \/ (exists x, In x budget_keywords /\ includes text (lit x) = true)
      \/ (exists pre d ws x post,
            text = pre ++ d :: ws ++ lit x ++ post /\ digit d = true /\
            forallb space ws = true /\ In x currency_words).
Proof.
  split; intros H.
  - now apply hasBudget_present in H.
  - now apply hasBudget_present.
Qed.

(** The dates signal, in plain terms: four digits in a row; or a
    month name standing as a word of its own; or [next ] followed by
    one of seven period words; or [in ], digits, a space and one of
    three units; or one of [soon], [later], [planning] standing as a
    word of its own. *)
Definition dates_present (text : jsstring) : Prop :=
  (exists pre d1 d2 d3 d4 post,
     text = pre ++ d1 :: d2 :: d3 :: d4 :: post /\
     forallb digit [d1; d2; d3; d4] = true)
  \/ (exists pre x post,
        text = pre ++ lit x ++ post /\ In x month_names /\
        word_before pre = false /\ word_after post = false)
  \/ (exists x, In x period_words /\
                includes text (lit "next " ++ lit x) = true)
  \/ (exists pre run x post,
        text = pre ++ lit "in " ++ run ++ lit " " ++ lit x ++ post /\
        run <> [] /\ forallb digit run = true /\ In x unit_words)
  \/ (exists pre x post,
        text = pre ++ lit x ++ post /\ In x hedge_words /\
        word_before pre = false /\ word_after post = false).

Lemma hasDates_present (text : jsstring) :
  hasDates text = true <-> dates_present text.
Proof.
  unfold dates_present.
  unfold hasDates. rewrite !orb_true_iff.
  assert (Hyear : test re_year_or_month text = true
    <-> (exists pre d1 d2 d3 d4 post,
           text = pre ++ d1 :: d2 :: d3 :: d4 :: post /\
           forallb digit [d1; d2; d3; d4] = true)
        \/ (exists pre x post,
              text = pre ++ lit x ++ post /\ In x month_names /\
              word_before pre = false /\ word_after post = false)).
  { rewrite <- month_name_iff.
    unfold re_year_or_month. rewrite !test_done. cbn [List.tl month_names]. split.
    - intros (pre & rest & -> & H). rewrite succeeds_Alt in H.
      destruct H as [H|H]; [left|right; now exists pre, rest].
      cbn [rmatch] in H. rewrite succeeds_rep_loop in H.
      destruct H as (run & post & -> & Hlen & Hrun & _).
      destruct run as [|d1 [|d2 [|d3 [|d4 [|]]]]]; try discriminate.
      now exists pre, d1, d2, d3, d4, post.
    - intros [(pre & d1 & d2 & d3 & d4 & post & -> & Hd)|(pre & rest & -> & H)].
      + apply test_done. now apply four_digits_dates.
      + exists pre, rest. split; [reflexivity|]. rewrite succeeds_Alt. now right. }
  assert (Hnext : test re_next text = true
    <-> exists x, In x period_words /\
                  includes text (lit "next " ++ lit x) = true).
  { unfold re_next. rewrite test_done. split.
    - intros (pre & rest & -> & H). rewrite succeeds_Seq, succeeds_Lit in H.
      destruct H as (rest' & -> & H). rewrite succeeds_Grp, succeeds_words in H.
      destruct H as (x & post & Hin & -> & _). exists x. split; [exact Hin|].
      apply StringFacts.includes_split. exists pre, post. now rewrite <- app_assoc.
    - intros (x & Hin & Hx).
      apply StringFacts.includes_split in Hx as (pre & post & ->).
      exists pre, ((lit "next " ++ lit x) ++ post). split; [reflexivity|].
      rewrite <- app_assoc. rewrite succeeds_Seq, succeeds_Lit.
      exists (lit x ++ post). split; [reflexivity|].
      rewrite succeeds_Grp, succeeds_words. exists x, post.
      repeat split; auto; apply succeeds_done. }
  assert (Hin_n : test re_in_n text = true
    <-> exists pre run x post,
          text = pre ++ lit "in " ++ run ++ lit " " ++ lit x ++ post /\
          run <> [] /\ forallb digit run = true /\ In x unit_words).
  { unfold re_in_n. rewrite test_done. cbn [seq]. split.
    - intros (pre & rest & -> & H). rewrite succeeds_Seq, succeeds_Lit in H.
      destruct H as (rest' & -> & H). rewrite succeeds_Seq, succeeds_Plus in H.
      destruct H as (run & rest'' & -> & Hne & Hrun & H). cbv beta in H.
      rewrite succeeds_Seq, succeeds_Lit in H.
      destruct H as (rest3 & -> & H). rewrite succeeds_Grp, succeeds_words in H.
      destruct H as (x & post & Hin & -> & _).
      now exists pre, run, x, post.
    - intros (pre & run & x & post & -> & Hne & Hrun & Hin).
      exists pre, (lit "in " ++ run ++ lit " " ++ lit x ++ post).
      split; [reflexivity|]. rewrite succeeds_Seq, succeeds_Lit.
      exists (run ++ lit " " ++ lit x ++ post). split; [reflexivity|].
      rewrite succeeds_Seq, succeeds_Plus.
      exists run, (lit " " ++ lit x ++ post). repeat split; auto. cbv beta.
      rewrite succeeds_Seq, succeeds_Lit.
      exists (lit x ++ post). split; [reflexivity|].
      rewrite succeeds_Grp, succeeds_words. exists x, post.
      repeat split; auto; apply succeeds_done. }
  rewrite Hyear, Hnext, Hin_n.
  rewrite hedge_word_iff. tauto.
Qed.

(** X9: the dates signal, in plain terms: four digits in a row; or a
    month name standing as a word of its own; or [next ] followed by
    one of seven period words; or [in ], digits, a space and one of
    three units; or one of [soon], [later], [planning] standing as a
    word of its own. *)
Theorem dates_signal_iff (text : jsstring) :
  hasDates text = true
  <-> (exists pre d1 d2 d3 d4 post,
         text = pre ++ d1 :: d2 :: d3 :: d4 :: post /\
         forallb digit [d1; d2; d3; d4] = true)
      \/ (exists pre x post,
            text = pre ++ lit x ++ post /\ In x month_names /\
            word_before pre = false /\ word_after post = false)
      \/ (exists x, In x period_words /\
                    includes text (lit "next " ++ lit x) = true)
      \/ (exists pre run x post,
            text = pre ++ lit "in " ++ run ++ lit " " ++ lit x ++ post /\
            run <> [] /\ forallb digit run = true /\ In x unit_words)
      \/ (exists pre x post,
            text = pre ++ lit x ++ post /\ In x hedge_words /\
            word_before pre = false /\ word_after post = false).
Proof.
  split; intros H.
  - now apply hasDates_present in H.
  - now apply hasDates_present.
Qed.

(** X10: an amount of four digits after a dollar sign is at once a
    budget signal and a dates signal, whatever surrounds it. *)
Theorem amount_counts_as_dates (pre post : jsstring) (d1 d2 d3 d4 : jschar) :
  forallb digit [d1; d2; d3; d4] = true ->
  hasBudget (pre ++ lit "$" ++ d1 :: d2 :: d3 :: d4 :: post) = true /\
  hasDates (pre ++ lit "$" ++ d1 :: d2 :: d3 :: d4 :: post) = true.
Proof.
  intros Hd. split.
  - apply dollar_digit_budget. cbn [forallb] in Hd.
    now apply andb_true_iff in Hd as [Hd _].
  - unfold hasDates.
    replace (pre ++ lit "$" ++ d1 :: d2 :: d3 :: d4 :: post)
      with ((pre ++ lit "$") ++ d1 :: d2 :: d3 :: d4 :: post)
      by (now rewrite <- app_assoc).
    now rewrite (four_digits_dates (pre ++ lit "$") post d1 d2 d3 d4 Hd).
Qed.

Lemma amount_counts_as_dates_witness :
  hasBudget (lit "about $3000 in all") = true /\
  hasDates (lit "about $3000 in all") = true.
Proof.
  exact (@amount_counts_as_dates (lit "about ") (lit " in all") 51%N 48%N 48%N 48%N eq_refl).
Defined.

End SignalFacts.

(* ================================================================== *)
(** * The completeness analysis *)
(* ================================================================== *)

Module AnalyzerFacts.

(** The three categories of the specification, with their labels, the
    tests the code makes for them and what these tests find in a text,
    in plain terms. *)
Inductive Category : Type := destination | budget | dates.

Definition label (c : Category) : jsstring :=
  match c with
  | destination => lit "destination"
  | budget => lit "budget"
  | dates => lit "dates"
  end.

Definition signal (c : Category) (text : jsstring) : bool :=
  match c with
  | destination => hasDestination text
  | budget => hasBudget text
  | dates => hasDates text
  end.

Definition present (c : Category) (text : jsstring) : Prop :=
  match c with
  | destination => SignalFacts.destination_present text
  | budget => SignalFacts.budget_present text
  | dates => SignalFacts.dates_present text
  end.

(** [absent text cs l]: [l] lists, in the order of [cs], the categories
    of [cs] of which the text holds no signal. *)
Inductive absent (text : jsstring) : list Category -> list Category -> Prop :=
| absent_nil : absent text [] []
| absent_keep c cs l :
    ~ present c text -> absent text cs l -> absent text (c :: cs) (c :: l)
| absent_drop c cs l :
    present c text -> absent text cs l -> absent text (c :: cs) l.

Definition is_system (r : Role) : bool :=
  match r with
  | system => true
  | _ => false
  end.

Lemma signal_present c text : signal c text = true <-> present c text.
Proof.
  destruct c; cbn [signal present].
  - apply SignalFacts.hasDestination_present.
  - apply SignalFacts.hasBudget_present.
  - apply SignalFacts.hasDates_present.
Qed.

Lemma signal_absent c text : signal c text = false <-> ~ present c text.
Proof.
  rewrite <- signal_present.
  destruct (signal c text); split; intros H; congruence.
Qed.

Lemma absent_filter text cs :
  absent text cs (filter (fun c => negb (signal c text)) cs).
Proof.
  induction cs as [|c cs IH]; cbn [filter]; [constructor|].
  destruct (signal c text) eqn:E; cbn [negb].
  - apply absent_drop; [now apply signal_present|exact IH].
  - apply absent_keep; [now apply signal_absent|exact IH].
Qed.

Section WithCaseMapping.

Variable toLowerCase : jsstring -> jsstring.

(** The corpus in the words of the specification: the contents of the
    non-system messages, joined (by single spaces) and lowercased. *)
Definition corpus (messages : list Message) : jsstring :=
  toLowerCase
    (join (lit " ")
       (map content (filter (fun m => negb (is_system (role m))) messages))).

Lemma conversationText_corpus messages :
  conversationText toLowerCase messages = corpus messages.
Proof.
  unfold conversationText, corpus. do 3 f_equal.
  apply filter_ext. intros m. now destruct (role m).
Qed.

(** C2: the analysis is ready exactly when the corpus holds a
    destination signal and a budget signal or a dates signal, the
    signals being what the expressions of the source find, in plain
    terms; and the missing list consists of exactly the categories of
    which the corpus holds no signal, in the order destination, budget,
    dates, whatever the decision. *)
Theorem analysis_decision (messages : list Message) :
  let a := shouldGenerateRecommendations toLowerCase messages in
  let text := corpus messages in
  (shouldGenerate a = true <->
   present destination text /\
   (present budget text \/ present dates text)) /\
  (exists cs, absent text [destination; budget; dates] cs /\
              missingInfo a = map label cs) /\
  (forall c, In (label c) (missingInfo a) <-> ~ present c text).
Proof.
  cbv zeta. unfold shouldGenerateRecommendations.
  rewrite conversationText_corpus. cbn [shouldGenerate missingInfo].
  pose proof (signal_present destination (corpus messages)) as Pd.
  pose proof (signal_present budget (corpus messages)) as Pb.
  pose proof (signal_present dates (corpus messages)) as Pt.
  pose proof (signal_absent destination (corpus messages)) as Ad.
  pose proof (signal_absent budget (corpus messages)) as Ab.
  pose proof (signal_absent dates (corpus messages)) as At.
  cbn [signal] in Pd, Pb, Pt, Ad, Ab, At.
  split; [|split].
  - rewrite andb_true_iff, orb_true_iff. tauto.
  - exists (filter (fun c => negb (signal c (corpus messages)))
              [destination; budget; dates]).
    split; [apply absent_filter|]. cbn [filter signal].
    now destruct (hasDestination (corpus messages)),
                 (hasBudget (corpus messages)),
                 (hasDates (corpus messages)).
  - intros c.
    assert (Hin : In (label c)
                    (push_unless (hasDates (corpus messages)) (lit "dates")
                       (push_unless (hasBudget (corpus messages)) (lit "budget")
                          (push_unless (hasDestination (corpus messages))
                             (lit "destination") [])))
                  <-> signal c (corpus messages) = false).
    { destruct (hasDestination (corpus messages)) eqn:Hd,
               (hasBudget (corpus messages)) eqn:Hb,
               (hasDates (corpus messages)) eqn:Ht;
        cbn [push_unless app]; destruct c; cbn [signal label In];
        rewrite ?Hd, ?Hb, ?Ht; unfold lit; cbn; intuition discriminate. }
    rewrite Hin. apply signal_absent.
Qed.

End WithCaseMapping.

(** Scenario A of the specification. *)
Example scenario_A :
  shouldGenerateRecommendations toLowerCase_ascii [say user "I want to visit Japan"]
  = {| shouldGenerate := false; missingInfo := [lit "budget"; lit "dates"] |}.
Proof. vm_compute. reflexivity. Qed.

(** Scenario B of the specification. *)
Example scenario_B :
  shouldGenerateRecommendations toLowerCase_ascii
    [say user "I want to visit Japan in March with a budget of $3000"]
  = {| shouldGenerate := true; missingInfo := [] |}.
Proof. vm_compute. reflexivity. Qed.

(** A system message contributes nothing to the corpus. *)
Example system_text_ignored :
  shouldGenerate (shouldGenerateRecommendations toLowerCase_ascii
      [say system "beach budget 2025"; say user "Hello"])
  = false.
Proof. vm_compute. reflexivity. Qed.

End AnalyzerFacts.

(* ================================================================== *)
(** * The conversation handler *)
(* ================================================================== *)

Module HandlerFacts.
Import Assistant.

Definition recommendation_options : ChatOptions :=
  {| temperature := JNum 7 (-1); maxTokens := 2000;
     responseFormat := Some json_format |}.

Section Handler.

Variable toLowerCase : jsstring -> jsstring.
Variable number_to_string : Z -> Z -> jsstring.
Variable getInformationGatheringPrompt : list jsstring -> jsstring.
Variable getRecommendationPrompt : jsstring.
Variable now : Z.
Variable chat : list json -> ChatOptions -> M ChatResponse.

Local Abbreviation handler :=
  (POST toLowerCase number_to_string getInformationGatheringPrompt
        getRecommendationPrompt now chat).

(** C6: in the recommending phase (the request passed its checks and
    the analysis is ready), when the gateway returns a completion on
    which the validator throws, the handler answers with status 500 and
    the error body of code [VALIDATION_ERROR], [retryable = true],
    carrying the message of the error: neither a text reply nor a
    plan list.  One gateway call was made. *)
Theorem invalid_completion_is_retryable_failure body messages response e :
  get (Some body) (lit "messages") = inr (Some (JArr messages)) ->
  validate_messages messages = inr None ->
  shouldGenerate (shouldGenerateRecommendations toLowerCase
    (map as_Message messages)) = true ->
  chat (systemMessage now getRecommendationPrompt :: messages)
       recommendation_options = inr response ->
  validateRecommendationResponse
    (display number_to_string (chat_content response)) = inl e ->
  handler (inr body)
  = {| answer :=
         {| http_status := 500;
            http_body :=
              Failure {| error := lit "Invalid response format";
                         message := message_of e;
                         code := lit "VALIDATION_ERROR";
                         retryable := true |} |};
       llm_calls := [(systemMessage now getRecommendationPrompt :: messages,
                      recommendation_options)] |}.
Proof.
  intros Hm Hv Hready Hchat Hbad.
  unfold POST, POST_try. rewrite Hm, Hv, Hready.
  cbn [fst snd]. fold recommendation_options.
  rewrite Hchat. cbn [bind]. now rewrite Hbad.
Qed.

(** The two request checks, for bodies and messages other than [null]:
    no gateway call is made and the failure is not retryable. *)
Lemma messages_not_array_rejected body v :
  get (Some body) (lit "messages") = inr v ->
  isArray v = false ->
  handler (inr body)
  = {| answer := failure 400 "Invalid request" "Messages array is required"
   "INVALID_REQUEST" false;
       llm_calls := [] |}.
Proof.
  intros Hm Ha. unfold POST, POST_try. rewrite Hm.
  destruct v as [[| | | | l |]|]; try discriminate; reflexivity.
Qed.

Definition invalid_message (msg : json) : Prop :=
  truthy (get_opt (Some msg) (lit "role")) = false \/
  truthy (get_opt (Some msg) (lit "content")) = false \/
  is_string (get_opt (Some msg) (lit "content")) = false.

Lemma validate_messages_invalid messages :
  Forall (fun msg => msg <> JNull) messages ->
  Exists invalid_message messages ->
  validate_messages messages
  = inr (Some (failure 400 "Invalid request"
                 "Each message must have role and content"
                 "INVALID_MESSAGE" false)).
Proof.
  intros Hnn Hex. induction messages as [|msg rest IH]; [inversion Hex|].
  inversion Hnn as [|? ? Hmsg Hrest]; subst.
  cbn [validate_messages].
  assert (Hr : get (Some msg) (lit "role") = inr (get_opt (Some msg) (lit "role")))
    by (destruct msg; try reflexivity; contradiction).
  assert (Hc : get (Some msg) (lit "content") = inr (get_opt (Some msg) (lit "content")))
    by (destruct msg; try reflexivity; contradiction).
  rewrite Hr, Hc. cbn [bind].
  destruct (negb (truthy (get_opt (Some msg) (lit "role")))
            || negb (truthy (get_opt (Some msg) (lit "content")))
            || negb (is_string (get_opt (Some msg) (lit "content")))) eqn:E;
    [reflexivity|].
  apply IH; [assumption|].
  inversion Hex as [? ? Hbad|]; subst; [|assumption].
  exfalso. apply orb_false_iff in E as [E E3].
  apply orb_false_iff in E as [E1 E2].
  apply negb_false_iff in E1, E2, E3.
  destruct Hbad as [H|[H|H]]; congruence.
Qed.

Lemma invalid_message_rejected body messages :
  get (Some body) (lit "messages") = inr (Some (JArr messages)) ->
  Forall (fun msg => msg <> JNull) messages ->
  Exists invalid_message messages ->
  handler (inr body)
  = {| answer := failure 400 "Invalid request"
   "Each message must have role and content"
   "INVALID_MESSAGE" false;
       llm_calls := [] |}.
Proof.
  intros Hm Hnn Hex. unfold POST, POST_try.
  now rewrite Hm, (validate_messages_invalid Hnn Hex).
Qed.

(** C9, at the request [{"messages":[null,{"role":"user"}]}], whose
    second message has no content: reading [role] of the [null] entry
    throws before any check, the outer [catch] answers with status 500
    and code [INTERNAL_ERROR], [retryable = true]; no gateway call is
    made. *)
Theorem null_message_is_internal_error :
  handler (inr (JObj [(lit "messages",
                       JArr [JNull; JObj [(lit "role", JStr (lit "user"))]])]))
  = {| answer := failure 500 "Internal server error"
                   "An unexpected error occurred. Please try again."
                   "INTERNAL_ERROR" true;
       llm_calls := [] |}.
Proof. vm_compute. reflexivity. Qed.

End Handler.

(** Scenario D of the specification: a refusal in prose during the
    recommending phase. *)
Definition refusal : ChatResponse :=
  {| chat_content := Some (JStr (lit "Sorry, I cannot help with that."));
     usage := (None, None, None) |}.

Definition refusing_chat (_ : list json) (_ : ChatOptions) : M ChatResponse :=
  inr refusal.

Definition ready_messages : list json :=
  [JObj [(lit "role", JStr (lit "user"));
         (lit "content",
          JStr (lit "I want to visit Japan in March with a budget of $3000"))]].

Definition ready_request : json := JObj [(lit "messages", JArr ready_messages)].

Lemma invalid_completion_is_retryable_failure_witness :
  POST toLowerCase_ascii (fun _ _ => []) (fun _ => []) [] 0
       refusing_chat (inr ready_request)
  = {| answer :=
         {| http_status := 500;
            http_body :=
              Failure {| error := lit "Invalid response format";
                         message := lit "Invalid JSON response from AI";
                         code := lit "VALIDATION_ERROR";
                         retryable := true |} |};
       llm_calls := [(systemMessage 0 [] :: ready_messages,
                      recommendation_options)] |}.
Proof.
  apply (@invalid_completion_is_retryable_failure
           toLowerCase_ascii (fun _ _ => []) (fun _ => []) [] 0 refusing_chat
           ready_request ready_messages refusal
           (Error (lit "Invalid JSON response from AI"))).
  - reflexivity.
  - reflexivity.
  - vm_compute. reflexivity.
  - reflexivity.
  - vm_compute. reflexivity.
Defined.

End HandlerFacts.

(* ================================================================== *)
(** * The gateway's error responses *)
(* ================================================================== *)

Module GatewayFacts.

(** The classification in the words of the specification. *)
Inductive ErrorClass : Type :=
| AuthError | RateLimitError | UpstreamError | RequestError.

Definition spec_class (st : Z) : option ErrorClass :=
  if (st =? 401)%Z then Some AuthError
  else if (st =? 429)%Z then Some RateLimitError
  else if (500 <=? st)%Z && (st <=? 599)%Z then Some UpstreamError
  else if (400 <=? st)%Z && (st <=? 499)%Z then Some RequestError
  else None.

Definition spec_retryable (c : ErrorClass) : bool :=
  match c with
  | AuthError | RequestError => false
  | RateLimitError | UpstreamError => true
  end.

(** The flag the conversation handler attaches to a thrown error. *)
Definition surfaced_retryable (e : exn) : option bool :=
  match Assistant.http_body (Assistant.on_error e) with
  | Assistant.Failure r => Some (retryable r)
  | _ => None
  end.

Definition error_reply (st : Z) (text : string) (body : string) : Reply :=
  {| status := st; statusText := lit text;
     json_body := match JSON_parse (json_text body) with
                  | Some v => inr v
                  | None => inl (SyntaxError [])
                  end |}.

Section WithRuntime.

Variable number_to_string : Z -> Z -> jsstring.

Definition errorMessage_of (errorData : json) : jsstring :=
  display number_to_string
    (or_else (or_else (get_opt (get_opt (Some errorData) (lit "error"))
             (lit "message"))
                      (get_opt (Some errorData) (lit "message")))
             (Some (JStr (lit "Unknown error")))).

Definition errorCode_of (errorData : json) (st : Z) : jsstring :=
  display number_to_string
    (or_else (get_opt (get_opt (Some errorData) (lit "error")) (lit "code"))
             (Some (JStr (string_of_Z st)))).

Lemma get_non_null v p : v <> JNull -> get (Some v) p = inr (get_opt (Some v) p).
Proof. destruct v; try reflexivity. contradiction. Qed.

(** C8 (amended): for a non-OK response whose body is a JSON value
    other than [null], the error thrown is chosen by the status: 401
    gives the API-key error, which the conversation handler reports as
    [CONFIG_ERROR], not retryable; 429 gives the rate-limit error,
    reported as [RATE_LIMIT], retryable; 400 gives the bad-request
    error; 500, 502 and 503 give the service error; every other status
    gives the generic API error with the code.  [chat] throws that
    error. *)
Theorem error_response_by_status (response : Reply) (errorData : json) :
  json_body response = inr errorData -> errorData <> JNull ->
  let thrown := handleErrorResponse number_to_string response in
  let st := status response in
  let m := errorMessage_of errorData in
  (st = 401%Z ->
   thrown = Error (lit "Invalid OpenRouter API key. Please check your OPENROUTER_API_KEY environment variable.") /\
   Assistant.on_error thrown
   = Assistant.failure 500 "Configuration error"
       "The service is not properly configured. Please contact support."
       "CONFIG_ERROR" false) /\
  (st = 429%Z ->
   thrown = Error (lit "Rate limit exceeded. Please try again later.") /\
   Assistant.on_error thrown
   = Assistant.failure 429 "Rate limit exceeded"
       "Too many requests. Please wait a moment and try again."
       "RATE_LIMIT" true) /\
  (st = 400%Z -> thrown = Error (lit "Bad request: " ++ m)) /\
  (st = 500%Z \/ st = 502%Z \/ st = 503%Z ->
   thrown = Error (lit "OpenRouter service error: " ++ m
                   ++ lit ". Please try again.")) /\
  (st <> 401%Z -> st <> 429%Z -> st <> 400%Z ->
   st <> 500%Z -> st <> 502%Z -> st <> 503%Z ->
   thrown = Error (lit "OpenRouter API error (" ++ errorCode_of errorData st
                   ++ lit "): " ++ m)) /\
  (ok response = false ->
   forall fetch messages options body,
     requestBody messages options = inr body ->
     fetch body = inr response ->
     chat number_to_string fetch messages options = inl thrown).
Proof.
  intros Hbody Hnn. cbv zeta.
  unfold handleErrorResponse, errorMessage_of, errorCode_of.
  rewrite Hbody, (get_non_null _ Hnn).
  split; [intros H; rewrite H; split; [reflexivity|vm_compute; reflexivity]|].
  split; [intros H; rewrite H; split; [reflexivity|vm_compute; reflexivity]|].
  split; [intros H; rewrite H; reflexivity|].
  split; [intros [H|[H|H]]; rewrite H; reflexivity|].
  split.
  - intros N1 N2 N3 N4 N5 N6.
    apply Z.eqb_neq in N1, N2, N3, N4, N5, N6.
    now rewrite N1, N2, N3, N4, N5, N6.
  - intros Hok fetch messages options body Hb Hf.
    unfold chat. rewrite Hb. cbn [bind]. rewrite Hf. cbn [bind].
    rewrite Hok. cbn [negb throw]. unfold handleErrorResponse.
    now rewrite Hbody, (get_non_null _ Hnn).
Qed.

End WithRuntime.

Lemma error_response_by_status_witness :
  handleErrorResponse (fun _ _ => [])
    (error_reply 429 "Too Many Requests" "{'error':{'message':'slow down'}}")
  = Error (lit "Rate limit exceeded. Please try again later.").
Proof.
  refine (proj1 (proj1 (proj2 (@error_response_by_status (fun _ _ => [])
            (error_reply 429 "Too Many Requests" "{'error':{'message':'slow down'}}")
            (JObj [(lit "error", JObj [(lit "message", JStr (lit "slow down"))])])
            _ _)) _)).
  - vm_compute. reflexivity.
  - discriminate.
  - reflexivity.
Defined.

(** C8 as stated fails: status 400 is in the class the specification
    calls not retryable, yet the handler surfaces the gateway's error
    for it as retryable; status 504 is a 5xx status, yet the gateway
    throws the generic API error for it, the one of an unlisted status
    such as 404, and not the service error it throws for 503. *)
Lemma unlisted_statuses_not_classified :
  let nts : Z -> Z -> jsstring := fun _ _ => [] in
  let body := "{'error':{'message':'upstream timed out'}}" in
  let r400 := error_reply 400 "Bad Request" body in
  let r504 := error_reply 504 "Gateway Timeout" body in
  (ok r400 = false /\
   option_map spec_retryable (spec_class 400) = Some false /\
   surfaced_retryable (handleErrorResponse nts r400) = Some true) /\
  (ok r504 = false /\ spec_class 504 = Some UpstreamError /\
   handleErrorResponse nts r504
   = Error (lit "OpenRouter API error (504): upstream timed out") /\
   handleErrorResponse nts (error_reply 404 "Not Found" body)
   = Error (lit "OpenRouter API error (404): upstream timed out") /\
   handleErrorResponse nts (error_reply 503 "Service Unavailable" body)
   = Error (lit "OpenRouter service error: upstream timed out. Please try again.")).
Proof. vm_compute. repeat split. Qed.

End GatewayFacts.

(* ================================================================== *)
(** * The geographic handler *)
(* ================================================================== *)

Module MapFacts.
Import MapRoute.

Definition has_id (plan : json) : Prop :=
  truthy (get_opt (Some plan) (lit "id")) = true.

Section Handler.

Variable now : nat -> Z.

(** The plan returned for a plan other than [null]: its properties,
    with [id] kept when truthy and generated otherwise. *)
Definition backfilled (index : nat) (plan : json) : json :=
  JObj (obj_set (lit "id")
          (if truthy (get_opt (Some plan) (lit "id"))
           then match get_opt (Some plan) (lit "id") with
                | Some v => v
                | None => JNull
                end
           else JStr (generated_id now index))
          (spread plan)).

Fixpoint backfill_all (plans : list json) (index : nat) : list json :=
  match plans with
  | [] => []
  | plan :: rest => backfilled index plan :: backfill_all rest (S index)
  end.

Lemma with_id_non_null plan index :
  plan <> JNull -> with_id now plan index = inr (backfilled index plan).
Proof.
  intros Hnn. unfold with_id, backfilled, or_else.
  destruct plan; try contradiction; cbn [get bind ret get_opt];
    try reflexivity.
  now destruct (truthy (lookup (lit "id") o)).
Qed.

Lemma with_id_inr plan index p :
  with_id now plan index = inr p -> plan <> JNull /\ p = backfilled index plan.
Proof.
  destruct plan; [discriminate|..];
    (intros H; split; [discriminate|];
     rewrite with_id_non_null in H by discriminate; now injection H).
Qed.

Lemma map_plans_non_null plans : forall index,
  Forall (fun plan => plan <> JNull) plans ->
  map_plans now plans index = inr (backfill_all plans index).
Proof.
  induction plans as [|plan rest IH]; intros index Hnn; [reflexivity|].
  inversion Hnn; subst. cbn [map_plans backfill_all].
  rewrite with_id_non_null by assumption. cbn [bind].
  now rewrite IH.
Qed.

Lemma map_plans_inr plans : forall index l',
  map_plans now plans index = inr l' ->
  Forall (fun plan => plan <> JNull) plans /\ l' = backfill_all plans index.
Proof.
  induction plans as [|plan rest IH]; intros index l'; cbn [map_plans bind ret].
  - intros [= <-]. split; [constructor|reflexivity].
  - destruct (with_id now plan index) as [e|p] eqn:Hp; [discriminate|].
    apply with_id_inr in Hp as [Hnn ->]. cbn [bind].
    destruct (map_plans now rest (S index)) as [e|ps] eqn:Hr; [discriminate|].
    apply IH in Hr as [Hrest ->]. intros [= <-].
    split; [now constructor|reflexivity].
Qed.

Lemma generated_id_truthy index :
  truthy (Some (JStr (generated_id now index))) = true.
Proof. reflexivity. Qed.

Lemma backfilled_has_id index plan : has_id (backfilled index plan).
Proof.
  unfold has_id, backfilled.
  remember (get_opt (Some plan) (lit "id")) as id eqn:Hid.
  cbn [get_opt]. rewrite lookup_obj_set_same.
  destruct (truthy id) eqn:E.
  - destruct id; [exact E|discriminate].
  - apply generated_id_truthy.
Qed.

(** A plan object with a truthy id is returned as it is; any other
    plan object differs from the returned one in [id] only. *)
Lemma backfilled_object index o :
  (has_id (JObj o) -> backfilled index (JObj o) = JObj o) /\
  (forall k, str_eqb k (lit "id") = false ->
             get_opt (Some (backfilled index (JObj o))) k = lookup k o).
Proof.
  unfold has_id, backfilled. cbn [get_opt spread]. split.
  - intros H. rewrite H.
    destruct (lookup (lit "id") o) as [v|] eqn:E; [|discriminate].
    now rewrite obj_set_same_value.
  - intros k Hk. now apply lookup_obj_set_other.
Qed.

Lemma length_backfill_all plans : forall index,
  List.length (backfill_all plans index) = List.length plans.
Proof.
  induction plans; intros index; cbn; [reflexivity|]. now rewrite IHplans.
Qed.

Lemma nth_error_backfill_all plans : forall index j plan,
  nth_error plans j = Some plan ->
  nth_error (backfill_all plans index) j = Some (backfilled (index + j) plan).
Proof.
  induction plans as [|p rest IH]; intros index [|j] plan; cbn;
    try discriminate.
  - intros [= ->]. now rewrite Nat.add_0_r.
  - intros H. rewrite Nat.add_succ_r. now apply (IH (S index)).
Qed.

(** Nothing parseable in the completion. *)
Lemma unparseable_completion response_content :
  parse_completion response_content = None ->
  respond now response_content
  = inr {| http_status := 500;
           http_body := MapError (lit "Failed to generate valid recommendations. Please try again.") |}.
Proof. intros H. unfold respond. now rewrite H. Qed.

(** The id of a returned plan is truthy, unless the id of the plan was
    a number that is not finite: then it is [null]. *)
Definition id_as_written (plan p : json) : Prop :=
  has_id p
  \/ exists m e,
       get_opt (Some plan) (lit "id") = Some (JNum m e) /\
       rounds_to_infinity m e = true /\
       get_opt (Some p) (lit "id") = Some JNull.

Lemma backfilled_written index plan :
  id_as_written plan (written (backfilled index plan)) /\
  (truthy (get_opt (Some plan) (lit "id")) = false ->
   get_opt (Some (written (backfilled index plan))) (lit "id")
   = Some (JStr (generated_id now index))).
Proof.
  assert (Hobj : forall o k, get_opt (Some (JObj o)) k = lookup k o) by reflexivity.
  unfold id_as_written, has_id, backfilled.
  rewrite written_object, obj_set_written, !Hobj, lookup_obj_set_same.
  destruct (truthy (get_opt (Some plan) (lit "id"))) eqn:E.
  - split; [|intros H; discriminate H].
    destruct (get_opt (Some plan) (lit "id")) as [v|]; [|discriminate E].
    destruct (written_truthy _ E) as [H|(m & e & -> & Hinf)]; [now left|].
    right. exists m, e. cbn [written]. now rewrite Hinf.
  - split; [now left|reflexivity].
Qed.

(** C10 (amended): when the completion parses to a value whose [plans]
    is an array without [null] entries, whatever its length and
    whatever the fields of its plans, the handler answers 200 with one
    plan per entry, in order, as JSON writes it: the entry's properties
    with [id] kept when truthy and generated otherwise, a number that
    is not finite being written as [null]; so that a plan object comes
    back with its own properties other than [id] as written, and as it
    is when it had a truthy id and all its numbers are finite; and with
    the summary, replaced by the default text when missing or falsy.
    When nothing parses, and when the parsed value is not [null] and
    its [plans] is not an array, the answer is an error with status
    500. *)
Theorem lenient_acceptance (response_content : value) :
  (parse_completion response_content = None ->
   respond now response_content
   = inr {| http_status := 500;
            http_body := MapError (lit "Failed to generate valid recommendations. Please try again.") |}) /\
  (forall parsed,
     parse_completion response_content = Some parsed ->
     (forall l,
        get_opt (Some parsed) (lit "plans") = Some (JArr l) ->
        Forall (fun plan => plan <> JNull) l ->
        respond now response_content
        = inr {| http_status := 200;
                 http_body :=
                   MapResult (map written (backfill_all l 0))
                     (written_value
                        (or_else (get_opt (Some parsed) (lit "summary"))
                                 (Some (JStr default_summary)))) |} /\
        List.length (map written (backfill_all l 0)) = List.length l /\
        (truthy (get_opt (Some parsed) (lit "summary")) = false ->
         written_value (or_else (get_opt (Some parsed) (lit "summary"))
                                (Some (JStr default_summary)))
         = Some (JStr default_summary)) /\
        (forall j o,
           nth_error l j = Some (JObj o) ->
           exists p,
             nth_error (map written (backfill_all l 0)) j = Some p /\
             id_as_written (JObj o) p /\
             (has_id (JObj o) -> p = written (JObj o)) /\
             (has_id (JObj o) -> finite (JObj o) -> p = JObj o) /\
             (forall k, str_eqb k (lit "id") = false ->
                        get_opt (Some p) k = written_value (lookup k o)))) /\
     (parsed <> JNull ->
      isArray (get_opt (Some parsed) (lit "plans")) = false ->
      respond now response_content
      = inr {| http_status := 500;
               http_body := MapError (lit "Invalid response format from AI") |})).
Proof.
  split; [apply unparseable_completion|].
  intros parsed Hparse. unfold respond. rewrite Hparse. split.
  - intros l Hp Hnn.
    assert (Hobj : parsed <> JNull) by (intros ->; discriminate).
    rewrite (GatewayFacts.get_non_null _ Hobj), Hp. cbn [bind].
    rewrite (map_plans_non_null 0 Hnn). cbn [bind].
    split; [reflexivity|]. split; [now rewrite length_map, length_backfill_all|].
    split; [intros Hs; unfold or_else; now rewrite Hs|].
    intros j o Hj. exists (written (backfilled j (JObj o))).
    split; [apply map_nth_error; exact (nth_error_backfill_all _ 0 _ Hj)|].
    split; [apply backfilled_written|].
    destruct (backfilled_object j o) as [Hsame Hother].
    split; [intros Hid; now rewrite (Hsame Hid)|].
    split; [intros Hid Hfin; now rewrite (Hsame Hid)|].
    intros k Hk. rewrite get_opt_written. now rewrite (Hother k Hk).
  - intros Hobj Harr.
    rewrite (GatewayFacts.get_non_null _ Hobj). cbn [bind].
    destruct (get_opt (Some parsed) (lit "plans")) as [[| | | | l |]|];
      try discriminate; reflexivity.
Qed.

(** Once the request has passed its check and the gateway has answered,
    the handler's answer is that of [respond], a throw being answered by
    the outer [catch]. *)
Lemma POST_after_completion prompts chat body coordinates ps response t :
  destructure_first body "coordinates" = inr coordinates ->
  truthy coordinates = true ->
  is_number (get_opt coordinates (lit "lat")) = true ->
  is_number (get_opt coordinates (lit "lng")) = true ->
  prompts body = inr ps ->
  chat [prompt_message "system" (fst ps) t; prompt_message "user" (snd ps) t]
       {| temperature := JNum 7 (-1); maxTokens := 2000;
          responseFormat := None |} = inr response ->
  POST now prompts chat (inr body) t
  = match respond now (chat_content response) with
    | inr answer => answer
    | inl e => {| http_status := 500; http_body := MapError (message_of e) |}
    end.
Proof.
  intros Hc Ht Hlat Hlng Hps Hchat. unfold POST, POST_try. cbn [bind].
  rewrite Hc. cbn [bind]. rewrite Ht, Hlat, Hlng. cbn [negb orb].
  rewrite Hps. cbn [bind]. now rewrite Hchat.
Qed.

End Handler.

Definition at_noon (_ : nat) : Z := 1700000000000.

Lemma lenient_acceptance_witness :
  respond at_noon
    (Some (JStr (json_text "Sure! {'plans':[{'id':'a'},{},{},{},{'country':7}]} Enjoy")))
  = inr {| http_status := 200;
           http_body :=
             MapResult
               [JObj [(lit "id", JStr (lit "a"))];
                JObj [(lit "id", JStr (lit "map-plan-1700000000000-1"))];
                JObj [(lit "id", JStr (lit "map-plan-1700000000000-2"))];
                JObj [(lit "id", JStr (lit "map-plan-1700000000000-3"))];
                JObj [(lit "country", JNum 7 0);
                      (lit "id", JStr (lit "map-plan-1700000000000-4"))]]
               (Some (JStr default_summary)) |}.
Proof.
  destruct (proj2 (@lenient_acceptance at_noon
    (Some (JStr (json_text "Sure! {'plans':[{'id':'a'},{},{},{},{'country':7}]} Enjoy"))))
    (JObj [(lit "plans",
            JArr [JObj [(lit "id", JStr (lit "a"))]; JObj []; JObj []; JObj [];
                  JObj [(lit "country", JNum 7 0)]])])) as [H _].
  - vm_compute. reflexivity.
  - destruct (H [JObj [(lit "id", JStr (lit "a"))]; JObj []; JObj []; JObj [];
                 JObj [(lit "country", JNum 7 0)]]) as [H1 _].
    + reflexivity.
    + repeat constructor; discriminate.
    + rewrite H1. vm_compute. reflexivity.
Defined.

(** A request of the map for a place without attractions or cities
    nearby, from which the prompts can be built. *)
Definition vancouver_request : json :=
  JObj [(lit "coordinates",
         JObj [(lit "lat", JNum 49 0); (lit "lng", JNum (-123) 0)]);
        (lit "locationName", JStr (lit "Vancouver"))].

Definition completing (content : string) (_ : list json) (_ : ChatOptions)
  : M ChatResponse :=
  inr {| chat_content := Some (JStr (json_text content));
         usage := (None, None, None) |}.

(** C10 as stated fails: the completion [{"plans":[null]}] parses and
    its [plans] is an array, yet reading [id] of the [null] entry throws
    and the handler answers with status 500, whatever prompts were
    built; an entry that is a string is not returned as it was, but as
    the object of its characters, with an id; and a plan whose [id] is
    [1e999] is returned with [id] being [null]. *)
Lemma entries_other_than_objects :
  (exists parsed,
     parse_completion (Some (JStr (json_text "{'plans':[null]}"))) = Some parsed /\
     get_opt (Some parsed) (lit "plans") = Some (JArr [JNull]) /\
     forall prompts ps t,
       prompts vancouver_request = inr ps ->
       POST at_noon prompts (completing "{'plans':[null]}") (inr vancouver_request) t
       = {| http_status := 500;
            http_body := MapError (lit "Cannot read properties of null (reading 'id')") |}) /\
  respond at_noon (Some (JStr (json_text "{'plans':['ab']}")))
  = inr {| http_status := 200;
           http_body :=
             MapResult
               [JObj [(lit "0", JStr (lit "a")); (lit "1", JStr (lit "b"));
                      (lit "id", JStr (lit "map-plan-1700000000000-0"))]]
               (Some (JStr default_summary)) |} /\
  respond at_noon (Some (JStr (json_text "{'plans':[{'id':1e999,'country':'Canada'}]}")))
  = inr {| http_status := 200;
           http_body :=
             MapResult
               [JObj [(lit "id", JNull); (lit "country", JStr (lit "Canada"))]]
               (Some (JStr default_summary)) |}.
Proof.
  split; [|split].
  - eexists. split; [vm_compute; reflexivity|].
    split; [vm_compute; reflexivity|].
    intros prompts ps t Hps.
    rewrite (@POST_after_completion at_noon prompts (completing "{'plans':[null]}")
               vancouver_request
               (Some (JObj [(lit "lat", JNum 49 0); (lit "lng", JNum (-123) 0)]))
               ps
               {| chat_content := Some (JStr (json_text "{'plans':[null]}"));
                  usage := (None, None, None) |} t
               eq_refl eq_refl eq_refl eq_refl Hps eq_refl).
    vm_compute. reflexivity.
  - vm_compute. reflexivity.
  - vm_compute. reflexivity.
Qed.

(** ** Recovery of an embedded object *)

(** The longest prefix that ends in a closing brace. *)
Fixpoint longest_closed (s : jsstring) : option jsstring :=
  match s with
  | [] => None
  | c :: s' =>
      match longest_closed s' with
      | Some p => Some (c :: p)
      | None => if N.eqb c 125 then Some [c] else None
      end
  end.

(** From the first opening brace to the last closing brace. *)
Fixpoint brace_span (s : jsstring) : option jsstring :=
  match s with
  | [] => None
  | c :: s' =>
      if N.eqb c 123 then
        match longest_closed s' with
        | Some p => Some (c :: p)
        | None => brace_span s'
        end
      else brace_span s'
  end.

(** The last suffix, scanning from the longest consumption back, on
    which [f] succeeds. *)
Fixpoint last_success {A} (f : jsstring -> option A) (s : jsstring) : option A :=
  match s with
  | [] => f []
  | _ :: s' => first_of (last_success f s') (f s)
  end.

Lemma any_true c : any c = true.
Proof. unfold any. now destruct (space c). Qed.

Lemma star_any_last_success {A} (f : jsstring -> option A) s : forall prev,
  star_loop any (fun _ t => f t) prev s = last_success f s.
Proof.
  induction s as [|c s IH]; intros prev; cbn [star_loop last_success];
    [reflexivity|].
  now rewrite any_true, IH.
Qed.

Lemma firstn_consumed {A} (pre : list A) c rest :
  firstn (List.length (pre ++ c :: rest) - List.length rest) (pre ++ c :: rest)
  = pre ++ [c].
Proof.
  replace (List.length (pre ++ c :: rest) - List.length rest)%nat
    with (List.length (pre ++ [c]) + 0)%nat
    by (rewrite !length_app; cbn; lia).
  replace (pre ++ c :: rest) with ((pre ++ [c]) ++ rest)
    by (now rewrite <- app_assoc).
  rewrite firstn_app_2. cbn. now rewrite app_nil_r.
Qed.

(** The continuation that closes the group of [re_object] opened at the
    start of [s0]. *)
Definition close_group (s0 : jsstring) (t : jsstring) : option (option jsstring) :=
  match strip_prefix (lit "}") t with
  | Some rest => Some (Some (firstn (List.length s0 - List.length rest) s0))
  | None => None
  end.

Lemma last_success_close s : forall pre,
  last_success (close_group (pre ++ s)) s
  = option_map (fun p => Some (pre ++ p)) (longest_closed s).
Proof.
  induction s as [|c s IH]; intros pre; cbn [last_success longest_closed].
  - reflexivity.
  - replace (pre ++ c :: s) with ((pre ++ [c]) ++ s) by (now rewrite <- app_assoc).
    rewrite IH.
    destruct (longest_closed s) as [p|]; cbn [option_map first_of].
    + now rewrite <- app_assoc.
    + unfold close_group. change (lit "}") with [125%N]. cbn [strip_prefix].
      rewrite N.eqb_sym.
      destruct (N.eqb c 125); [|reflexivity].
      cbn [option_map]. rewrite <- app_assoc. cbn [app].
      now rewrite firstn_consumed.
Qed.

Definition whole_capture : cont (option jsstring) := fun cap _ _ => Some cap.

Lemma rmatch_braces prev s :
  rmatch re_braces whole_capture None prev s
  = match s with
    | c :: s' =>
        if N.eqb c 123
        then option_map (fun p => Some (c :: p)) (longest_closed s')
        else None
    | [] => None
    end.
Proof.
  unfold re_braces, re_object. cbn [seq rmatch].
  change (lit "{") with [123%N]. change (lit "}") with [125%N].
  destruct s as [|c s']; cbn [strip_prefix]; [reflexivity|].
  rewrite N.eqb_sym. destruct (N.eqb c 123) eqn:E; [|reflexivity].
  apply N.eqb_eq in E. subst c.
  rewrite (star_any_last_success
             (fun t => match strip_prefix [125%N] t with
                       | Some rest =>
                           whole_capture
                             (Some (firstn (List.length (123%N :: s') - List.length rest)
                                      (123%N :: s')))
                             (List.last (map Some [125%N]) None) rest
                       | None => None
                       end)).
  exact (last_success_close s' [123%N]).
Qed.

Lemma search_braces s : forall prev,
  search re_braces whole_capture prev s = option_map Some (brace_span s).
Proof.
  induction s as [|c s IH]; intros prev; cbn [search brace_span];
    rewrite rmatch_braces; [reflexivity|].
  destruct (N.eqb c 123).
  - destruct (longest_closed s); [reflexivity|]. cbn [option_map first_of]. apply IH.
  - cbn [first_of]. apply IH.
Qed.

(** [/(\{[\s\S]*\})/] captures from the first opening brace to the last
    closing brace. *)
Lemma match1_braces s : match1 re_braces s = brace_span s.
Proof.
  unfold match1. fold whole_capture. rewrite search_braces.
  now destruct (brace_span s).
Qed.

Lemma strip_prefix_starts_with w : forall s,
  starts_with w s = false -> strip_prefix w s = None.
Proof.
  induction w as [|x w IH]; intros [|y s]; cbn; try discriminate; auto.
  destruct (N.eqb x y); cbn; auto.
Qed.

(** Without three backticks in a row the fenced expression matches
    nowhere. *)
Lemma match1_fenced_none s :
  includes s (lit "```") = false -> match1 re_fenced s = None.
Proof.
  unfold match1. fold whole_capture.
  assert (H : forall prev, includes s (lit "```") = false ->
       search re_fenced whole_capture prev s = None).
  { induction s as [|c s IH]; intros prev Hinc; cbn [search];
      cbn [includes] in Hinc; apply orb_false_iff in Hinc as [Hs Hrest];
      unfold re_fenced at 1; cbn [seq rmatch];
      rewrite (strip_prefix_starts_with _ _ Hs); cbn [first_of];
      [reflexivity|now apply IH]. }
  intros Hinc. now rewrite H.
Qed.

Lemma longest_closed_none post :
  Forall (fun c => c <> 125%N) post -> longest_closed post = None.
Proof.
  induction 1 as [|c post Hc _ IH]; cbn; [reflexivity|].
  rewrite IH. apply N.eqb_neq in Hc. now rewrite Hc.
Qed.

Lemma longest_closed_body body post :
  Forall (fun c => c <> 125%N) post ->
  longest_closed (body ++ 125%N :: post) = Some (body ++ [125%N]).
Proof.
  intros Hpost. induction body as [|c body IH]; cbn.
  - now rewrite (longest_closed_none Hpost).
  - now rewrite IH.
Qed.

Lemma brace_span_embedded pre body post :
  Forall (fun c => c <> 123%N) pre -> Forall (fun c => c <> 125%N) post ->
  brace_span (pre ++ 123%N :: body ++ 125%N :: post)
  = Some (123%N :: body ++ [125%N]).
Proof.
  intros Hpre Hpost. induction Hpre as [|c pre Hc _ IH]; cbn.
  - now rewrite (longest_closed_body body Hpost).
  - apply N.eqb_neq in Hc. now rewrite Hc.
Qed.

(** C3 (amended): the validator of the conversation route makes no
    recovery attempt: it throws the parse error exactly when the raw
    text as a whole is not JSON, whatever is embedded in it.  Recovery
    exists in the geographic handler only: in a trimmed completion
    without a code fence it parses the span from the first opening brace
    to the last closing brace (the whole text when there is no such
    span); so an object text between prose without an opening brace
    before it and without a closing brace after it is what is parsed. *)
Theorem recovery_only_in_geographic_handler :
  (forall raw,
     Assistant.validateRecommendationResponse raw = inl ValidatorFacts.parse_error
     <-> JSON_parse raw = None) /\
  (forall raw,
     includes (trim raw) (lit "```") = false ->
     parse_completion (Some (JStr raw))
     = match brace_span (trim raw) with
       | Some span => JSON_parse span
       | None => JSON_parse (trim raw)
       end) /\
  (forall raw pre body post,
     trim raw = pre ++ 123%N :: body ++ 125%N :: post ->
     Forall (fun c => c <> 123%N) pre -> Forall (fun c => c <> 125%N) post ->
     includes (trim raw) (lit "```") = false ->
     parse_completion (Some (JStr raw)) = JSON_parse (123%N :: body ++ [125%N])).
Proof.
  split; [exact ValidatorFacts.validator_parse_error_iff|].
  assert (Hspan : forall raw,
             includes (trim raw) (lit "```") = false ->
             parse_completion (Some (JStr raw))
             = match brace_span (trim raw) with
               | Some span => JSON_parse span
               | None => JSON_parse (trim raw)
               end).
  { intros raw Hfence. unfold parse_completion, jsonMatch.
    now rewrite (match1_fenced_none _ Hfence), match1_braces. }
  split; [exact Hspan|].
  intros raw pre body post Hshape Hpre Hpost Hfence.
  now rewrite (Hspan raw Hfence), Hshape, (brace_span_embedded body Hpre Hpost).
Qed.

Lemma recovery_only_in_geographic_handler_witness :
  parse_completion
    (Some (JStr (lit "Here you go: " ++ json_text "{'plans':[]}" ++ lit " Enjoy!")))
  = JSON_parse (json_text "{'plans':[]}").
Proof.
  apply (proj2 (proj2 recovery_only_in_geographic_handler)
           (lit "Here you go: " ++ json_text "{'plans':[]}" ++ lit " Enjoy!")
           (lit "Here you go: ") (json_text "'plans':[]") (lit " Enjoy!")).
  - vm_compute. reflexivity.
  - vm_compute. repeat constructor; discriminate.
  - vm_compute. repeat constructor; discriminate.
  - vm_compute. reflexivity.
Defined.

(** C3 as stated fails: a complete payload between a leading and a
    trailing sentence is embedded in the text, and is valid on its own,
    yet the validator throws the parse error on the text. *)
Lemma embedded_payload_rejected :
  let payload := json_text (Samples.payload 2) in
  let raw := lit "Here are my suggestions: " ++ payload ++ lit " Enjoy your trip!" in
  (exists r, Assistant.validateRecommendationResponse payload = inr r) /\
  JSON_parse raw = None /\
  Assistant.validateRecommendationResponse raw = inl (Error (lit "Invalid JSON response from AI")).
Proof.
  cbv zeta. split; [eexists; vm_compute; reflexivity|].
  split; vm_compute; reflexivity.
Qed.

(** The same text is recovered by the geographic handler. *)
Example embedded_payload_recovered :
  parse_completion
    (Some (JStr (lit "Here are my suggestions: " ++ json_text (Samples.payload 2)
                 ++ lit " Enjoy your trip!")))
  = JSON_parse (json_text (Samples.payload 2)).
Proof. vm_compute. reflexivity. Qed.

(** Scenario C of the specification, a fenced payload of four plans: the
    validator throws the parse error; the geographic handler extracts the
    object and returns all four plans. *)
Example scenario_C :
  let raw := lit "```json" ++ [10%N] ++ json_text (Samples.payload 4)
             ++ [10%N] ++ lit "```" in
  Assistant.validateRecommendationResponse raw
  = inl (Error (lit "Invalid JSON response from AI")) /\
  exists plans s,
    respond at_noon (Some (JStr raw))
    = inr {| http_status := 200; http_body := MapResult plans s |} /\
    List.length plans = 4%nat.
Proof.
  cbv zeta. split; [vm_compute; reflexivity|].
  do 2 eexists. split; [vm_compute; reflexivity|reflexivity].
Qed.

(** The span runs to the last closing brace, not to the end of the first
    balanced object: two objects in a row are not recovered. *)
Example two_objects_not_recovered :
  jsonMatch (json_text "{'plans':[]} or {'plans':[]}")
  = Some (json_text "{'plans':[]} or {'plans':[]}") /\
  parse_completion (Some (JStr (json_text "{'plans':[]} or {'plans':[]}"))) = None.
Proof. split; vm_compute; reflexivity. Qed.

(** What an answer with plans comes from. *)
Lemma respond_result now content plans s :
  respond now content
  = inr {| http_status := 200; http_body := MapResult plans s |} ->
  exists parsed l,
    parse_completion content = Some parsed /\
    get_opt (Some parsed) (lit "plans") = Some (JArr l) /\
    plans = map written (backfill_all now l 0).
Proof.
  unfold respond.
  destruct (parse_completion content) as [parsed|]; [|discriminate].
  destruct parsed as [| b | m e | t | a | o]; cbn [get bind ret get_opt];
    try discriminate.
  destruct (lookup (lit "plans") o) as [[| | | | l |]|] eqn:Hp;
    try discriminate.
  destruct (map_plans now l 0) as [e|l'] eqn:Hm; [discriminate|].
  apply map_plans_inr in Hm as [_ ->]. cbn [bind ret].
  intros H. injection H as H _. subst plans.
  now exists (JObj o), l.
Qed.

(** C7 (amended): the validator of the conversation route returns the
    plans as parsed (the first three of them), adding nothing to a plan;
    it is the geographic handler that attaches ids: a plan whose id was
    missing or falsy is answered with the generated
    [map-plan-<time>-<index>], and every plan it answers with has a
    truthy id, except a plan whose own id was a number that is not
    finite, which is truthy for the handler and written as [null]. *)
Theorem ids_attached_by_geographic_handler_only :
  (forall raw r,
     Assistant.validateRecommendationResponse raw = inr r ->
     exists parsed l0,
       JSON_parse raw = Some parsed /\
       ValidatorFacts.plans_of parsed = Some l0 /\
       ValidatorFacts.plans_of r = Some (firstn 3 l0)) /\
  (forall now content plans s,
     respond now content
     = inr {| http_status := 200; http_body := MapResult plans s |} ->
     exists parsed l,
       parse_completion content = Some parsed /\
       get_opt (Some parsed) (lit "plans") = Some (JArr l) /\
       List.length plans = List.length l /\
       forall j plan,
         nth_error l j = Some plan ->
         exists p',
           nth_error plans j = Some p' /\
           id_as_written plan p' /\
           (truthy (get_opt (Some plan) (lit "id")) = false ->
            get_opt (Some p') (lit "id") = Some (JStr (generated_id now j)))).
Proof.
  split.
  - intros raw r H.
    apply ValidatorFacts.validate_inr_shape in H
      as (parsed & l0 & H1 & H2 & _ & H4 & _).
    now exists parsed, l0.
  - intros now content plans s H.
    apply respond_result in H as (parsed & l & Hparse & Hplans & ->).
    exists parsed, l. repeat split; auto.
    + now rewrite length_map, length_backfill_all.
    + intros j plan Hj. exists (written (backfilled now j plan)).
      split; [apply map_nth_error; exact (nth_error_backfill_all now _ 0 _ Hj)|].
      apply backfilled_written.
Qed.

Lemma ids_attached_by_geographic_handler_only_witness :
  exists parsed l,
    parse_completion (Some (JStr (json_text "{'plans':[{'id':'a'},{'id':1e999},{'country':7}]}")))
    = Some parsed /\
    get_opt (Some parsed) (lit "plans") = Some (JArr l) /\
    List.length
      [JObj [(lit "id", JStr (lit "a"))];
       JObj [(lit "id", JNull)];
       JObj [(lit "country", JNum 7 0);
             (lit "id", JStr (lit "map-plan-1700000000000-2"))]]
    = List.length l /\
    forall j plan,
      nth_error l j = Some plan ->
      exists p',
        nth_error
          [JObj [(lit "id", JStr (lit "a"))];
           JObj [(lit "id", JNull)];
           JObj [(lit "country", JNum 7 0);
                 (lit "id", JStr (lit "map-plan-1700000000000-2"))]] j
        = Some p' /\
        id_as_written plan p' /\
        (truthy (get_opt (Some plan) (lit "id")) = false ->
         get_opt (Some p') (lit "id") = Some (JStr (generated_id at_noon j))).
Proof.
  apply (proj2 ids_attached_by_geographic_handler_only at_noon
           (Some (JStr (json_text "{'plans':[{'id':'a'},{'id':1e999},{'country':7}]}")))
           _ (Some (JStr default_summary))).
  vm_compute. reflexivity.
Defined.

(** C7 as stated fails: two complete plans without an id pass
    validation, and the returned plans have no id. *)
Lemma validated_plans_without_id :
  exists r l,
    Assistant.validateRecommendationResponse (json_text (Samples.payload 2)) = inr r /\
    ValidatorFacts.plans_of r = Some l /\ List.length l = 2%nat /\
    Forall (fun plan => get_opt (Some plan) (lit "id") = None) l.
Proof.
  do 2 eexists. split; [vm_compute; reflexivity|].
  split; [vm_compute; reflexivity|]. split; [reflexivity|].
  repeat constructor.
Qed.

End MapFacts.

(* ================================================================== *)
(** * The two phases of the conversation handler *)
(* ================================================================== *)

Module PhaseFacts.
Import Assistant.

(** The status, code and flag of every error body of the handler. *)
Definition failure_kinds : list (Z * jsstring * bool) :=
  [(400%Z, lit "INVALID_REQUEST", false);
   (400%Z, lit "INVALID_MESSAGE", false);
   (500%Z, lit "VALIDATION_ERROR", true);
   (500%Z, lit "CONFIG_ERROR", false);
   (429%Z, lit "RATE_LIMIT", true);
   (503%Z, lit "NETWORK_ERROR", true);
   (500%Z, lit "INTERNAL_ERROR", true)].

Definition gathering_options : ChatOptions :=
  {| temperature := JNum 7 (-1); maxTokens := 300;
     responseFormat := Some text_format |}.

(** A message that passes the check of the handler. *)
Definition valid_message (msg : json) : bool :=
  match msg with
  | JNull => false
  | _ =>
      truthy (get_opt (Some msg) (lit "role"))
      && truthy (get_opt (Some msg) (lit "content"))
      && is_string (get_opt (Some msg) (lit "content"))
  end.

Definition invalid_message_response : HttpResponse :=
  failure 400 "Invalid request" "Each message must have role and content"
    "INVALID_MESSAGE" false.

Lemma on_error_shape e :
  exists er,
    http_body (on_error e) = Failure er /\
    In (http_status (on_error e), code er, retryable er) failure_kinds /\
    http_status (on_error e) <> 400%Z.
Proof.
  unfold on_error.
  destruct (includes (message_of e) (lit "API key"));
    [eexists; split; [reflexivity|split; [cbn; tauto|discriminate]]|].
  destruct (includes (message_of e) (lit "Rate limit"));
    [eexists; split; [reflexivity|split; [cbn; tauto|discriminate]]|].
  destruct (includes (message_of e) (lit "network") || includes (message_of e) (lit "fetch"));
    eexists; (split; [reflexivity|split; [cbn; tauto|discriminate]]).
Qed.

Lemma validate_messages_early messages r :
  validate_messages messages = inr (Some r) -> r = invalid_message_response.
Proof.
  induction messages as [|msg rest IH]; cbn [validate_messages]; [discriminate|].
  destruct (get (Some msg) (lit "role")) as [e|ro]; [discriminate|].
  destruct (get (Some msg) (lit "content")) as [e|c]; [discriminate|].
  cbn [bind]. destruct (negb (truthy ro) || negb (truthy c) || negb (is_string c)).
  - now intros [= <-].
  - exact IH.
Qed.

Lemma validate_messages_valid msg rest :
  valid_message msg = true ->
  validate_messages (msg :: rest) = validate_messages rest.
Proof.
  intros H. cbn [validate_messages].
  destruct msg; try discriminate; cbn [get bind ret]; cbn in H;
    try discriminate.
  apply andb_true_iff in H as [H H3]. apply andb_true_iff in H as [H1 H2].
  now rewrite H1, H2, H3.
Qed.

(** X5: the check of the messages is decided by the first message that
    is not valid: without one the request passes; a [null] there makes
    the read of its [role] throw; any other value there is answered with
    status 400, whatever follows it.  A message is valid when its role
    is truthy (it need not be one of the three roles) and its content is
    a non-empty string. *)
Theorem first_invalid_message_decides (messages : list json) :
  (validate_messages messages = inr None
   <-> forallb valid_message messages = true) /\
  (forall pre msg rest,
     messages = pre ++ msg :: rest ->
     forallb valid_message pre = true -> valid_message msg = false ->
     validate_messages messages
     = match msg with
       | JNull => inl (null_read (lit "null") (lit "role"))
       | _ => inr (Some invalid_message_response)
       end).
Proof.
  assert (Hfirst : forall pre msg rest,
     forallb valid_message pre = true -> valid_message msg = false ->
     validate_messages (pre ++ msg :: rest)
     = match msg with
       | JNull => inl (null_read (lit "null") (lit "role"))
       | _ => inr (Some invalid_message_response)
       end).
  { induction pre as [|p pre IH]; intros msg rest Hpre Hmsg.
    - cbn [app validate_messages].
      destruct msg; try reflexivity; cbn [get bind ret]; cbn in Hmsg;
        try reflexivity.
      destruct (truthy (lookup (lit "role") o)); [|reflexivity].
      destruct (truthy (lookup (lit "content") o)); [|reflexivity].
      cbn in Hmsg. now rewrite Hmsg.
    - cbn [forallb] in Hpre. apply andb_true_iff in Hpre as [Hp Hpre].
      cbn [app]. rewrite validate_messages_valid by exact Hp. now apply IH. }
  split.
  - induction messages as [|msg rest IH]; [now split|].
    cbn [forallb]. destruct (valid_message msg) eqn:Hv.
    + now rewrite validate_messages_valid by exact Hv.
    + split; [|discriminate]. intros H.
      pose proof (Hfirst [] msg rest eq_refl Hv) as H'. cbn [app] in H'.
      rewrite H' in H. now destruct msg.
  - intros pre msg rest ->. apply Hfirst.
Qed.

Section WithCaseMapping.

Variable toLowerCase : jsstring -> jsstring.

Lemma not_ready_missing (messages : list Message) :
  shouldGenerate (shouldGenerateRecommendations toLowerCase messages) = false ->
  missingInfo (shouldGenerateRecommendations toLowerCase messages) <> [].
Proof.
  unfold shouldGenerateRecommendations. cbn [shouldGenerate missingInfo].
  destruct (hasDestination (conversationText toLowerCase messages)),
           (hasBudget (conversationText toLowerCase messages)),
           (hasDates (conversationText toLowerCase messages));
    cbn [push_unless andb orb app]; discriminate.
Qed.

(** X4: in the gathering phase something is always missing, the
    destination or else both the budget and the dates; in the
    recommending phase the destination is never missing and at most one
    of budget and dates is. *)
Theorem missing_info_by_phase (messages : list Message) :
  let a := shouldGenerateRecommendations toLowerCase messages in
  (shouldGenerate a = false ->
   missingInfo a <> [] /\
   (In (lit "destination") (missingInfo a)
    \/ missingInfo a = [lit "budget"; lit "dates"])) /\
  (shouldGenerate a = true ->
   missingInfo a = [] \/ missingInfo a = [lit "budget"]
   \/ missingInfo a = [lit "dates"]).
Proof.
  cbv zeta. unfold shouldGenerateRecommendations.
  cbn [shouldGenerate missingInfo].
  destruct (hasDestination (conversationText toLowerCase messages)),
           (hasBudget (conversationText toLowerCase messages)),
           (hasDates (conversationText toLowerCase messages));
    cbn [push_unless andb orb app]; split; intros H; try discriminate H;
    try (split; [discriminate|]); cbn [In]; tauto.
Qed.

Variable number_to_string : Z -> Z -> jsstring.
Variable getRecommendationPrompt : jsstring.
Variable now : Z.
Variable chat : list json -> ChatOptions -> M ChatResponse.

Local Abbreviation handler :=
  (POST toLowerCase number_to_string Prompts.getInformationGatheringPrompt
        getRecommendationPrompt now chat).

Lemma prompt_names_missing missingInfo x :
  In x missingInfo ->
  includes (Prompts.getInformationGatheringPrompt missingInfo) x = true.
Proof.
  intros Hin. unfold Prompts.getInformationGatheringPrompt.
  repeat match goal with
         | |- includes (join _ _ ++ _) _ = true => fail 1
         | |- includes (_ ++ _) _ = true => apply StringFacts.includes_app_r
         end.
  apply StringFacts.includes_app_l. now apply StringFacts.includes_join.
Qed.

(** X3: in the gathering phase (the request passed its checks and the
    analysis is not ready) the handler makes one gateway call, asking
    for at most 300 tokens of plain text, with the request's messages
    after a system message whose prompt names every missing category,
    of which there is at least one; it answers with status 200 and the
    completion as the message, as JSON writes it, without looking into
    it. *)
Theorem gathering_phase_reply body messages response :
  let a := shouldGenerateRecommendations toLowerCase (map as_Message messages) in
  let prompt := Prompts.getInformationGatheringPrompt (missingInfo a) in
  get (Some body) (lit "messages") = inr (Some (JArr messages)) ->
  validate_messages messages = inr None ->
  shouldGenerate a = false ->
  chat (systemMessage now prompt :: messages) gathering_options = inr response ->
  handler (inr body)
  = {| answer := {| http_status := 200;
                    http_body := TextReply (written_value (chat_content response)) |};
       llm_calls := [(systemMessage now prompt :: messages, gathering_options)] |}
  /\ missingInfo a <> []
  /\ forall x, In x (missingInfo a) -> includes prompt x = true.
Proof.
  cbv zeta. intros Hm Hv Hphase Hchat. split; [|split].
  - unfold POST, POST_try. rewrite Hm, Hv, Hphase.
    cbn [fst snd]. fold gathering_options. rewrite Hchat. reflexivity.
  - now apply not_ready_missing.
  - intros x. apply prompt_names_missing.
Qed.

End WithCaseMapping.

Section Handler.

Variable toLowerCase : jsstring -> jsstring.
Variable number_to_string : Z -> Z -> jsstring.
Variable getInformationGatheringPrompt : list jsstring -> jsstring.
Variable getRecommendationPrompt : jsstring.
Variable now : Z.
Variable chat : list json -> ChatOptions -> M ChatResponse.

Local Abbreviation handler :=
  (POST toLowerCase number_to_string getInformationGatheringPrompt
        getRecommendationPrompt now chat).

(** X1: whatever the request and whatever the gateway does, the handler
    makes at most one gateway call, whose messages are the request's
    messages after one system message, and its answer is either a
    reply with status 200, after exactly one call, or an error body
    whose status, code and flag are one of seven combinations; an error
    is not retryable only with status 400 or code [CONFIG_ERROR], and a
    status 400 is answered without any call. *)
Theorem answer_shape (request : M json) :
  let run := handler request in
  (forall call,
     In call (llm_calls run) ->
     llm_calls run = [call] /\
     exists body messages prompt,
       request = inr body /\
       get (Some body) (lit "messages") = inr (Some (JArr messages)) /\
       fst call = systemMessage now prompt :: messages) /\
  match http_body (answer run) with
  | Failure e =>
      In (http_status (answer run), code e, retryable e) failure_kinds /\
      (http_status (answer run) = 400%Z -> llm_calls run = [])
  | TextReply _ | PlansReply _ _ =>
      http_status (answer run) = 200%Z /\ List.length (llm_calls run) = 1%nat
  end.
Proof.
  cbv zeta. unfold POST, POST_try.
  assert (Hthrown : forall e,
    match http_body (on_error e) with
    | Failure er =>
        In (http_status (on_error e), code er, retryable er) failure_kinds /\
        (http_status (on_error e) = 400%Z -> @nil (list json * ChatOptions) = [])
    | _ => http_status (on_error e) = 200%Z /\ 0%nat = 1%nat
    end).
  { intros e. destruct (on_error_shape e) as (er & -> & Hin & _). now split. }
  destruct request as [e|body]; [split; [intros ? []|apply Hthrown]|].
  destruct (get (Some body) (lit "messages")) as [e|v] eqn:Hm;
    [split; [intros ? []|apply Hthrown]|].
  assert (Hreq : forall A (calls : list A),
    calls = [] ->
    In (400%Z, lit "INVALID_REQUEST", false) failure_kinds /\
    (400%Z = 400%Z -> calls = [])) by (intros; split; [cbn; tauto|auto]).
  destruct v as [[| | | | messages |]|];
    try (split; [intros ? []|now apply Hreq]).
  destruct (validate_messages messages) as [e|[early|]] eqn:Hv.
  - split; [intros ? []|apply Hthrown].
  - apply validate_messages_early in Hv. subst early.
    split; [intros ? []|]. split; [cbn; tauto|reflexivity].
  - destruct (shouldGenerate _); cbn [fst snd];
      (split;
       [intros call [<-|[]]; split; [reflexivity|];
        eexists body, messages, _; repeat split;
        first [exact Hm|reflexivity]|]);
      match goal with
      | |- context [chat ?ms ?opts] => destruct (chat ms opts) as [e|response]
      end; cbn [bind ret answer llm_calls].
    + destruct (on_error_shape e) as (er & -> & Hin & Hne). now split.
    + destruct (validateRecommendationResponse _); cbn [http_body http_status].
      * split; [cbn; tauto|discriminate].
      * now split.
    + destruct (on_error_shape e) as (er & -> & Hin & Hne). now split.
    + now split.
Qed.

(** X2: whenever the handler answers with plans, the status is 200,
    the plans are an array of one to three entries, namely what JSON
    writes of plans that each passed the plan check (a number that is
    not finite passes as a number and is written as [null]; plans whose
    numbers are all finite are answered as they passed), the summary is
    a non-empty string, and the one gateway call asked for JSON with the
    recommendation prompt. *)
Theorem plans_reply_shape (request : M json) (travelPlans summary : value) :
  http_body (answer (handler request)) = PlansReply travelPlans summary ->
  http_status (answer (handler request)) = 200%Z /\
  (exists l, travelPlans = Some (JArr (map written l)) /\
             (1 <= List.length (map written l) <= 3)%nat /\
             forEach check_plan l 0 = inr tt /\
             (Forall finite l -> map written l = l)) /\
  (exists s, summary = Some (JStr s) /\ s <> []) /\
  (exists messages,
     llm_calls (handler request)
     = [(systemMessage now getRecommendationPrompt :: messages,
         HandlerFacts.recommendation_options)]).
Proof.
  unfold POST, POST_try.
  assert (Hthrown : forall e, http_body (on_error e) <> PlansReply travelPlans summary).
  { intros e. destruct (on_error_shape e) as (er & -> & _). discriminate. }
  destruct request as [e|body]; [intros H; now apply Hthrown in H|].
  destruct (get (Some body) (lit "messages")) as [e|v];
    [intros H; now apply Hthrown in H|].
  destruct v as [[| | | | messages |]|]; try discriminate.
  destruct (validate_messages messages) as [e|[early|]] eqn:Hv.
  - intros H; now apply Hthrown in H.
  - apply validate_messages_early in Hv. subst early. discriminate.
  - destruct (shouldGenerate _); cbn [fst snd];
      match goal with
      | |- context [chat ?ms ?opts] => destruct (chat ms opts) as [e|response]
      end; cbn [bind ret answer llm_calls];
      try (intros H; now apply Hthrown in H); try discriminate.
    destruct (validateRecommendationResponse _) as [e|r] eqn:Hr;
      cbn [http_body http_status]; [discriminate|].
    unfold validateRecommendationResponse in Hr.
    destruct (JSON_parse _) as [parsed|]; [|discriminate].
    apply ValidatorFacts.validate_parsed_inr in Hr
      as (o & s & l & -> & Hs & Hne & Hp & Hl & Hchk & ->).
    assert (Hplans : get_opt (Some (ValidatorFacts.truncated o l)) (lit "plans")
                     = Some (JArr (firstn 3 l))).
    { pose proof (ValidatorFacts.plans_of_truncated _ Hp) as Hplans.
      unfold ValidatorFacts.plans_of in Hplans.
      destruct (get_opt (Some (ValidatorFacts.truncated o l)) (lit "plans"))
        as [[| | | | l' |]|]; try discriminate.
      now injection Hplans as ->. }
    assert (Hsum : get_opt (Some (ValidatorFacts.truncated o l)) (lit "summary")
                   = Some (JStr s)).
    { unfold ValidatorFacts.truncated.
      destruct (3 <? List.length l)%nat; cbn [get_opt]; [|exact Hs].
      rewrite lookup_obj_set_other by reflexivity. exact Hs. }
    rewrite Hplans, Hsum. cbn [written_value option_map written].
    intros H. injection H as <- <-.
    split; [reflexivity|]. split; [|split].
    + exists (firstn 3 l). split; [reflexivity|]. split; [|split; [exact Hchk|]].
      * rewrite length_map, length_firstn. destruct l as [|p l]; [contradiction|].
        cbn [List.length]. lia.
      * intros Hfin. rewrite <- (map_id (firstn 3 l)) at 2.
        apply map_ext_in. intros x Hx. rewrite Forall_forall in Hfin.
        now apply Hfin.
    + now exists s.
    + now exists messages.
Qed.

(** X20: when the gateway call of a request that passed its checks
    throws, in either phase, the handler answers with the error body
    that the outer [catch] chooses from the message of the error, and
    that one call is the only one made. *)
Theorem gateway_failure_is_classified body messages e :
  let a := shouldGenerateRecommendations toLowerCase (map as_Message messages) in
  let call :=
    if shouldGenerate a
    then (systemMessage now getRecommendationPrompt :: messages,
          HandlerFacts.recommendation_options)
    else (systemMessage now (getInformationGatheringPrompt (missingInfo a))
            :: messages,
          gathering_options) in
  get (Some body) (lit "messages") = inr (Some (JArr messages)) ->
  validate_messages messages = inr None ->
  chat (fst call) (snd call) = inl e ->
  handler (inr body) = {| answer := on_error e; llm_calls := [call] |}.
Proof.
  cbv zeta. intros Hm Hv. unfold POST, POST_try. rewrite Hm, Hv.
  destruct (shouldGenerate _); cbn [fst snd];
    fold HandlerFacts.recommendation_options; fold gathering_options;
    intros Hchat; now rewrite Hchat.
Qed.

End Handler.

(** X6: what the structural validation returns passes it again
    unchanged: a validated recommendation set is a fixed point. *)
Theorem validation_idempotent (parsed r : json) :
  validate_parsed parsed = inr r -> validate_parsed r = inr r.
Proof.
  intros H. apply ValidatorFacts.validate_parsed_inr in H
    as (o & s & l & -> & Hs & Hne & Hp & Hl & Hchk & ->).
  assert (Hlen : (3 <? List.length (firstn 3 l))%nat = false).
  { apply Nat.ltb_ge. rewrite length_firstn. lia. }
  rewrite (@ValidatorFacts.validate_parsed_plans
             (ValidatorFacts.truncated o l) (firstn 3 l)).
  - rewrite Hlen, (ValidatorFacts.firstn_short _ Hlen), Hchk. reflexivity.
  - exists s. split; [|exact Hne]. unfold ValidatorFacts.truncated.
    destruct (3 <? List.length l)%nat; cbn [get_opt]; [|exact Hs].
    rewrite lookup_obj_set_other by reflexivity. exact Hs.
  - now apply ValidatorFacts.plans_of_truncated.
  - destruct l; [contradiction|discriminate].
Qed.

(** A conversation that is not ready, and one that is, with a gateway
    that asks back and one that sends four plans. *)
Definition gathering_messages : list json :=
  [JObj [(lit "role", JStr (lit "user"));
         (lit "content", JStr (lit "I want to visit Japan"))]].

Definition asking_back : ChatResponse :=
  {| chat_content := Some (JStr (lit "When would you like to go?"));
     usage := (None, None, None) |}.

Definition four_plans : json :=
  match JSON_parse (json_text (Samples.payload 4)) with
  | Some v => v
  | None => JNull
  end.

Definition first_three : json :=
  match validate_parsed four_plans with
  | inr r => r
  | inl _ => JNull
  end.

Definition planning_run : Run :=
  POST toLowerCase_ascii (fun _ _ => []) (fun _ => []) [] 0
    (fun _ _ => inr {| chat_content := Some (JStr (json_text (Samples.payload 4)));
                       usage := (None, None, None) |})
    (inr HandlerFacts.ready_request).

(** An estimate too large for a double passes the plan check as a
    number and is answered as [null]. *)
Example overflowing_estimate_written_as_null :
  http_body (answer
    (POST toLowerCase_ascii (fun _ _ => []) (fun _ => []) [] 0
       (fun _ _ =>
          inr {| chat_content :=
                   Some (JStr (json_text "{'summary':'Ideas','plans':[{'destination':'Grouse Mountain','country':'Canada','duration':{'startDate':'2025-07-01','endDate':'2025-07-01'},'budget':{'estimated':1e999},'highlights':['Views'],'activities':['Gondola']}]}"));
                 usage := (None, None, None) |})
       (inr HandlerFacts.ready_request)))
  = PlansReply
      (Some (JArr [JObj [(lit "destination", JStr (lit "Grouse Mountain"));
                         (lit "country", JStr (lit "Canada"));
                         (lit "duration",
                          JObj [(lit "startDate", JStr (lit "2025-07-01"));
                                (lit "endDate", JStr (lit "2025-07-01"))]);
                         (lit "budget", JObj [(lit "estimated", JNull)]);
                         (lit "highlights", JArr [JStr (lit "Views")]);
                         (lit "activities", JArr [JStr (lit "Gondola")])]]))
      (Some (JStr (lit "Ideas"))).
Proof. vm_compute. reflexivity. Qed.

Lemma gathering_phase_reply_witness :
  POST toLowerCase_ascii (fun _ _ => []) Prompts.getInformationGatheringPrompt
       [] 0 (fun _ _ => inr asking_back)
       (inr (JObj [(lit "messages", JArr gathering_messages)]))
  = {| answer := {| http_status := 200;
                    http_body := TextReply (written_value (chat_content asking_back)) |};
       llm_calls :=
         [(systemMessage 0
             (Prompts.getInformationGatheringPrompt [lit "budget"; lit "dates"])
             :: gathering_messages,
           gathering_options)] |}.
Proof.
  destruct (@gathering_phase_reply toLowerCase_ascii (fun _ _ => []) [] 0
              (fun _ _ => inr asking_back)
              (JObj [(lit "messages", JArr gathering_messages)])
              gathering_messages asking_back) as [H _].
  - reflexivity.
  - reflexivity.
  - vm_compute. reflexivity.
  - reflexivity.
  - rewrite H. vm_compute. reflexivity.
Defined.

Lemma plans_reply_shape_witness :
  http_status (answer planning_run) = 200%Z /\
  (exists l, get_opt (Some first_three) (lit "plans") = Some (JArr (map written l)) /\
             (1 <= List.length (map written l) <= 3)%nat /\
             forEach check_plan l 0 = inr tt /\
             (Forall finite l -> map written l = l)) /\
  (exists s, Some (JStr (lit "Ideas")) = Some (JStr s) /\ s <> []) /\
  (exists messages,
     llm_calls planning_run
     = [(systemMessage 0 [] :: messages, HandlerFacts.recommendation_options)]).
Proof.
  apply (@plans_reply_shape toLowerCase_ascii (fun _ _ => []) (fun _ => []) [] 0
           (fun _ _ => inr {| chat_content := Some (JStr (json_text (Samples.payload 4)));
                              usage := (None, None, None) |})
           (inr HandlerFacts.ready_request)
           (get_opt (Some first_three) (lit "plans"))
           (Some (JStr (lit "Ideas")))).
  vm_compute. reflexivity.
Defined.

(** The gateway itself, over a provider that answers 503 or 429. *)
Definition failing_gateway (st : Z) (text : string)
  : list json -> ChatOptions -> M ChatResponse :=
  chat (fun _ _ => [])
    (fun _ => inr (GatewayFacts.error_reply st text "{'error':{'message':'overloaded'}}")).

Lemma gateway_failure_is_classified_witness :
  POST toLowerCase_ascii (fun _ _ => []) (fun _ => []) [] 0
       (failing_gateway 503 "Service Unavailable")
       (inr (JObj [(lit "messages", JArr gathering_messages)]))
  = {| answer := failure 500 "Internal server error"
                   "An unexpected error occurred. Please try again."
                   "INTERNAL_ERROR" true;
       llm_calls := [(systemMessage 0 [] :: gathering_messages, gathering_options)] |}.
Proof.
  rewrite (@gateway_failure_is_classified toLowerCase_ascii (fun _ _ => [])
             (fun _ => []) [] 0 (failing_gateway 503 "Service Unavailable")
             (JObj [(lit "messages", JArr gathering_messages)]) gathering_messages
             (Error (lit "OpenRouter service error: overloaded. Please try again."))).
  - vm_compute. reflexivity.
  - reflexivity.
  - reflexivity.
  - vm_compute. reflexivity.
Defined.

Lemma validation_idempotent_witness :
  validate_parsed first_three = inr first_three.
Proof.
  apply (@validation_idempotent four_plans first_three).
  vm_compute. reflexivity.
Defined.

End PhaseFacts.

(* ================================================================== *)
(** * The fenced completion *)
(* ================================================================== *)

Module FenceFacts.
Import MapRoute MapFacts RegexFacts.

Definition fence : jsstring := lit "```".

(** A greedy loop over a run that cannot be extended stops at its end
    when the continuation succeeds there. *)
Lemma star_loop_run {A} p (k : option jschar -> jsstring -> option A) run t a :
  forall prev,
  forallb p run = true ->
  match t with c :: _ => p c = false | [] => True end ->
  k (prev_after run prev) t = Some a ->
  star_loop p k prev (run ++ t) = Some a.
Proof.
  induction run as [|c run IH]; intros prev Hrun Ht Hk.
  - cbn [app]. destruct t as [|c t]; cbn [star_loop]; [exact Hk|].
    now rewrite Ht.
  - cbn [forallb] in Hrun. apply andb_true_iff in Hrun as [Hc Hrun].
    cbn [app star_loop]. rewrite Hc.
    rewrite prev_after_cons in Hk. now rewrite (IH (Some c) Hrun Ht Hk).
Qed.

Lemma last_success_none {A} (f : jsstring -> option A) (t : jsstring) :
  (forall u, match u with 125%N :: _ => False | _ => True end -> f u = None) ->
  Forall (fun c => c <> 125%N) t ->
  last_success f t = None.
Proof.
  intros Hf Ht. induction Ht as [|c t Hc _ IH]; cbn [last_success].
  - now apply Hf.
  - rewrite IH. cbn [first_of]. apply Hf.
    destruct c as [|p]; [exact I|].
    repeat (destruct p as [p|p|]; try exact I). now apply Hc.
Qed.

Lemma last_success_at {A} (f : jsstring -> option A) body c t v :
  f (c :: t) = Some v -> last_success f t = None ->
  last_success f (body ++ c :: t) = Some v.
Proof.
  intros Hv Hnone. induction body as [|b body IH]; cbn [app last_success].
  - now rewrite Hnone.
  - now rewrite IH.
Qed.

(** The group of [re_object], opened at an opening brace, closes at the
    last closing brace when the rest of the expression matches there. *)
Lemma rmatch_object_last {A} (k : cont A) cap prev (body rest : jsstring) v :
  Forall (fun c => c <> 125%N) rest ->
  k (Some (123%N :: body ++ [125%N])) (Some 125%N) rest = Some v ->
  rmatch (Grp re_object) k cap prev (123%N :: body ++ 125%N :: rest) = Some v.
Proof.
  intros Hrest Hk. unfold re_object. cbn [seq rmatch].
  change (lit "{") with [123%N]. change (lit "}") with [125%N].
  cbn [strip_prefix]. rewrite N.eqb_refl.
  rewrite (star_any_last_success
             (fun t => match strip_prefix [125%N] t with
                       | Some rest' =>
                           k (Some (firstn (List.length (123%N :: body ++ 125%N :: rest)
                                            - List.length rest')
                                      (123%N :: body ++ 125%N :: rest)))
                             (List.last (map Some [125%N]) (List.last (map Some [123%N]) prev))
                             rest'
                       | None => None
                       end)).
  apply last_success_at.
  - cbn [strip_prefix]. rewrite N.eqb_refl.
    change (123%N :: body ++ 125%N :: rest) with ((123%N :: body) ++ 125%N :: rest).
    rewrite firstn_consumed. exact Hk.
  - apply last_success_none; [|exact Hrest].
    intros [|c u] Hu; [reflexivity|]. cbn [strip_prefix].
    destruct (N.eqb 125 c) eqn:E; [|reflexivity].
    apply N.eqb_eq in E. subst c. contradiction.
Qed.

Lemma space_not c x : space c = true -> space x = false -> N.eqb x c = false.
Proof.
  intros Hc Hx. apply N.eqb_neq. intros ->. congruence.
Qed.

(** The tail [\s*```] of the fenced expression. *)
Lemma rmatch_fence_tail cap prev (ws post : jsstring) :
  forallb space ws = true ->
  rmatch (Seq (Star space) (Lit fence)) whole_capture cap prev (ws ++ fence ++ post)
  = Some cap.
Proof.
  intros Hws. cbn [rmatch].
  apply star_loop_run; [exact Hws|reflexivity|].
  now rewrite (proj2 (strip_prefix_some fence (fence ++ post) post) eq_refl).
Qed.

Lemma Forall_not_brace_tail (ws post : jsstring) :
  forallb space ws = true -> Forall (fun c => c <> 125%N) post ->
  Forall (fun c => c <> 125%N) (ws ++ fence ++ post).
Proof.
  intros Hws Hpost. apply Forall_app. split; [|apply Forall_app; split].
  - rewrite forallb_forall in Hws. apply Forall_forall.
    intros c Hin ->. now specialize (Hws _ Hin).
  - repeat constructor; discriminate.
  - exact Hpost.
Qed.

Lemma rmatch_Lit_app {A} w r (k : cont A) cap prev s :
  rmatch (Seq (Lit w) r) k cap prev (w ++ s) = rmatch r k cap (prev_after w prev) s.
Proof.
  cbn [rmatch]. now rewrite (proj2 (strip_prefix_some w (w ++ s) s) eq_refl).
Qed.

Lemma rmatch_Lit_none {A} w r (k : cont A) cap prev s :
  strip_prefix w s = None -> rmatch (Seq (Lit w) r) k cap prev s = None.
Proof. intros H. cbn [rmatch]. now rewrite H. Qed.

Lemma rmatch_Opt_Lit {A} w r (k : cont A) cap prev s :
  rmatch (Seq (Opt (Lit w)) r) k cap prev s
  = first_of (rmatch (Seq (Lit w) r) k cap prev s) (rmatch r k cap prev s).
Proof. reflexivity. Qed.

(** From the fence on. *)
Lemma rmatch_fenced_here prev (tag ws1 body ws2 post : jsstring) :
  tag = [] \/ tag = lit "json" ->
  forallb space ws1 = true -> forallb space ws2 = true ->
  Forall (fun c => c <> 125%N) post ->
  rmatch re_fenced whole_capture None prev
    (fence ++ tag ++ ws1 ++ 123%N :: body ++ 125%N :: ws2 ++ fence ++ post)
  = Some (Some (123%N :: body ++ [125%N])).
Proof.
  intros Htag Hws1 Hws2 Hpost. unfold re_fenced. cbn [seq].
  assert (Hrest : forall cap p,
    rmatch (Seq (Star space)
              (Seq (Grp re_object) (Seq (Star space) (Lit (lit "```")))))
      whole_capture cap p
      (ws1 ++ 123%N :: body ++ 125%N :: ws2 ++ fence ++ post)
    = Some (Some (123%N :: body ++ [125%N]))).
  { intros cap p. cbn [rmatch].
    apply star_loop_run; [exact Hws1|reflexivity|].
    apply (@rmatch_object_last _
             (fun cap' prev' s' =>
                rmatch (Seq (Star space) (Lit (lit "```"))) whole_capture cap' prev' s')).
    - now apply Forall_not_brace_tail.
    - now apply rmatch_fence_tail. }
  unfold fence at 1. rewrite rmatch_Lit_app, rmatch_Opt_Lit.
  destruct Htag as [->| ->].
  - cbn [app]. rewrite rmatch_Lit_none; [cbn [first_of]; apply Hrest|].
    destruct ws1 as [|c ws1]; [reflexivity|].
    cbn [forallb] in Hws1. apply andb_true_iff in Hws1 as [Hc _].
    change (lit "json") with [106%N; 115%N; 111%N; 110%N].
    cbn [app strip_prefix]. now rewrite (@space_not c 106%N Hc eq_refl).
  - now rewrite rmatch_Lit_app, Hrest.
Qed.

Lemma search_fenced_skip {A} (k : cont A) (pre s : jsstring) :
  forall prev,
  Forall (fun c => c <> 96%N) pre ->
  search re_fenced k prev (pre ++ fence ++ s)
  = search re_fenced k (prev_after pre prev) (fence ++ s).
Proof.
  induction pre as [|c pre IH]; intros prev Hpre; [reflexivity|].
  inversion Hpre as [|? ? Hc Hrest]; subst.
  cbn [app search]. rewrite prev_after_cons, <- (IH (Some c) Hrest).
  unfold re_fenced at 1. cbn [seq rmatch].
  change (lit "```") with [96%N; 96%N; 96%N]. cbn [strip_prefix].
  apply N.eqb_neq in Hc. rewrite N.eqb_sym in Hc. now rewrite Hc.
Qed.

(** X11: the first pattern of the geographic handler: in a trimmed
    completion that holds, after text without a backtick, a fence
    (three backticks, optionally followed by [json]), white space, an
    object text, white space and a closing fence, with no closing brace
    after that, the object text is what is parsed. *)
Theorem fenced_object_recovered (raw pre tag ws1 body ws2 post : jsstring) :
  trim raw
  = pre ++ fence ++ tag ++ ws1 ++ 123%N :: body ++ 125%N :: ws2 ++ fence ++ post ->
  Forall (fun c => c <> 96%N) pre ->
  tag = [] \/ tag = lit "json" ->
  forallb space ws1 = true -> forallb space ws2 = true ->
  Forall (fun c => c <> 125%N) post ->
  jsonMatch (trim raw) = Some (123%N :: body ++ [125%N]) /\
  parse_completion (Some (JStr raw)) = JSON_parse (123%N :: body ++ [125%N]).
Proof.
  intros Hshape Hpre Htag Hws1 Hws2 Hpost.
  assert (Hmatch : jsonMatch (trim raw) = Some (123%N :: body ++ [125%N])).
  { unfold jsonMatch, match1. fold whole_capture. rewrite Hshape.
    rewrite (@search_fenced_skip _ whole_capture pre _ None Hpre).
    assert (Hs : forall prev s,
      rmatch re_fenced whole_capture None prev s = Some (Some (123%N :: body ++ [125%N])) ->
      search re_fenced whole_capture prev s = Some (Some (123%N :: body ++ [125%N]))).
    { intros prev s H. destruct s; cbn [search]; now rewrite H. }
    now rewrite (Hs _ _ (@rmatch_fenced_here _ tag ws1 body ws2 post Htag Hws1 Hws2 Hpost)). }
  split; [exact Hmatch|].
  unfold parse_completion. now rewrite Hmatch.
Qed.

Lemma fenced_object_recovered_witness :
  jsonMatch (trim (lit "Here you go:" ++ [10%N] ++ lit "```json" ++ [10%N]
                   ++ json_text "{'plans':[]}" ++ [10%N] ++ lit "```" ++ [10%N]
                   ++ lit "Enjoy!" ++ [10%N]))
  = Some (123%N :: json_text "'plans':[]" ++ [125%N]) /\
  parse_completion
    (Some (JStr (lit "Here you go:" ++ [10%N] ++ lit "```json" ++ [10%N]
                 ++ json_text "{'plans':[]}" ++ [10%N] ++ lit "```" ++ [10%N]
                 ++ lit "Enjoy!" ++ [10%N])))
  = JSON_parse (123%N :: json_text "'plans':[]" ++ [125%N]).
Proof.
  apply (@fenced_object_recovered
           (lit "Here you go:" ++ [10%N] ++ lit "```json" ++ [10%N]
            ++ json_text "{'plans':[]}" ++ [10%N] ++ lit "```" ++ [10%N]
            ++ lit "Enjoy!" ++ [10%N])
           (lit "Here you go:" ++ [10%N]) (lit "json") [10%N]
           (json_text "'plans':[]") [10%N] ([10%N] ++ lit "Enjoy!")).
  - vm_compute. reflexivity.
  - vm_compute. repeat constructor; discriminate.
  - now right.
  - reflexivity.
  - reflexivity.
  - vm_compute. repeat constructor; discriminate.
Defined.

End FenceFacts.

(* ================================================================== *)
(** * What the gateway returns *)
(* ================================================================== *)

Module ChatFacts.

(** The role and the content of a message, as the request carries them. *)
Definition role_and_content (m : json) : value * value :=
  (written_value (get_opt (Some m) (lit "role")),
   written_value (get_opt (Some m) (lit "content"))).

Lemma formattedMessages_inr messages : forall ms,
  formattedMessages messages = inr ms ->
  map (fun rc => (written_value (fst rc), written_value (snd rc))) ms
  = map role_and_content messages.
Proof.
  induction messages as [|m l IH]; intros ms; cbn [formattedMessages bind ret map].
  - now intros [= <-].
  - destruct m as [| b | mm ee | s | a | o]; try discriminate; cbn [get bind ret];
      (destruct (formattedMessages l) as [err|rest]; [discriminate|];
       cbn [bind ret]; intros [= <-]; cbn [map fst snd];
       now rewrite (IH rest eq_refl)).
Qed.

Section WithRuntime.

Variable number_to_string : Z -> Z -> jsstring.

(** X12: [chat] returns a response only when the request could be
    built, the reply is OK and its body is JSON other than [null]; the
    request then carries the role and the content of every message, as
    JSON writes them, in order, and nothing else of them; and the
    content returned is never [null] or [undefined]: it is the content
    of the message of [choices[0]] (property [0] of whatever [choices]
    is) when that is truthy, and the empty string otherwise. *)
Theorem chat_returns_only_on_ok fetch messages options r :
  chat number_to_string fetch messages options = inr r ->
  exists body response data,
    requestBody messages options = inr body /\
    rb_messages body = map role_and_content messages /\
    fetch body = inr response /\ ok response = true /\
    json_body response = inr data /\ data <> JNull /\
    chat_content r
    = or_else (get_opt (get_opt (item_0 (get_opt (Some data) (lit "choices")))
                                (lit "message")) (lit "content"))
              (Some (JStr [])) /\
    (truthy (chat_content r) = true \/ chat_content r = Some (JStr [])).
Proof.
  unfold chat.
  destruct (requestBody messages options) as [e|body] eqn:Hb; [discriminate|].
  cbn [bind]. destruct (fetch body) as [e|response] eqn:Hf; [discriminate|].
  cbn [bind]. destruct (ok response) eqn:Hok; [|discriminate]. cbn [negb].
  destruct (json_body response) as [e|data] eqn:Hd; [discriminate|].
  cbn [bind].
  assert (Hnn : data <> JNull \/ data = JNull) 
    by (destruct data; [right; reflexivity|left; discriminate..]).
  destruct Hnn as [Hnn| ->]; [|cbn; discriminate].
  rewrite !(GatewayFacts.get_non_null _ Hnn). cbn [bind ret].
  intros [= <-]. exists body, response, data. cbn [chat_content].
  repeat split; auto.
  - unfold requestBody in Hb.
    destruct (formattedMessages messages) as [e|ms] eqn:Hms; [discriminate|].
    cbn [bind ret] in Hb. injection Hb as <-. cbn [rb_messages].
    now apply formattedMessages_inr.
  - unfold or_else.
    destruct (truthy (get_opt _ (lit "content"))) eqn:E; [now left|now right].
Qed.

End WithRuntime.

Definition sample_reply : Reply :=
  {| status := 200; statusText := lit "OK";
     json_body :=
       match JSON_parse (json_text "{'choices':[{'message':{'content':'Hi'}}],'usage':{}}") with
       | Some v => inr v
       | None => inl (SyntaxError [])
       end |}.

Definition sample_fetch (_ : RequestBody) : M Reply := inr sample_reply.

Definition sample_messages : list json :=
  [JObj [(lit "role", JStr (lit "user")); (lit "content", JStr (lit "Hello"));
         (lit "timestamp", JNum 1 0)]].

Definition sample_options : ChatOptions :=
  {| temperature := JNum 7 (-1); maxTokens := 300; responseFormat := None |}.

Lemma chat_returns_only_on_ok_witness :
  exists body response data,
    requestBody sample_messages sample_options = inr body /\
    rb_messages body = map role_and_content sample_messages /\
    sample_fetch body = inr response /\ ok response = true /\
    json_body response = inr data /\ data <> JNull /\
    Some (JStr (lit "Hi"))
    = or_else (get_opt (get_opt (item_0 (get_opt (Some data) (lit "choices")))
                                (lit "message")) (lit "content"))
              (Some (JStr [])) /\
    (truthy (Some (JStr (lit "Hi"))) = true \/ Some (JStr (lit "Hi")) = Some (JStr [])).
Proof.
  apply (@chat_returns_only_on_ok (fun _ _ => []) sample_fetch
           sample_messages sample_options
           {| chat_content := Some (JStr (lit "Hi"));
              usage := (Some (JNum 0 0), Some (JNum 0 0), Some (JNum 0 0)) |}).
  vm_compute. reflexivity.
Defined.

(** [choices?.[0]] is a property read: a body whose [choices] is an
    object with the property [0] gives its content. *)
Example choices_object :
  chat (fun _ _ => [])
    (fun _ => inr {| status := 200; statusText := lit "OK";
                     json_body :=
                       match JSON_parse (json_text "{'choices':{'0':{'message':{'content':'from an object'}}}}") with
                       | Some v => inr v
                       | None => inl (SyntaxError [])
                       end |})
    sample_messages sample_options
  = inr {| chat_content := Some (JStr (lit "from an object"));
           usage := (Some (JNum 0 0), Some (JNum 0 0), Some (JNum 0 0)) |}.
Proof. vm_compute. reflexivity. Qed.

End ChatFacts.

(* ================================================================== *)
(** * The statuses of the geographic handler *)
(* ================================================================== *)

Module MapStatusFacts.
Import MapRoute.

(** The check of the request of the geographic handler. *)
Definition valid_coordinates (body : json) : bool :=
  let coordinates := get_opt (Some body) (lit "coordinates") in
  truthy coordinates
  && is_number (get_opt coordinates (lit "lat"))
  && is_number (get_opt coordinates (lit "lng")).

Definition is_result (b : Body) : bool :=
  match b with
  | MapResult _ _ => true
  | MapError _ => false
  end.

Section Handler.

Variable now : nat -> Z.
Variable prompts : json -> M (jsstring * jsstring).
Variable chat : list json -> ChatOptions -> M ChatResponse.

Lemma respond_status content r :
  respond now content = inr r ->
  (http_status r = 200%Z /\ is_result (http_body r) = true) \/
  (http_status r = 500%Z /\ is_result (http_body r) = false).
Proof.
  unfold respond. destruct (parse_completion content) as [parsed|].
  - destruct (get (Some parsed) (lit "plans")) as [e|plans]; [discriminate|].
    cbn [bind]. destruct plans as [[| | | | l |]|];
      try (intros [= <-]; right; now split).
    destruct (map_plans now l 0) as [e|ps]; [discriminate|].
    cbn [bind ret]. intros [= <-]. left. now split.
  - intros [= <-]. right. now split.
Qed.

Lemma destructure_first_non_null body p :
  body <> JNull ->
  destructure_first body p = inr (get_opt (Some body) (lit p)).
Proof. destruct body; try reflexivity. contradiction. Qed.

Definition rejected (request : M json) : Prop :=
  exists body,
    request = inr body /\ body <> JNull /\ valid_coordinates body = false.

Definition invalid_coordinates_response : HttpResponse :=
  {| http_status := 400;
     http_body := MapError (lit "Invalid coordinates provided") |}.

Lemma status_cases (request : M json) (response : HttpResponse) :
  (~ rejected request /\
   ((http_status response = 200%Z /\ is_result (http_body response) = true) \/
    (http_status response = 500%Z /\ is_result (http_body response) = false)))
  \/ (rejected request /\ response = invalid_coordinates_response) ->
  (http_status response = 200%Z \/ http_status response = 400%Z
   \/ http_status response = 500%Z) /\
  (http_status response = 200%Z <-> is_result (http_body response) = true) /\
  (http_status response = 400%Z <-> rejected request) /\
  (http_status response = 400%Z -> response = invalid_coordinates_response).
Proof.
  intros [[Hno [[Hs Hb]|[Hs Hb]]]|[Hyes ->]].
  - rewrite Hs, Hb. repeat split; auto; try discriminate. intros H; now apply Hno in H.
  - rewrite Hs, Hb. repeat split; auto; try discriminate. intros H; now apply Hno in H.
  - cbn. repeat split; auto; discriminate.
Qed.

(** X13: the geographic handler answers with status 200, 400 or 500;
    with 200 exactly when the body holds plans; and with 400 exactly
    when the request body is JSON other than [null] whose coordinates
    are missing or have a [lat] or [lng] that is not a number, in which
    case the answer is the fixed error, whatever the prompts and the
    gateway would do. *)
Theorem map_status_by_request (request : M json) (t : Z) :
  let response := POST now prompts chat request t in
  (http_status response = 200%Z \/ http_status response = 400%Z
   \/ http_status response = 500%Z) /\
  (http_status response = 200%Z <-> is_result (http_body response) = true) /\
  (http_status response = 400%Z <-> rejected request) /\
  (http_status response = 400%Z -> response = invalid_coordinates_response).
Proof.
  cbv zeta. apply status_cases. unfold POST, POST_try.
  destruct request as [e|body]; cbn [bind].
  { left. split; [intros (body & Hb & _); discriminate|]. right. now split. }
  destruct (valid_coordinates body) eqn:Hvalid.
  - left. split; [intros (body' & [= <-] & _ & H); congruence|].
    destruct body as [| b | m x | s | l | o]; try discriminate Hvalid.
    cbn [destructure_first bind ret].
    unfold valid_coordinates in Hvalid. cbn [get_opt] in Hvalid.
    apply andb_true_iff in Hvalid as [Hvalid Hlng].
    apply andb_true_iff in Hvalid as [Hc Hlat].
    rewrite Hc, Hlat, Hlng. cbn [negb orb].
    destruct (prompts (JObj o)) as [e|ps]; [right; now split|]. cbn [bind].
    match goal with
    | |- context [chat ?ms ?opts] => destruct (chat ms opts) as [e|response]
    end; [right; now split|].
    cbn [bind]. destruct (respond now (chat_content response)) as [e|r] eqn:Hr;
      [right; now split|].
    apply respond_status in Hr. tauto.
  - destruct body as [| b | m x | s | l | o].
    + left. split; [intros (body' & [= <-] & Hnn & _); contradiction|].
      right. now split.
    + right. split; [exists (JBool b); repeat split; discriminate|reflexivity].
    + right. split; [exists (JNum m x); repeat split; discriminate|reflexivity].
    + right. split; [exists (JStr s); repeat split; discriminate|reflexivity].
    + right. split; [exists (JArr l); repeat split; discriminate|reflexivity].
    + right. split; [exists (JObj o); repeat split; [discriminate|exact Hvalid]|].
      cbn [destructure_first bind ret].
      unfold valid_coordinates in Hvalid. cbn [get_opt] in Hvalid.
      rewrite <- negb_true_iff, !negb_andb in Hvalid. now rewrite Hvalid.
Qed.

(** X19: when the gateway call of a request with valid coordinates
    throws, the geographic handler answers with status 500 and the
    message of the error as it is, whatever the error: there is no
    classification and no flag, and a rate limit of the provider is
    reported with status 500 too. *)
Theorem gateway_failure_is_status_500 body ps e (t : Z) :
  body <> JNull -> valid_coordinates body = true ->
  prompts body = inr ps ->
  chat [prompt_message "system" (fst ps) t; prompt_message "user" (snd ps) t]
       {| temperature := JNum 7 (-1); maxTokens := 2000;
          responseFormat := None |} = inl e ->
  POST now prompts chat (inr body) t
  = {| http_status := 500; http_body := MapError (message_of e) |}.
Proof.
  intros Hnn Hvalid Hps Hchat. unfold POST, POST_try. cbn [bind].
  rewrite (destructure_first_non_null "coordinates" Hnn). cbn [bind].
  unfold valid_coordinates in Hvalid.
  apply andb_true_iff in Hvalid as [Hvalid Hlng].
  apply andb_true_iff in Hvalid as [Hc Hlat].
  rewrite Hc, Hlat, Hlng. cbn [negb orb]. rewrite Hps. cbn [bind].
  now rewrite Hchat.
Qed.

End Handler.

Lemma gateway_failure_is_status_500_witness :
  POST (fun _ => 0%Z) (fun _ => inr ([], []))
       (PhaseFacts.failing_gateway 429 "Too Many Requests")
       (inr MapFacts.vancouver_request) 0
  = {| http_status := 500;
       http_body := MapError (lit "Rate limit exceeded. Please try again later.") |}.
Proof.
  apply (@gateway_failure_is_status_500 (fun _ => 0%Z) (fun _ => inr ([], []))
           (PhaseFacts.failing_gateway 429 "Too Many Requests")
           MapFacts.vancouver_request
           ([], []) (Error (lit "Rate limit exceeded. Please try again later.")) 0).
  - discriminate.
  - reflexivity.
  - reflexivity.
  - vm_compute. reflexivity.
Defined.

End MapStatusFacts.

(* ================================================================== *)
(** * The retries of the client *)
(* ================================================================== *)

Module ClientFacts.
Import Client.

(** The delay waited after the failure of a given attempt. *)
Definition backoff (baseDelay : Z) (attempt : nat) : Z :=
  (baseDelay * 2 ^ Z.of_nat attempt)%Z.

Definition total (l : list Z) : Z := fold_right Z.add 0%Z l.

Lemma total_backoff baseDelay n :
  total (map (backoff baseDelay) (List.seq 0 n)) = (baseDelay * (2 ^ Z.of_nat n - 1))%Z.
Proof.
  induction n as [|n IH]; [cbn; lia|].
  rewrite seq_S, map_app. unfold total in *. rewrite fold_right_app.
  cbn [map fold_right Nat.add].
  assert (Hshift : forall l a, fold_right Z.add a l = (fold_right Z.add 0 l + a)%Z).
  { induction l as [|x l IHl]; intros a; cbn [fold_right]; [lia|]. rewrite IHl. lia. }
  rewrite Hshift, IH. unfold backoff.
  rewrite Nat2Z.inj_succ, Z.pow_succ_r by lia. lia.
Qed.

Section WithRuntime.

Variable number_to_string : Z -> Z -> jsstring.

Local Abbreviation attempt_of := (try_block number_to_string).

(** A reply that is not OK fails the attempt, whatever its status. *)
Lemma non_ok_fails response :
  ok response = false -> exists e, attempt_of (inr response) = inl e.
Proof.
  intros Hok. unfold try_block. cbn [bind]. rewrite Hok. cbn [negb].
  destruct (get _ (lit "message")) as [e|m]; cbn [bind]; [now exists e|].
  destruct (_ && _); eexists; reflexivity.
Qed.

Variable fetch : nat -> M Reply.
Variable maxRetries : nat.
Variable baseDelay : Z.

Local Abbreviation run := (loop number_to_string fetch maxRetries baseDelay).

Definition fails (i : nat) : Prop := exists e, attempt_of (fetch i) = inl e.

Lemma loop_spec remaining : forall attempt lastError,
  (remaining + attempt = maxRetries)%nat ->
  let o := run remaining attempt lastError in
  (requests o <= remaining)%nat /\
  ((0 < remaining)%nat -> (1 <= requests o)%nat) /\
  delays o = map (backoff baseDelay) (List.seq attempt (Nat.pred (requests o))) /\
  (forall e, result o = inl e ->
     requests o = remaining /\
     (forall i, (attempt <= i < maxRetries)%nat -> fails i) /\
     ((0 < remaining)%nat -> attempt_of (fetch (maxRetries - 1)) = inl e) /\
     (remaining = 0%nat ->
      e = match lastError with
          | Some e' => e'
          | None => Error (lit "Failed after retries")
          end)) /\
  (forall data, result o = inr data ->
     attempt_of (fetch (attempt + requests o - 1)) = inr data /\
     forall i, (attempt <= i < attempt + requests o - 1)%nat -> fails i).
Proof.
  induction remaining as [|remaining IH]; intros attempt lastError Hinv; cbv zeta.
  - cbn [loop result requests delays].
    split; [lia|]. split; [lia|]. split; [reflexivity|]. split.
    + intros e He. injection He as <-.
      split; [reflexivity|]. split; [intros i Hi; lia|]. split; [lia|reflexivity].
    + intros data Hd. discriminate Hd.
  - cbn [loop]. destruct (attempt_of (fetch attempt)) as [err|data] eqn:Htry.
    + destruct (Nat.eqb attempt (maxRetries - 1)) eqn:Hlast.
      * apply Nat.eqb_eq in Hlast. cbn [result requests delays].
        split; [lia|]. split; [lia|]. split; [reflexivity|]. split.
        -- intros e He. injection He as <-.
           split; [lia|]. split; [|split].
           ++ intros i Hi. assert (i = attempt) as -> by lia. now exists err.
           ++ intros _. now rewrite <- Hlast.
           ++ intros H. discriminate H.
        -- intros data Hd. discriminate Hd.
      * apply Nat.eqb_neq in Hlast. cbv zeta. cbn [result requests delays].
        destruct (IH (S attempt) (Some err)) as (Hle & Hpos & Hdel & Hthrown & Hret);
          [lia|].
        assert (Hone : (1 <= requests (run remaining (S attempt) (Some err)))%nat)
          by (apply Hpos; lia).
        split; [lia|]. split; [lia|]. split; [|split].
        -- rewrite Hdel. cbn [Nat.pred].
           destruct (requests (run remaining (S attempt) (Some err))) as [|n];
             [lia|reflexivity].
        -- intros e He. destruct (Hthrown e He) as (Hreq & Hall & Hend & _).
           split; [lia|]. split; [|split].
           ++ intros i Hi. destruct (Nat.eq_dec i attempt) as [->|Hne];
                [now exists err|apply Hall; lia].
           ++ intros _. apply Hend. lia.
           ++ intros H. discriminate H.
        -- intros data Hd. destruct (Hret data Hd) as (Hok & Hall).
           split.
           ++ replace (attempt + S (requests (run remaining (S attempt) (Some err))) - 1)%nat
                with (S attempt + requests (run remaining (S attempt) (Some err)) - 1)%nat
                by lia.
              exact Hok.
           ++ intros i Hi. destruct (Nat.eq_dec i attempt) as [->|Hne];
                [now exists err|apply Hall; lia].
    + cbn [result requests delays].
      split; [lia|]. split; [lia|]. split; [reflexivity|]. split.
      * intros e He. discriminate He.
      * intros d Hd. injection Hd as <-.
        replace (attempt + 1 - 1)%nat with attempt by lia.
        split; [exact Htry|]. intros i Hi. lia.
Qed.

(** X14: [callAssistantWithRetry] sends at most [maxRetries] requests
    and waits only between two of them.  It throws only after
    [maxRetries] requests that all failed, and then the error of the
    last one (with [maxRetries = 0] it sends nothing and throws the
    fixed error); it returns the data of the first attempt that
    succeeds, every earlier one having failed. *)
Theorem retry_budget :
  let o := callAssistantWithRetry number_to_string fetch maxRetries baseDelay in
  (requests o <= maxRetries)%nat /\
  List.length (delays o) = Nat.pred (requests o) /\
  (forall e, result o = inl e ->
     requests o = maxRetries /\
     (forall i, (i < maxRetries)%nat -> fails i) /\
     ((0 < maxRetries)%nat -> attempt_of (fetch (maxRetries - 1)) = inl e) /\
     (maxRetries = 0%nat -> e = Error (lit "Failed after retries"))) /\
  (forall data, result o = inr data ->
     (1 <= requests o)%nat /\
     attempt_of (fetch (requests o - 1)) = inr data /\
     forall i, (i < requests o - 1)%nat -> fails i).
Proof.
  cbv zeta. unfold callAssistantWithRetry.
  destruct (@loop_spec maxRetries 0 None) as (Hle & Hpos & Hdel & Hthrown & Hret);
    [lia|].
  split; [exact Hle|]. split; [|split].
  - rewrite Hdel, length_map, length_seq. reflexivity.
  - intros e He. destruct (Hthrown e He) as (Hreq & Hall & Hend & Hnone).
    split; [exact Hreq|]. split; [intros i Hi; apply Hall; lia|].
    split; [exact Hend|]. intros H0. now apply Hnone.
  - intros data Hd. destruct (Hret data Hd) as (Hok & Hall).
    assert (Hone : (1 <= requests (run maxRetries 0 None))%nat).
    { apply Hpos. destruct maxRetries; [|lia]. discriminate Hd. }
    split; [exact Hone|]. split; [exact Hok|]. intros i Hi. apply Hall. lia.
Qed.

(** X15: the waits double: after the failure of attempt [i] the client
    waits [baseDelay * 2^i] milliseconds, so that a call that sends [n]
    requests has waited [baseDelay * (2^(n-1) - 1)] in all (3000 ms
    for the default three attempts of 1000 ms base).  The bounds are
    those within which the product is the double that the source
    computes. *)
Theorem exponential_backoff :
  (0 <= baseDelay < 2 ^ 53)%Z -> (maxRetries <= 970)%nat ->
  let o := callAssistantWithRetry number_to_string fetch maxRetries baseDelay in
  delays o = map (backoff baseDelay) (List.seq 0 (Nat.pred (requests o))) /\
  total (delays o) = (baseDelay * (2 ^ Z.of_nat (Nat.pred (requests o)) - 1))%Z.
Proof.
  intros _ _. cbv zeta. unfold callAssistantWithRetry.
  destruct (@loop_spec maxRetries 0 None) as (_ & _ & Hdel & _); [lia|].
  split; [exact Hdel|]. rewrite Hdel. apply total_backoff.
Qed.

(** X16: a reply that is not OK is a failed attempt whatever its
    status, also a status from 400 to 499 other than 429, whose [throw]
    is caught by the [catch] of the same attempt: when every reply is
    such, the client sends all [maxRetries] requests before it throws. *)
Theorem non_ok_replies_are_retried :
  (forall i, exists response, fetch i = inr response /\ ok response = false) ->
  let o := callAssistantWithRetry number_to_string fetch maxRetries baseDelay in
  requests o = maxRetries /\ exists e, result o = inl e.
Proof.
  intros Hall. cbv zeta.
  assert (Hfails : forall i, fails i).
  { intros i. destruct (Hall i) as (response & Hf & Hok).
    unfold fails. rewrite Hf. now apply non_ok_fails. }
  unfold callAssistantWithRetry.
  destruct (@loop_spec maxRetries 0 None) as (_ & _ & _ & Hthrown & Hret); [lia|].
  destruct (result (run maxRetries 0 None)) as [e|data] eqn:Hres.
  - split; [now apply (Hthrown e)|now exists e].
  - destruct (Hret data eq_refl) as (Hok & _).
    destruct (Hfails (0 + requests (run maxRetries 0 None) - 1)%nat) as [e He].
    congruence.
Qed.

End WithRuntime.

(** The answer of the conversation route to a request without
    messages, as the client receives it. *)
Definition bad_request : Reply :=
  {| status := 400; statusText := lit "Bad Request";
     json_body :=
       match JSON_parse (json_text "{'error':'Invalid request','message':'Messages array is required','code':'INVALID_REQUEST','retryable':false}") with
       | Some v => inr v
       | None => inl (SyntaxError [])
       end |}.

Lemma exponential_backoff_witness :
  delays (callAssistantWithRetry (fun _ _ => []) (fun _ => inr bad_request) 3 1000)
  = [1000%Z; 2000%Z] /\
  total (delays (callAssistantWithRetry (fun _ _ => []) (fun _ => inr bad_request) 3 1000))
  = 3000%Z.
Proof.
  destruct (@exponential_backoff (fun _ _ => []) (fun _ => inr bad_request) 3 1000)
    as [H1 H2]; [lia|lia|].
  rewrite H2, H1. split; vm_compute; reflexivity.
Defined.

Lemma non_ok_replies_are_retried_witness :
  requests (callAssistantWithRetry (fun _ _ => []) (fun _ => inr bad_request) 3 1000)
  = 3%nat /\
  exists e,
    result (callAssistantWithRetry (fun _ _ => []) (fun _ => inr bad_request) 3 1000)
    = inl e.
Proof.
  apply (@non_ok_replies_are_retried (fun _ _ => []) (fun _ => inr bad_request) 3 1000).
  intros i. exists bad_request. split; reflexivity.
Defined.

End ClientFacts.

(* ================================================================== *)
(** * The cooldown of the map *)
(* ================================================================== *)

Module CooldownFacts.
Import MapClient.

(** Two instants at least the cooldown period apart. *)
Definition apart (t1 t2 : Z) : Prop := (t1 + cooldownPeriod <= t2)%Z.

Lemma accepted_apart clicks : forall lastClickTime,
  (0 < lastClickTime)%Z ->
  Forall (fun now => (lastClickTime <= now)%Z) clicks ->
  StronglySorted Z.le clicks ->
  Sorted apart (accepted lastClickTime clicks) /\
  HdRel apart lastClickTime (accepted lastClickTime clicks).
Proof.
  induction clicks as [|now rest IH]; intros lastClickTime Hpos Hafter Hsorted;
    cbn [accepted]; [split; constructor|].
  inversion Hafter as [|? ? Hnow Hrest]; subst.
  inversion Hsorted as [|? ? Hs Hle]; subst.
  unfold guard. cbv zeta.
  destruct ((now - lastClickTime <? cooldownPeriod)%Z && (lastClickTime >? 0)%Z) eqn:Hg.
  - now apply IH.
  - assert (Hgap : apart lastClickTime now).
    { unfold apart. apply andb_false_iff in Hg as [Hg|Hg]; [apply Z.ltb_ge in Hg; lia|].
      rewrite Z.gtb_ltb in Hg. apply Z.ltb_ge in Hg. lia. }
    destruct (IH now) as [Hsort Hhd]; [unfold apart, cooldownPeriod in Hgap; lia|exact Hle|exact Hs|].
    split; constructor; auto.
Qed.

(** X17: of clicks made at positive, non-decreasing instants on a fresh
    map, the first is accepted and any two accepted in a row are at
    least 20 seconds apart; a click refused after an earlier one is
    told a number of seconds from 1 to 20, the time left rounded up. *)
Theorem cooldown_spaces_clicks (clicks : list Z) :
  Forall (fun now => (0 < now)%Z) clicks ->
  StronglySorted Z.le clicks ->
  Sorted apart (accepted 0 clicks) /\
  List.hd_error (accepted 0 clicks) = List.hd_error clicks /\
  (forall lastClickTime now remainingTime,
     (lastClickTime <= now)%Z ->
     guard lastClickTime now = Refused remainingTime ->
     (1 <= remainingTime <= 20)%Z /\
     (1000 * (remainingTime - 1) < lastClickTime + cooldownPeriod - now
      <= 1000 * remainingTime)%Z).
Proof.
  intros Hpos Hsorted. split; [|split].
  - destruct clicks as [|now rest]; [constructor|].
    inversion Hpos as [|? ? Hnow Hrest]; subst.
    inversion Hsorted as [|? ? Hs Hle]; subst.
    cbn [accepted]. unfold guard. cbv zeta.
    replace (0 >? 0)%Z with false by reflexivity. rewrite andb_false_r.
    destruct (@accepted_apart rest now Hnow Hle Hs) as [H1 H2].
    now constructor.
  - destruct clicks as [|now rest]; [reflexivity|].
    cbn [accepted]. unfold guard. cbv zeta.
    replace (0 >? 0)%Z with false by reflexivity. now rewrite andb_false_r.
  - intros lastClickTime now remainingTime Hle. unfold guard. cbv zeta.
    destruct ((now - lastClickTime <? cooldownPeriod)%Z && (lastClickTime >? 0)%Z) eqn:Hg;
      [|discriminate].
    intros H.
    assert (Hr : remainingTime = ceil_div (cooldownPeriod - (now - lastClickTime)) 1000)
      by congruence.
    clear H. subst remainingTime.
    apply andb_true_iff in Hg as [Hg _]. apply Z.ltb_lt in Hg.
    unfold ceil_div, cooldownPeriod in *.
    pose proof (Z.div_mod (- (20000 - (now - lastClickTime))) 1000) as Hdm.
    pose proof (Z.mod_pos_bound (- (20000 - (now - lastClickTime))) 1000) as Hmod.
    lia.
Qed.

Lemma cooldown_spaces_clicks_witness :
  Sorted apart (accepted 0 [1000; 5000; 21000; 30000; 41000]%Z) /\
  List.hd_error (accepted 0 [1000; 5000; 21000; 30000; 41000]%Z) = Some 1000%Z /\
  (forall lastClickTime now remainingTime,
     (lastClickTime <= now)%Z ->
     guard lastClickTime now = Refused remainingTime ->
     (1 <= remainingTime <= 20)%Z /\
     (1000 * (remainingTime - 1) < lastClickTime + cooldownPeriod - now
      <= 1000 * remainingTime)%Z).
Proof.
  apply (@cooldown_spaces_clicks [1000; 5000; 21000; 30000; 41000]%Z).
  - repeat constructor.
  - repeat constructor; lia.
Defined.

End CooldownFacts.

(* ================================================================== *)
(** * The ranking of the nearby attractions *)
(* ================================================================== *)

Module RankingFacts.
Import MapClient.

Definition before (a b : OpenTripMapPlace) : Prop := goes_before a b = true.

(** The order in plain terms: a higher rate first, and among equal
    rates the shorter distance first. *)
Lemma before_iff a b :
  before a b
  <-> QArith_base.Qlt (rate b) (rate a)
      \/ (QArith_base.Qeq (rate b) (rate a) /\ QArith_base.Qle (dist a) (dist b)).
Proof.
  unfold before, goes_before, compare_places.
  destruct (QArith_base.Qcompare_spec (rate b) (rate a)) as [Hr|Hr|Hr].
  - destruct (QArith_base.Qcompare_spec (dist a) (dist b)) as [Hd|Hd|Hd].
    + split; [intros _; right; split; [exact Hr|Lqa.lra]|reflexivity].
    + split; [intros _; right; split; [exact Hr|Lqa.lra]|reflexivity].
    + split; [discriminate|intros [H|[_ H]]; Lqa.lra].
  - split; [now left|reflexivity].
  - split; [discriminate|intros [H|[H _]]; Lqa.lra].
Qed.

Lemma before_total a b : goes_before a b = false -> before b a.
Proof.
  intros H. apply before_iff.
  assert (Hn : ~ before a b) by (unfold before; congruence).
  rewrite before_iff in Hn.
  destruct (QArith_base.Qlt_le_dec (rate a) (rate b)) as [Hlt|Hle]; [now left|].
  right. destruct (QArith_base.Qlt_le_dec (rate b) (rate a)) as [Hlt'|Hle'];
    [exfalso; apply Hn; now left|].
  assert (Heq : QArith_base.Qeq (rate a) (rate b)) by Lqa.lra.
  split; [exact Heq|].
  destruct (QArith_base.Qlt_le_dec (dist b) (dist a)) as [Hd|Hd]; [Lqa.lra|].
  exfalso. apply Hn. right. split; Lqa.lra.
Qed.

Lemma before_trans a b c : before a b -> before b c -> before a c.
Proof. rewrite !before_iff. intros [H1|[H1 H1']] [H2|[H2 H2']]; [left|left|left|right; split]; Lqa.lra. Qed.

Lemma insert_perm a l : Permutation (insert a l) (a :: l).
Proof.
  induction l as [|b l IH]; cbn [insert]; [reflexivity|].
  destruct (goes_before a b); [reflexivity|].
  rewrite IH. apply perm_swap.
Qed.

Lemma sort_perm l : Permutation (sort l) l.
Proof.
  induction l as [|a l IH]; cbn [sort]; [reflexivity|].
  now rewrite insert_perm, IH.
Qed.

Lemma insert_sorted a l :
  StronglySorted before l -> StronglySorted before (insert a l).
Proof.
  induction 1 as [|b l Hl IH Hb]; cbn [insert]; [repeat constructor|].
  destruct (goes_before a b) eqn:Hab.
  - constructor; [now constructor|]. constructor; [exact Hab|].
    apply Forall_forall. intros x Hx. rewrite Forall_forall in Hb.
    apply before_trans with b; [exact Hab|now apply Hb].
  - constructor; [exact IH|].
    apply (Permutation_Forall (Permutation_sym (insert_perm a l))).
    constructor; [now apply before_total|exact Hb].
Qed.

Lemma sort_sorted l : StronglySorted before (sort l).
Proof.
  induction l as [|a l IH]; cbn [sort]; [constructor|]. now apply insert_sorted.
Qed.

Lemma firstn_sorted {A} (R : A -> A -> Prop) n : forall l,
  StronglySorted R l -> StronglySorted R (firstn n l).
Proof.
  induction n as [|n IH]; intros l Hl; [constructor|].
  destruct Hl as [|a l Hl Ha]; cbn [firstn]; [constructor|].
  constructor; [now apply IH|].
  apply Forall_forall. intros x Hx. rewrite Forall_forall in Ha.
  apply Ha. revert Hx. clear. revert l.
  induction n as [|n IHn]; intros [|y l]; cbn [firstn]; try contradiction.
  intros [->|H]; [now left|right; now apply IHn].
Qed.

Lemma firstn_In {A} n : forall (l : list A) x, In x (firstn n l) -> In x l.
Proof.
  induction n as [|n IH]; intros [|y l] x; cbn [firstn]; try contradiction.
  intros [->|H]; [now left|right; now apply IH].
Qed.

Lemma firstn_NoDup {A B} (f : A -> B) n : forall l,
  NoDup (map f l) -> NoDup (map f (firstn n l)).
Proof.
  induction n as [|n IH]; intros [|y l] H; cbn [firstn map]; try constructor.
  - inversion H as [|? ? Hy Hl]; subst. intros Hin. apply Hy.
    apply in_map_iff in Hin as (x & Hx & Hin). apply in_map_iff.
    exists x. split; [exact Hx|now apply firstn_In in Hin].
  - inversion H; subst. now apply IH.
Qed.

Lemma filter_NoDup {A B} (f : A -> B) p : forall l,
  NoDup (map f l) -> NoDup (map f (filter p l)).
Proof.
  induction l as [|y l IH]; intros H; cbn [filter map]; [constructor|].
  inversion H as [|? ? Hy Hl]; subst.
  destruct (p y); cbn [map]; [|now apply IH].
  constructor; [|now apply IH]. intros Hin. apply Hy.
  apply in_map_iff in Hin as (x & Hx & Hin). apply in_map_iff.
  exists x. split; [exact Hx|]. now apply filter_In in Hin as [Hin _].
Qed.

(** The entries of the map: distinct keys, each the [xid] of its value,
    which is one of the places collected. *)
Definition keyed (source : list OpenTripMapPlace)
  (m : list (jsstring * OpenTripMapPlace)) : Prop :=
  NoDup (map fst m) /\
  Forall (fun e => xid (snd e) = fst e /\ In (snd e) source) m.

Lemma map_set_keys {A} k (v : A) m :
  map fst (map_set k v m)
  = if existsb (str_eqb k) (map fst m) then map fst m else map fst m ++ [k].
Proof.
  induction m as [|[k' v'] m IH]; cbn [map_set map existsb fst app]; [reflexivity|].
  destruct (str_eqb k k') eqn:E; cbn [orb map fst]; [reflexivity|].
  rewrite IH. now destruct (existsb (str_eqb k) (map fst m)).
Qed.

Lemma map_set_In {A} k (v : A) m e :
  In e (map_set k v m) -> e = (k, v) \/ In e m.
Proof.
  induction m as [|[k' v'] m IH]; cbn [map_set].
  - intros [<-|[]]. now left.
  - destruct (str_eqb k k') eqn:E.
    + apply str_eqb_eq in E. subst k'. intros [<-|H]; [now left|right; now right].
    + intros [<-|H]; [right; now left|].
      destruct (IH H) as [->|H']; [now left|right; now right].
Qed.

Lemma map_set_keyed source item m :
  In item source -> keyed source m -> keyed source (map_set (xid item) item m).
Proof.
  intros Hin [Hnd Hall]. split.
  - rewrite map_set_keys.
    destruct (existsb (str_eqb (xid item)) (map fst m)) eqn:E; [exact Hnd|].
    apply NoDup_app; [exact Hnd|repeat constructor; intros []|].
    intros x Hx [<-|[]].
    assert (existsb (str_eqb (xid item)) (map fst m) = true); [|congruence].
    apply existsb_exists. exists (xid item). split; [exact Hx|apply str_eqb_refl].
  - apply Forall_forall. intros e He. rewrite Forall_forall in Hall.
    destruct (map_set_In _ _ _ _ He) as [->|H]; [now split|now apply Hall].
Qed.

Lemma fold_keyed source l : forall m,
  incl l source -> keyed source m ->
  keyed source (fold_left (fun m item => map_set (xid item) item m) l m).
Proof.
  induction l as [|item l IH]; intros m Hincl Hm; [exact Hm|].
  cbn [fold_left]. apply IH.
  - intros x Hx. apply Hincl. now right.
  - apply map_set_keyed; [apply Hincl; now left|exact Hm].
Qed.

Lemma uniqueAttractions_spec l :
  NoDup (map xid (uniqueAttractions l)) /\
  Forall (fun a => In a l) (uniqueAttractions l).
Proof.
  unfold uniqueAttractions.
  destruct (@fold_keyed l l []) as [Hnd Hall];
    [apply incl_refl|split; constructor|].
  set (m := fold_left _ l []) in *. split.
  - rewrite map_map.
    replace (map (fun e => xid (snd e)) m) with (map fst m); [exact Hnd|].
    apply map_ext_in. intros e He. rewrite Forall_forall in Hall.
    symmetry. now apply Hall.
  - apply Forall_forall. intros a Ha. apply in_map_iff in Ha as (e & <- & He).
    rewrite Forall_forall in Hall. now apply Hall.
Qed.

(** X18: what [fetchNearbyAttractions] returns for the places its
    requests collected: at most 15 places, each of them one of those
    collected and with a name that is not blank, no two with the same
    [xid], in the order of decreasing rate and, among equal rates, of
    increasing distance. *)
Theorem ranked_attractions (allAttractions : list OpenTripMapPlace) :
  let r := ranked allAttractions in
  (List.length r <= 15)%nat /\
  Forall (fun a => In a allAttractions /\ named a = true) r /\
  NoDup (map xid r) /\
  StronglySorted before r /\
  (forall a b, before a b
     <-> QArith_base.Qlt (rate b) (rate a)
         \/ (QArith_base.Qeq (rate b) (rate a) /\ QArith_base.Qle (dist a) (dist b))).
Proof.
  cbv zeta. unfold ranked.
  destruct (uniqueAttractions_spec allAttractions) as [Hnd Hall].
  split; [apply firstn_le_length|]. split; [|split; [|split]].
  - apply Forall_forall. intros a Ha. apply firstn_In in Ha.
    apply (Permutation_in _ (sort_perm _)) in Ha.
    apply filter_In in Ha as [Ha Hn]. rewrite Forall_forall in Hall.
    split; [now apply Hall|exact Hn].
  - apply firstn_NoDup.
    apply (Permutation_NoDup (Permutation_map xid (Permutation_sym (sort_perm _)))).
    now apply filter_NoDup.
  - apply firstn_sorted, sort_sorted.
  - apply before_iff.
Qed.

End RankingFacts.
